(** * Red-black tree with an in-order doubly linked list (rbtree.go)

    A shallow embedding of the pointer program: nodes live in a store
    indexed by addresses, the Go [nil] pointer is address [0] (never
    allocated, so dereferencing it fails), and every function of
    rbtree.go is a computation in a state-and-failure monad.  Loops take
    a fuel argument. *)

From stdpp Require Import gmap list sorting.

(** ** Data model *)

Abbreviation ptr := nat.

(** Go's [nil] pointer. *)
Definition null : ptr := 0.

Definition RED : bool := false.
Definition BLACK : bool := true.

Declare Scope M_scope.
Local Open Scope M_scope.

Section Model.

(** The [Item] interface: an abstract carrier with its [Less] method.  A
    [nil] interface value is [None]. *)
Context {Item : Type} (Less : Item → Item → bool).

Record Rbnode := mkNode {
  left : ptr;
  right : ptr;
  parent : ptr;
  prev : ptr;
  next : ptr;
  item : option Item;
  color : bool
}.

Record Rbtree := mkTree {
  nill : ptr;
  root : ptr;
  count : Z;
  first : ptr;
  last : ptr
}.

(** The receiver [t] together with the node store. *)
Record state := mkState {
  tree : Rbtree;
  heap : gmap nat Rbnode
}.

(** Field assignments. *)
Definition set_left (v : ptr) (n : Rbnode) : Rbnode :=
  mkNode v (right n) (parent n) (prev n) (next n) (item n) (color n).
Definition set_right (v : ptr) (n : Rbnode) : Rbnode :=
  mkNode (left n) v (parent n) (prev n) (next n) (item n) (color n).
Definition set_parent (v : ptr) (n : Rbnode) : Rbnode :=
  mkNode (left n) (right n) v (prev n) (next n) (item n) (color n).
Definition set_prev (v : ptr) (n : Rbnode) : Rbnode :=
  mkNode (left n) (right n) (parent n) v (next n) (item n) (color n).
Definition set_next (v : ptr) (n : Rbnode) : Rbnode :=
  mkNode (left n) (right n) (parent n) (prev n) v (item n) (color n).
Definition set_color (v : bool) (n : Rbnode) : Rbnode :=
  mkNode (left n) (right n) (parent n) (prev n) (next n) (item n) v.

Definition set_root (v : ptr) (t : Rbtree) : Rbtree :=
  mkTree (nill t) v (count t) (first t) (last t).
Definition set_count (v : Z) (t : Rbtree) : Rbtree :=
  mkTree (nill t) (root t) v (first t) (last t).
Definition set_first (v : ptr) (t : Rbtree) : Rbtree :=
  mkTree (nill t) (root t) (count t) v (last t).
Definition set_last (v : ptr) (t : Rbtree) : Rbtree :=
  mkTree (nill t) (root t) (count t) (first t) v.

(** ** The monad: state, a run-time panic, and fuel exhaustion *)

Inductive res (A : Type) : Type :=
  | Ok (a : A) (s : state)
  | Panic
  | Timeout.
Global Arguments Ok {A} a s.
Global Arguments Panic {A}.
Global Arguments Timeout {A}.

Definition M (A : Type) : Type := state → res A.

Definition ret {A} (a : A) : M A := λ s, Ok a s.
Definition bind {A B} (m : M A) (k : A → M B) : M B :=
  λ s, match m s with
       | Ok a s' => k a s'
       | Panic => Panic
       | Timeout => Timeout
       end.
Definition panic {A} : M A := λ _, Panic.
Definition timeout {A} : M A := λ _, Timeout.

Notation "x ← y ; z" := (bind y (λ x, z))
  (at level 20, y at level 100, z at level 200, only parsing) : M_scope.
Notation "x ;; z" := (bind x (λ _, z))
  (at level 100, z at level 200, only parsing, right associativity) : M_scope.

(** [p.f]: panics on [nil] and on any address that was never allocated. *)
Definition load {A} (f : Rbnode → A) (p : ptr) : M A :=
  λ s, match heap s !! p with
       | Some n => Ok (f n) s
       | None => Panic
       end.

(** [p.f = v] for the setter [g = set_f v]. *)
Definition store (g : Rbnode → Rbnode) (p : ptr) : M unit :=
  λ s, match heap s !! p with
       | Some n => Ok tt (mkState (tree s) (<[p := g n]> (heap s)))
       | None => Panic
       end.

(** [t.f] and [t.f = v]. *)
Definition tget {A} (f : Rbtree → A) : M A := λ s, Ok (f (tree s)) s.
Definition tset (g : Rbtree → Rbtree) : M unit :=
  λ s, Ok tt (mkState (g (tree s)) (heap s)).

(** [&Rbnode{...}]: a fresh non-nil address. *)
Definition new_addr (h : gmap nat Rbnode) : ptr := fresh ({[null]} ∪ dom h).
Definition alloc (n : Rbnode) : M ptr :=
  λ s, let a := new_addr (heap s) in
       Ok a (mkState (tree s) (<[a := n]> (heap s))).

(** [a.Less(b)] on interface values: calling a method of a [nil]
    interface panics; a [nil] argument is handed to the user's method,
    which (as [Int.Less] in the tests does) type-asserts it and panics. *)
Definition less (a b : option Item) : M bool :=
  match a, b with
  | Some x, Some y => ret (Less x y)
  | _, _ => panic
  end.

(** ** Main API: constructors and accessors *)

Definition nillNode : Rbnode := mkNode null null null null null None BLACK.

Definition NewRbtree : state :=
  let a := new_addr ∅ in
  mkState (mkTree a a 0 a a) {[a := nillNode]}.

Definition Init : M unit :=
  nillN ← alloc nillNode;
  tset (λ _, mkTree nillN nillN 0 nillN nillN).

Definition Count : M Z := tget count.
Definition First : M ptr := tget first.
Definition Last : M ptr := tget last.
Definition Next (node : ptr) : M ptr := load next node.
Definition Prev (node : ptr) : M ptr := load prev node.

(** ** Private methods *)

Definition leftRotate (x : ptr) : M unit :=
  xr ← load right x; nl ← tget nill;
  if xr =? nl then ret tt else
  y ← load right x;
  yl ← load left y;
  store (set_right yl) x;;
  yl ← load left y; nl ← tget nill;
  (if negb (yl =? nl) then
     yl ← load left y; store (set_parent x) yl
   else ret tt);;
  xp ← load parent x;
  store (set_parent xp) y;;
  xp ← load parent x; nl ← tget nill;
  (if xp =? nl then tset (set_root y)
   else
     xp ← load parent x; xpl ← load left xp;
     if x =? xpl then
       xp ← load parent x; store (set_left y) xp
     else
       xp ← load parent x; store (set_right y) xp);;
  store (set_left x) y;;
  store (set_parent y) x.

Definition rightRotate (x : ptr) : M unit :=
  xl ← load left x; nl ← tget nill;
  if xl =? nl then ret tt else
  y ← load left x;
  yr ← load right y;
  store (set_left yr) x;;
  yr ← load right y; nl ← tget nill;
  (if negb (yr =? nl) then
     yr ← load right y; store (set_parent x) yr
   else ret tt);;
  xp ← load parent x;
  store (set_parent xp) y;;
  xp ← load parent x; nl ← tget nill;
  (if xp =? nl then tset (set_root y)
   else
     xp ← load parent x; xpl ← load left xp;
     if x =? xpl then
       xp ← load parent x; store (set_left y) xp
     else
       xp ← load parent x; store (set_right y) xp);;
  store (set_right x) y;;
  store (set_parent y) x.

(** One iteration of the loop of [insertFixup]; returns the next [z]. *)
Definition insertFixup_body (z : ptr) : M ptr :=
  zp ← load parent z; zpp ← load parent zp; zppl ← load left zpp;
  if zp =? zppl then
    zp ← load parent z; zpp ← load parent zp;
    y ← load right zpp;
    yc ← load color y;
    if eqb yc RED then
      zp ← load parent z; store (set_color BLACK) zp;;
      store (set_color BLACK) y;;
      zp ← load parent z; zpp ← load parent zp;
      store (set_color RED) zpp;;
      zp ← load parent z; zpp ← load parent zp;
      ret zpp
    else
      zp ← load parent z; zpr ← load right zp;
      z ← (if z =? zpr then
             z ← load parent z;
             leftRotate z;;
             ret z
           else ret z);
      zp ← load parent z; store (set_color BLACK) zp;;
      zp ← load parent z; zpp ← load parent zp;
      store (set_color RED) zpp;;
      zp ← load parent z; zpp ← load parent zp;
      rightRotate zpp;;
      ret z
  else
    zp ← load parent z; zpp ← load parent zp;
    y ← load left zpp;
    yc ← load color y;
    if eqb yc RED then
      zp ← load parent z; store (set_color BLACK) zp;;
      store (set_color BLACK) y;;
      zp ← load parent z; zpp ← load parent zp;
      store (set_color RED) zpp;;
      zp ← load parent z; zpp ← load parent zp;
      ret zpp
    else
      zp ← load parent z; zpl ← load left zp;
      z ← (if z =? zpl then
             z ← load parent z;
             rightRotate z;;
             ret z
           else ret z);
      zp ← load parent z; store (set_color BLACK) zp;;
      zp ← load parent z; zpp ← load parent zp;
      store (set_color RED) zpp;;
      zp ← load parent z; zpp ← load parent zp;
      leftRotate zpp;;
      ret z.

Fixpoint insertFixup_loop (fuel : nat) (z : ptr) : M unit :=
  match fuel with
  | O => timeout
  | S fuel =>
      zp ← load parent z; c ← load color zp;
      if eqb c RED then
        z ← insertFixup_body z;
        insertFixup_loop fuel z
      else ret tt
  end.

Definition insertFixup (fuel : nat) (z : ptr) : M unit :=
  insertFixup_loop fuel z;;
  r ← tget root;
  store (set_color BLACK) r.

Fixpoint min_loop (fuel : nat) (x : ptr) : M ptr :=
  match fuel with
  | O => timeout
  | S fuel =>
      xl ← load left x; nl ← tget nill;
      if negb (xl =? nl) then
        x ← load left x;
        min_loop fuel x
      else ret x
  end.

Definition min (fuel : nat) (x : ptr) : M ptr :=
  nl ← tget nill;
  if x =? nl then tget nill else min_loop fuel x.

Fixpoint max_loop (fuel : nat) (x : ptr) : M ptr :=
  match fuel with
  | O => timeout
  | S fuel =>
      xr ← load right x; nl ← tget nill;
      if negb (xr =? nl) then
        x ← load right x;
        max_loop fuel x
      else ret x
  end.

Definition max (fuel : nat) (x : ptr) : M ptr :=
  nl ← tget nill;
  if x =? nl then tget nill else max_loop fuel x.

Fixpoint search_loop (fuel : nat) (x p : ptr) : M ptr :=
  match fuel with
  | O => timeout
  | S fuel =>
      nl ← tget nill;
      if negb (p =? nl) then
        pi ← load item p; xi ← load item x;
        b ← less pi xi;
        if b then
          p ← load right p;
          search_loop fuel x p
        else
          xi ← load item x; pi ← load item p;
          b ← less xi pi;
          if b then
            p ← load left p;
            search_loop fuel x p
          else ret p
      else ret p
  end.

Definition search (fuel : nat) (x : ptr) : M ptr :=
  p ← tget root;
  search_loop fuel x p.

Fixpoint successor_loop (fuel : nat) (x y : ptr) : M ptr :=
  match fuel with
  | O => timeout
  | S fuel =>
      nl ← tget nill;
      if negb (y =? nl) then
        yr ← load right y;
        if x =? yr then
          yp ← load parent y;
          successor_loop fuel y yp
        else ret y
      else ret y
  end.

Definition successor (fuel : nat) (x : ptr) : M ptr :=
  nl ← tget nill;
  if x =? nl then tget nill else
  xr ← load right x; nl ← tget nill;
  if negb (xr =? nl) then
    xr ← load right x;
    min fuel xr
  else
    y ← load parent x;
    successor_loop fuel x y.

Definition transplant (u v : ptr) : M unit :=
  up ← load parent u; nl ← tget nill;
  (if up =? nl then tset (set_root v)
   else
     up ← load parent u; upl ← load left up;
     if u =? upl then
       up ← load parent u; store (set_left v) up
     else
       up ← load parent u; store (set_right v) up);;
  up ← load parent u;
  store (set_parent up) v.

(** The descent of [insert]: [inl x] is the early return on an equal
    item, [inr y] the parent under which [z] is to be linked. *)
Fixpoint insert_loop (fuel : nat) (z x y : ptr) : M (ptr + ptr) :=
  match fuel with
  | O => timeout
  | S fuel =>
      nl ← tget nill;
      if negb (x =? nl) then
        zi ← load item z; xi ← load item x;
        b ← less zi xi;
        if b then
          x' ← load left x;
          insert_loop fuel z x' x
        else
          xi ← load item x; zi ← load item z;
          b ← less xi zi;
          if b then
            x' ← load right x;
            insert_loop fuel z x' x
          else ret (inl x)
      else ret (inr y)
  end.

Definition insert (fuel : nat) (z : ptr) : M (ptr * bool) :=
  x ← tget root;
  y ← tget nill;
  r ← insert_loop fuel z x y;
  match r with
  | inl x => ret (x, false)
  | inr y =>
      store (set_parent y) z;;
      nl ← tget nill;
      (if y =? nl then tset (set_root z)
       else
         zi ← load item z; yi ← load item y;
         b ← less zi yi;
         if b then store (set_left z) y
         else store (set_right z) y);;
      c ← tget count; tset (set_count (c + 1));;
      insertFixup fuel z;;
      s ← successor fuel z; store (set_next s) z;;
      zn ← load next z; nl ← tget nill;
      (if negb (zn =? nl) then
         zn ← load next z; znp ← load prev zn;
         store (set_prev znp) z;;
         zn ← load next z; store (set_prev z) zn
       else
         zp ← load parent z; store (set_prev zp) z;;
         tset (set_last z));;
      zp ← load prev z; nl ← tget nill;
      (if negb (zp =? nl) then
         zp ← load prev z; store (set_next z) zp
       else tset (set_first z));;
      ret (z, true)
  end.

(** One iteration of the loop of [deleteFixup]; returns the next [x]. *)
Definition deleteFixup_body (x : ptr) : M ptr :=
  xp ← load parent x; xpl ← load left xp;
  if x =? xpl then
    xp ← load parent x; w ← load right xp;
    wc ← load color w;
    w ← (if eqb wc RED then
           store (set_color BLACK) w;;
           xp ← load parent x; store (set_color RED) xp;;
           xp ← load parent x; leftRotate xp;;
           xp ← load parent x; load right xp
         else ret w);
    wl ← load left w; wlc ← load color wl;
    wr ← load right w; wrc ← load color wr;
    if eqb wlc BLACK && eqb wrc BLACK then
      store (set_color RED) w;;
      load parent x
    else
      wr ← load right w; wrc ← load color wr;
      w ← (if eqb wrc BLACK then
             wl ← load left w; store (set_color BLACK) wl;;
             store (set_color RED) w;;
             rightRotate w;;
             xp ← load parent x; load right xp
           else ret w);
      xp ← load parent x; xpc ← load color xp;
      store (set_color xpc) w;;
      xp ← load parent x; store (set_color BLACK) xp;;
      wr ← load right w; store (set_color BLACK) wr;;
      xp ← load parent x; leftRotate xp;;
      tget root
  else
    xp ← load parent x; w ← load left xp;
    wc ← load color w;
    w ← (if eqb wc RED then
           store (set_color BLACK) w;;
           xp ← load parent x; store (set_color RED) xp;;
           xp ← load parent x; rightRotate xp;;
           xp ← load parent x; load left xp
         else ret w);
    wl ← load left w; wlc ← load color wl;
    wr ← load right w; wrc ← load color wr;
    if eqb wlc BLACK && eqb wrc BLACK then
      store (set_color RED) w;;
      load parent x
    else
      wl ← load left w; wlc ← load color wl;
      w ← (if eqb wlc BLACK then
             wr ← load right w; store (set_color BLACK) wr;;
             store (set_color RED) w;;
             leftRotate w;;
             xp ← load parent x; load left xp
           else ret w);
      xp ← load parent x; xpc ← load color xp;
      store (set_color xpc) w;;
      xp ← load parent x; store (set_color BLACK) xp;;
      wl ← load left w; store (set_color BLACK) wl;;
      xp ← load parent x; rightRotate xp;;
      tget root.

Fixpoint deleteFixup_loop (fuel : nat) (x : ptr) : M ptr :=
  match fuel with
  | O => timeout
  | S fuel =>
      r ← tget root;
      if negb (x =? r) then
        xc ← load color x;
        if eqb xc BLACK then
          x ← deleteFixup_body x;
          deleteFixup_loop fuel x
        else ret x
      else ret x
  end.

Definition deleteFixup (fuel : nat) (x : ptr) : M unit :=
  x ← deleteFixup_loop fuel x;
  store (set_color BLACK) x.

(** The loop [for y.left != t.nill { y = y.left }] of [remove_raw]. *)
Fixpoint leftmost_loop (fuel : nat) (y : ptr) : M ptr :=
  match fuel with
  | O => timeout
  | S fuel =>
      yl ← load left y; nl ← tget nill;
      if negb (yl =? nl) then
        y ← load left y;
        leftmost_loop fuel y
      else ret y
  end.

(** The branch of [remove_raw] for a node [z] with two children, once
    [y], the leftmost node of the right subtree, is found: [y] takes the
    place and the colour of [z]. *)
Definition unlink_two (z y : ptr) : M (ptr * bool) :=
  yOriginalColor ← load color y;
  x ← load right y;
  yp ← load parent y;
  (if yp =? z then store (set_parent y) x
   else
     yr ← load right y; transplant y yr;;
     zr ← load right z; store (set_right zr) y;;
     yr ← load right y; store (set_parent y) yr);;
  transplant z y;;
  zl ← load left z; store (set_left zl) y;;
  yl ← load left y; store (set_parent y) yl;;
  zc ← load color z; store (set_color zc) y;;
  ret (x, yOriginalColor).

(** The first part of [remove_raw], up to the test of
    [yOriginalColor]: unlinks [z] from the tree and returns [x] and
    [yOriginalColor]. *)
Definition remove_raw_unlink (fuel : nat) (z : ptr) : M (ptr * bool) :=
  yOriginalColor ← load color z;
  zl ← load left z; nl ← tget nill;
  if zl =? nl then
    x ← load right z;
    zr ← load right z; transplant z zr;;
    ret (x, yOriginalColor)
  else
    zr ← load right z; nl ← tget nill;
    if zr =? nl then
      x ← load left z;
      zl ← load left z; transplant z zl;;
      ret (x, yOriginalColor)
    else
      y ← load right z;
      y ← leftmost_loop fuel y;
      unlink_two z y.

Definition remove_raw (fuel : nat) (z : ptr) : M (ptr * bool) :=
  r ← remove_raw_unlink fuel z;
  let '(x, yOriginalColor) := r in
  (if eqb yOriginalColor BLACK then deleteFixup fuel x else ret tt);;
  c ← tget count; tset (set_count (c - 1));;
  zn ← load next z; nl ← tget nill;
  (if negb (zn =? nl) then
     zn ← load next z; zp ← load prev z; store (set_prev zp) zn
   else
     zp ← load prev z; tset (set_last zp));;
  zp ← load prev z; nl ← tget nill;
  (if negb (zp =? nl) then
     zp ← load prev z; zn ← load next z; store (set_next zn) zp
   else
     zn ← load next z; tset (set_first zn));;
  ret (z, true).

Definition remove (fuel : nat) (key : ptr) : M (ptr * bool) :=
  z ← search fuel key;
  nl ← tget nill;
  if z =? nl then ret (null, false)
  else remove_raw fuel z.

(** ** Main API: mutators and queries *)

(** An [Item] interface value as returned to the caller: [nil], a
    caller's item, or a [*Rbnode] (which has the promoted [Less] method
    and therefore is an [Item] too). *)
Inductive iface : Type :=
  | INil
  | IItem (i : Item)
  | INode (p : ptr).

Definition iface_of (o : option Item) : iface :=
  match o with
  | Some i => IItem i
  | None => INil
  end.

Definition Insert (fuel : nat) (it : option Item) : M (ptr * bool) :=
  match it with
  | None => ret (null, false)
  | Some _ =>
      nl ← tget nill;
      z ← alloc (mkNode nl nl nl nl nl it RED);
      insert fuel z
  end.

Definition Remove (fuel : nat) (it : option Item) : M (iface * bool) :=
  match it with
  | None => ret (INil, false)
  | Some _ =>
      nl ← tget nill;
      key ← alloc (mkNode nl nl nl nl nl it RED);
      r ← remove fuel key;
      let '(node, ok) := r in
      if ok then
        i ← load item node;
        ret (iface_of i, true)
      else ret (INil, false)
  end.

Definition Remove_raw (fuel : nat) (z : ptr) : M (iface * bool) :=
  if z =? null then ret (INil, false)
  else
    r ← remove_raw fuel z;
    let '(node, ok) := r in
    ret (INode node, ok).

Definition Get (fuel : nat) (it : option Item) : M ptr :=
  match it with
  | None => ret null
  | Some _ =>
      nl ← tget nill;
      key ← alloc (mkNode nl nl nl nl nl it RED);
      r ← search fuel key;
      nl ← tget nill;
      if r =? nl then ret null else ret r
  end.

(** ** Tests methods *)

(** [testBST]: [count] is the counter that the caller passes by
    reference; the new value is returned. *)
Fixpoint testBST (fuel : nat) (node nl : ptr) (count : Z) : M Z :=
  match fuel with
  | O => timeout
  | S fuel =>
      let count := (count + 1)%Z in
      nleft ← load left node;
      count ← (if negb (nleft =? nl) then
                 l ← load left node; li ← load item l; ni ← load item node;
                 b ← less li ni;
                 if negb b then panic
                 else
                   l ← load left node;
                   testBST fuel l nl count
               else ret count);
      nright ← load right node;
      if negb (nright =? nl) then
        ni ← load item node; r ← load right node; ri ← load item r;
        b ← less ni ri;
        if negb b then panic
        else
          r ← load right node;
          testBST fuel r nl count
      else ret count
  end.

(** [testBlack]: [total] is the depth that the caller passes by
    reference, -1 as long as no leaf was seen; the new value is
    returned. *)
Fixpoint testBlack (fuel : nat) (node nl : ptr) (blackDep total : Z)
    : M Z :=
  match fuel with
  | O => timeout
  | S fuel =>
      if node =? nl then
        if (total =? -1)%Z then ret blackDep
        else if negb (total =? blackDep)%Z then panic
        else ret total
      else
        c ← load color node;
        let blackDep := if eqb c BLACK then (blackDep + 1)%Z else blackDep in
        l ← load left node;
        total ← testBlack fuel l nl blackDep total;
        r ← load right node;
        testBlack fuel r nl blackDep total
  end.

(** ** Abstract trees and their representation in the store *)

(** The shape of the tree below a pointer: colour, address and item of
    every node.  [Leaf] stands for the sentinel. *)
Inductive atree : Type :=
  | Leaf
  | Node (c : bool) (l : atree) (a : ptr) (k : Item) (r : atree).

(** One step of a path from a node up to the root: the parent together
    with the sibling subtree. *)
Inductive frame : Type :=
  | InL (c : bool) (a : ptr) (k : Item) (r : atree)
  | InR (c : bool) (l : atree) (a : ptr) (k : Item).

(** A context is the path from a hole to the root, innermost frame
    first. *)
Definition fill (F : frame) (t : atree) : atree :=
  match F with
  | InL c a k r => Node c t a k r
  | InR c l a k => Node c l a k t
  end.

Fixpoint plug (C : list frame) (t : atree) : atree :=
  match C with
  | [] => t
  | F :: C => plug C (fill F t)
  end.

Definition root_of (nl : ptr) (t : atree) : ptr :=
  match t with
  | Leaf => nl
  | Node _ _ a _ _ => a
  end.

Definition rcolor (t : atree) : bool :=
  match t with
  | Leaf => BLACK
  | Node c _ _ _ _ => c
  end.

Definition faddr (F : frame) : ptr :=
  match F with
  | InL _ a _ _ => a
  | InR _ _ a _ => a
  end.

Definition fcolor (F : frame) : bool :=
  match F with
  | InL c _ _ _ => c
  | InR c _ _ _ => c
  end.

Definition caddr (nl : ptr) (C : list frame) : ptr :=
  match C with
  | [] => nl
  | F :: _ => faddr F
  end.

Definition ccolor (C : list frame) : bool :=
  match C with
  | [] => BLACK
  | F :: _ => fcolor F
  end.

(** In-order traversal: addresses and items. *)
Fixpoint addrs (t : atree) : list ptr :=
  match t with
  | Leaf => []
  | Node _ l a _ r => addrs l ++ a :: addrs r
  end.

Fixpoint keys (t : atree) : list Item :=
  match t with
  | Leaf => []
  | Node _ l _ k r => keys l ++ k :: keys r
  end.

(** The part of the in-order traversal to the left and to the right of
    the hole of a context. *)
Fixpoint ctxL (C : list frame) : list ptr :=
  match C with
  | [] => []
  | InL _ _ _ _ :: C => ctxL C
  | InR _ l a _ :: C => ctxL C ++ addrs l ++ [a]
  end.

Fixpoint ctxR (C : list frame) : list ptr :=
  match C with
  | [] => []
  | InL _ a _ r :: C => a :: addrs r ++ ctxR C
  | InR _ _ _ _ :: C => ctxR C
  end.

Fixpoint kctxL (C : list frame) : list Item :=
  match C with
  | [] => []
  | InL _ _ _ _ :: C => kctxL C
  | InR _ l _ k :: C => kctxL C ++ keys l ++ [k]
  end.

Fixpoint kctxR (C : list frame) : list Item :=
  match C with
  | [] => []
  | InL _ _ k r :: C => k :: keys r ++ kctxR C
  | InR _ _ _ _ :: C => kctxR C
  end.

(** The tree fields of the node at [a]. *)
Definition tnode (h : gmap nat Rbnode) (a l r p : ptr) (c : bool) (k : Item)
    : Prop :=
  ∃ pv nx, h !! a = Some (mkNode l r p pv nx (Some k) c).

(** [rep h nl t par]: the store holds the tree [t] below a node whose
    parent pointer is [par]. *)
Fixpoint rep (h : gmap nat Rbnode) (nl : ptr) (t : atree) (par : ptr) : Prop :=
  match t with
  | Leaf => True
  | Node c l a k r =>
      tnode h a (root_of nl l) (root_of nl r) par c k ∧
      rep h nl l a ∧ rep h nl r a
  end.

(** [rep_ctx h nl par rt C hole]: the store holds the context [C]
    around a subtree whose root pointer is [hole]; [rt] is the pointer to
    the outermost node and [par] its parent pointer (the sentinel for a
    whole tree). *)
Fixpoint rep_ctx (h : gmap nat Rbnode) (nl par rt : ptr) (C : list frame)
    (hole : ptr) : Prop :=
  match C with
  | [] => rt = hole
  | InL c a k r :: C' =>
      tnode h a hole (root_of nl r) (caddr par C') c k ∧
      rep h nl r a ∧ rep_ctx h nl par rt C' a
  | InR c l a k :: C' =>
      tnode h a (root_of nl l) hole (caddr par C') c k ∧
      rep h nl l a ∧ rep_ctx h nl par rt C' a
  end.

(** The whole tree: the root's parent is the sentinel. *)
Definition trep (h : gmap nat Rbnode) (nl rt : ptr) (T : atree) : Prop :=
  rt = root_of nl T ∧ rep h nl T nl.

(** The sentinel is allocated, black and holds no item. *)
Definition sentinel (h : gmap nat Rbnode) (nl : ptr) : Prop :=
  ∃ l r p pv nx, h !! nl = Some (mkNode l r p pv nx None BLACK).

(** The store holds the tree [T], without sharing. *)
Definition tok (s : state) (T : atree) : Prop :=
  trep (heap s) (nill (tree s)) (root (tree s)) T ∧
  sentinel (heap s) (nill (tree s)) ∧
  NoDup (addrs T) ∧ nill (tree s) ∉ addrs T.

(** Red-black balance of a subtree: no red node has a red child and
    every path to a leaf has [n] black nodes. *)
Fixpoint rbt (t : atree) (n : nat) : Prop :=
  match t with
  | Leaf => n = 0
  | Node c l _ _ r =>
      if c then
        match n with
        | O => False
        | S m => rbt l m ∧ rbt r m
        end
      else rcolor l = BLACK ∧ rcolor r = BLACK ∧ rbt l n ∧ rbt r n
  end.

Definition is_rb (T : atree) : Prop := rcolor T = BLACK ∧ ∃ n, rbt T n.

(** Balance of a context whose hole takes a subtree of black height
    [n]: a red frame has a black sibling and a black parent, and is not
    the root. *)
Fixpoint rbc (C : list frame) (n : nat) : Prop :=
  match C with
  | [] => True
  | InL c _ _ r :: C' | InR c r _ _ :: C' =>
      if c then rbt r n ∧ rbc C' (S n)
      else rcolor r = BLACK ∧ rbt r n ∧ ccolor C' = BLACK ∧ C' ≠ [] ∧
           rbc C' n
  end.

(** The doubly linked list: [dll h l pv nx] holds when the nodes [l]
    are chained by [next] and [prev], the first one having [prev = pv]
    and the last one [next = nx]. *)
Fixpoint dll (h : gmap nat Rbnode) (l : list ptr) (pv nx : ptr) : Prop :=
  match l with
  | [] => True
  | a :: l' =>
      (∃ n, h !! a = Some n ∧ prev n = pv ∧ next n = hd nx l') ∧
      dll h l' a nx
  end.

(** The four invariants of the container that do not depend on the
    order: shape, balance, list agreement and count. *)
Definition Inv (s : state) (T : atree) : Prop :=
  tok s T ∧ is_rb T ∧
  dll (heap s) (addrs T) (nill (tree s)) (nill (tree s)) ∧
  first (tree s) = hd (nill (tree s)) (addrs T) ∧
  last (tree s) = List.last (addrs T) (nill (tree s)) ∧
  count (tree s) = Z.of_nat (length (addrs T)).

(** Binary-search-tree order: the items are strictly increasing in
    order. *)
Definition lt (x y : Item) : Prop := Less x y = true.
Definition bst (T : atree) : Prop := StronglySorted lt (keys T).

(** The invariant of a container as the public operations see it:
    [Inv], and no node is stored at the [nil] address. *)
Definition Valid (s : state) (T : atree) : Prop :=
  Inv s T ∧ heap s !! null = None.

(** The three invariants of the specification, on a state. *)
Definition rb_balance (s : state) : Prop :=
  ∃ T, tok s T ∧ is_rb T.


(** Reading the tree back from the store, as far as the fuel goes. *)
Fixpoint build (fuel : nat) (h : gmap nat Rbnode) (nl p : ptr)
    : option atree :=
  match fuel with
  | O => None
  | S fuel =>
      if p =? nl then Some Leaf
      else
        match h !! p with
        | Some n =>
            match item n, build fuel h nl (left n), build fuel h nl (right n) with
            | Some k, Some l, Some r => Some (Node (color n) l p k r)
            | _, _, _ => None
            end
        | None => None
        end
  end.

(** The shape of a tree, without the colours. *)
Fixpoint shape (t : atree) : atree :=
  match t with
  | Leaf => Leaf
  | Node _ l a k r => Node BLACK (shape l) a k (shape r)
  end.

(** ** Reasoning about computations *)

(** Weakest precondition: the computation returns and its result
    satisfies [Q]. *)
Definition wp {A} (m : M A) (s : state) (Q : A → state → Prop) : Prop :=
  match m s with
  | Ok a s' => Q a s'
  | _ => False
  end.

(** Disjoint lists. *)
Definition disj (l k : list ptr) : Prop := ∀ x, x ∈ l → x ∉ k.

(** The list fields and the item of a node. *)
Definition lview (n : Rbnode) : ptr * ptr * option Item :=
  (prev n, next n, item n).

(** The tree fields and the item of a node. *)
Definition tview (n : Rbnode) : ptr * ptr * ptr * bool * option Item :=
  (left n, right n, parent n, color n, item n).

(** What an operation on the tree part leaves alone: the other fields
    of the container, the list fields of every node, and every node
    outside [L]. *)
Definition tframe (s0 s : state) (L : list ptr) : Prop :=
  nill (tree s) = nill (tree s0) ∧ count (tree s) = count (tree s0) ∧
  first (tree s) = first (tree s0) ∧ last (tree s) = last (tree s0) ∧
  (∀ a, lview <$> heap s !! a = lview <$> heap s0 !! a) ∧
  (∀ a, a ∉ L → heap s !! a = heap s0 !! a).

(** A state reached from [s0] by tree operations that keep the in-order
    sequence [L0], [K0]. *)
Definition tstep (nl : ptr) (s0 : state) (L0 : list ptr) (K0 : list Item)
    (s : state) (T : atree) : Prop :=
  nill (tree s) = nl ∧ tok s T ∧ addrs T = L0 ∧ keys T = K0 ∧
  tframe s0 s L0.

(** The root painted black, as [insertFixup] leaves it. *)
Definition blacken (t : atree) : atree :=
  match t with
  | Leaf => Leaf
  | Node _ l a k r => Node BLACK l a k r
  end.

(** The node at address [z], if it is in the tree, has no left child. *)
Fixpoint noleft (z : ptr) (t : atree) : Prop :=
  match t with
  | Leaf => True
  | Node _ l a _ r => (a = z → l = Leaf) ∧ noleft z l ∧ noleft z r
  end.

(** Balance of the subtree under the cursor of [deleteFixup]: as [rbt],
    but a red root may have red children. *)
Definition rbt_rr (t : atree) (n : nat) : Prop :=
  match t with
  | Leaf => n = 0
  | Node c l _ _ r =>
      if c then
        match n with
        | O => False
        | S m => rbt l m ∧ rbt r m
        end
      else rbt l n ∧ rbt r n
  end.

(** A context that descends to the left only. *)
Definition is_InL (F : frame) : Prop :=
  match F with
  | InL _ _ _ _ => True
  | InR _ _ _ _ => False
  end.
Definition all_left (C : list frame) : Prop := Forall is_InL C.

(** What the first part of [remove_raw] does to the tree
    [plug C (Node cz L z kz R)]: the result is [plug Cx tx], where [tx]
    is the subtree below the returned [x], and [c] is the colour that
    was removed. *)
Definition unlink_shape (C : list frame) (cz : bool) (L R : atree)
    (Cx : list frame) (tx : atree) (c : bool) : Prop :=
  (L = Leaf ∧ Cx = C ∧ tx = R ∧ c = cz) ∨
  (L ≠ Leaf ∧ R = Leaf ∧ Cx = C ∧ tx = L ∧ c = cz) ∨
  (L ≠ Leaf ∧ ∃ Cy cy y ky Ry,
     R = plug Cy (Node cy Leaf y ky Ry) ∧ all_left Cy ∧
     Cx = Cy ++ InR cz L y ky :: C ∧ tx = Ry ∧ c = cy).

(** The comparisons made on the way down to the hole of [C] by a
    descent with the item [x]: [search] turns left or right on one
    outcome, [insert] turns right only when the first test failed. *)
Fixpoint path (x : Item) (C : list frame) : Prop :=
  match C with
  | [] => True
  | InL _ _ k _ :: C' => Less x k = true ∧ path x C'
  | InR _ _ _ k :: C' => Less k x = true ∧ path x C'
  end.

Fixpoint ipath (x : Item) (C : list frame) : Prop :=
  match C with
  | [] => True
  | InL _ _ k _ :: C' => Less x k = true ∧ ipath x C'
  | InR _ _ _ k :: C' => Less x k = false ∧ Less k x = true ∧ ipath x C'
  end.

(** Two items are equal for the container when neither is less than the
    other. *)
Definition equiv_item (x y : Item) : Prop :=
  Less x y = false ∧ Less y x = false.

(** What is asked of [Less] where a statement needs it. *)
Definition ltrans : Prop :=
  ∀ x y z, Less x y = true → Less y z = true → Less x z = true.
Definition lirrefl : Prop := ∀ x, Less x x = false.
Definition lequiv_trans : Prop :=
  ∀ x y z, equiv_item x y → equiv_item y z → equiv_item x z.

(** The state after the first part of [remove_raw] on the tree
    [plug C (Node cz L z kz R)]: what is returned, the tree that is left,
    and what was not touched (the node [z] itself among it). *)
Definition unlink_post (s : state) (C : list frame) (cz : bool)
    (L R : atree) (res : ptr * bool) (s' : state) : Prop :=
  let nl := nill (tree s) in
  ∃ Cx tx,
    unlink_shape C cz L R Cx tx (snd res) ∧ fst res = root_of nl tx ∧
    tok s' (plug Cx tx) ∧
    nill (tree s') = nl ∧ count (tree s') = count (tree s) ∧
    first (tree s') = first (tree s) ∧ last (tree s') = last (tree s) ∧
    (∀ a, lview <$> heap s' !! a = lview <$> heap s !! a) ∧
    (∀ a, a ∉ addrs (plug Cx tx) → a ≠ nl → heap s' !! a = heap s !! a) ∧
    (tx = Leaf → ∃ l r pv nx,
       heap s' !! nl = Some (mkNode l r (caddr nl Cx) pv nx None BLACK)).

End Model.

Global Arguments set_left {Item} v !n /.
Global Arguments set_right {Item} v !n /.
Global Arguments set_parent {Item} v !n /.
Global Arguments set_prev {Item} v !n /.
Global Arguments set_next {Item} v !n /.
Global Arguments set_color {Item} v !n /.
Global Arguments set_root v !t /.
Global Arguments set_count v !t /.
Global Arguments set_first v !t /.
Global Arguments set_last v !t /.

Notation "x ← y ; z" := (bind y (λ x, z))
  (at level 20, y at level 100, z at level 200, only parsing) : M_scope.
Notation "x ;; z" := (bind x (λ _, z))
  (at level 100, z at level 200, only parsing, right associativity) : M_scope.

(** ** Examples

    Containers of machine integers ordered by [Nat.ltb], reached from a
    new container by the public operations. *)

Definition ex_less : nat → nat → bool := Nat.ltb.

Definition ex_run {A} (m : @M nat A) (s : @state nat) : @state nat :=
  match m s with Ok _ s' => s' | _ => s end.

(** 2, 1 and 3 inserted: the root holds 2 and has two red children. *)
Definition ex_state : @state nat :=
  ex_run (Insert ex_less 10 (Some 2);; Insert ex_less 10 (Some 1);;
          Insert ex_less 10 (Some 3)) NewRbtree.

Definition ex_tree : @atree nat :=
  Node BLACK (Node RED Leaf 3 1 Leaf) 2 2 (Node RED Leaf 4 3 Leaf).

(** The node at address 3, which held 2, was removed; a new node holds
    2. *)
Definition ex_before_stale : @state nat :=
  ex_run (Insert ex_less 10 (Some 3);; Insert ex_less 10 (Some 2);;
          Insert ex_less 10 (Some 4);; Remove ex_less 10 (Some 2);;
          Insert ex_less 10 (Some 2);; Insert ex_less 10 (Some 1)) NewRbtree.

Definition ex_before_tree : @atree nat :=
  Node BLACK (Node BLACK (Node RED Leaf 7 1 Leaf) 6 2 Leaf) 2 3
    (Node BLACK Leaf 4 4 Leaf).

(** One item, at address 2; and the same container after this node was
    removed. *)
Definition ex_once : @state nat :=
  ex_run (Insert ex_less 10 (Some 1)) NewRbtree.


(** 1 at the root and 2 at its right child. *)
Definition ex_two : @state nat :=
  ex_run (Insert ex_less 10 (Some 1);; Insert ex_less 10 (Some 2)) NewRbtree.

(** The state in which [insert] calls [insertFixup] when 7 is inserted
    into [ex_state]: the new red node, at address 5, is linked as the
    right child of the red node at address 4, which holds 3. *)
Definition ex_linked : @state nat :=
  ex_run (z ← alloc (mkNode 1 1 1 1 1 (Some 7) RED);
          store (set_parent 4) z;; store (set_right z) 4;;
          c ← tget count; tset (set_count (c + 1))) ex_state.

(** 2, 1, 3 and 4 inserted and 4 removed: three black nodes, 2 at the
    root (address 2), 1 at address 3 and 3 at address 4. *)
Definition ex_black : @state nat :=
  ex_run (Insert ex_less 10 (Some 2);; Insert ex_less 10 (Some 1);;
          Insert ex_less 10 (Some 3);; Insert ex_less 10 (Some 4);;
          Remove ex_less 10 (Some 4)) NewRbtree.

(** The state in which [remove_raw] calls [deleteFixup] when the black
    node at address 3 is removed from [ex_black]: the sentinel stands
    at its place, with the root as its parent. *)
Definition ex_unlinked : @state nat :=
  ex_run (remove_raw_unlink 10 3) ex_black.

(** The height of a tree: the number of nodes on its longest path. *)
Fixpoint height {Item} (t : @atree Item) : nat :=
  match t with
  | Leaf => 0
  | Node _ l _ _ r => S (Nat.max (height l) (height r))
  end.

(** The number of black nodes on the leftmost path. *)
Fixpoint bheight {Item} (t : @atree Item) : nat :=
  match t with
  | Leaf => 0
  | Node c l _ _ _ => (if c then 1 else 0) + bheight l
  end.

(** * Proofs *)

Local Set Warnings "-clear-no-such-hyp".

Section Basics.
Context {Item : Type}.
Implicit Types (s : @state Item) (h : gmap nat (@Rbnode Item)) (t T : @atree Item) (tr : @Rbtree).

Lemma wp_bind {A B} (m : M A) (k : A → M B) (s : @state Item) Q :
  wp m s (λ a s', wp (k a) s' Q) → wp (bind m k) s Q.
Proof. unfold wp, bind. destruct (m s); auto. Qed.

Lemma wp_bind_inv {A B} (m : M A) (k : A → M B) s Q :
  wp (bind m k) s Q → wp m s (λ a s', wp (k a) s' Q).
Proof. unfold wp, bind. destruct (m s); auto. Qed.

Lemma wp_assoc {A B D} (m : M A) (k : A → M B) (k' : B → M D) s Q :
  wp (bind m (λ a, bind (k a) k')) s Q → wp (bind (bind m k) k') s Q.
Proof. unfold wp, bind. destruct (m s); auto. Qed.

Lemma wp_mono {A} (m : M A) s (Q Q' : A → state → Prop) :
  wp m s Q → (∀ a s', Q a s' → Q' a s') → wp m s Q'.
Proof. unfold wp. destruct (m s); auto. Qed.

Lemma wp_ret {A} (a : A) s (Q : A → state → Prop) : Q a s → wp (ret a) s Q.
Proof. done. Qed.

Lemma wp_ok {A} (m : M A) s Q : wp m s Q ↔ ∃ a s', m s = Ok a s' ∧ Q a s'.
Proof.
  unfold wp. destruct (m s) as [a s'| |]; split.
  - eauto.
  - by intros (? & ? & [= -> ->] & ?).
  - done.
  - by intros (? & ? & ? & ?).
  - done.
  - by intros (? & ? & ? & ?).
Qed.

Lemma wp_bind_ret {A B} (a : A) (k : A → M B) s Q :
  wp (k a) s Q → wp (bind (ret a) k) s Q.
Proof. done. Qed.

Lemma wp_bind_load {A B} (f : Rbnode → A) p (k : A → M B) tr h n Q :
  h !! p = Some n → wp (k (f n)) (mkState tr h) Q →
  wp (bind (load f p) k) (mkState tr h) Q.
Proof. unfold wp, bind, load. cbn. by intros ->. Qed.

Lemma wp_bind_store {B} g p (k : unit → M B) tr h n Q :
  h !! p = Some n → wp (k tt) (mkState tr (<[p := g n]> h)) Q →
  wp (bind (store g p) k) (mkState tr h) Q.
Proof. unfold wp, bind, store. cbn. by intros ->. Qed.

Lemma wp_bind_tget {A B} (f : Rbtree → A) (k : A → M B) tr h Q :
  wp (k (f tr)) (mkState tr h) Q → wp (bind (tget f) k) (mkState tr h) Q.
Proof. done. Qed.

Lemma wp_bind_tset {B} g (k : unit → M B) tr h Q :
  wp (k tt) (mkState (g tr) h) Q → wp (bind (tset g) k) (mkState tr h) Q.
Proof. done. Qed.

Lemma wp_load {A} (f : Rbnode → A) p tr h n (Q : A → state → Prop) :
  h !! p = Some n → Q (f n) (mkState tr h) → wp (load f p) (mkState tr h) Q.
Proof. unfold wp, load. cbn. by intros ->. Qed.

Lemma wp_store g p tr h n (Q : unit → state → Prop) :
  h !! p = Some n → Q tt (mkState tr (<[p := g n]> h)) →
  wp (store g p) (mkState tr h) Q.
Proof. unfold wp, store. cbn. by intros ->. Qed.

Lemma wp_tget {A} (f : Rbtree → A) tr h (Q : A → state → Prop) :
  Q (f tr) (mkState tr h) → wp (tget f) (mkState tr h) Q.
Proof. done. Qed.

Lemma wp_tset g tr h (Q : unit → state → Prop) :
  Q tt (mkState (g tr) h) → wp (tset g) (mkState tr h) Q.
Proof. done. Qed.

(** *** Lists without repetition *)

Lemma disj_nil_l k : disj [] k ↔ True.
Proof. unfold disj. split; [done|]. intros _ x Hx. by apply elem_of_nil in Hx. Qed.
Lemma disj_nil_r l : disj l [] ↔ True.
Proof. unfold disj. split; [done|]. intros _ x _. apply not_elem_of_nil. Qed.
Lemma disj_cons_l a l k : disj (a :: l) k ↔ a ∉ k ∧ disj l k.
Proof. unfold disj. set_solver. Qed.
Lemma disj_cons_r a l k : disj l (a :: k) ↔ a ∉ l ∧ disj l k.
Proof. unfold disj. set_solver. Qed.
Lemma disj_app_l l1 l2 k : disj (l1 ++ l2) k ↔ disj l1 k ∧ disj l2 k.
Proof. unfold disj. set_solver. Qed.
Lemma disj_app_r l k1 k2 : disj l (k1 ++ k2) ↔ disj l k1 ∧ disj l k2.
Proof. unfold disj. set_solver. Qed.
Lemma NoDup_app_disj (l k : list ptr) :
  NoDup (l ++ k) ↔ NoDup l ∧ disj l k ∧ NoDup k.
Proof. apply NoDup_app. Qed.
Lemma NoDup_nil_iff : NoDup (@nil ptr) ↔ True.
Proof. split; [done|]. intros _. constructor. Qed.
Lemma not_elem_of_nil_iff (a : ptr) : a ∉ @nil ptr ↔ True.
Proof. split; [done|]. intros _. apply not_elem_of_nil. Qed.

End Basics.

(** Splits a fact about the absence of repetitions into facts about
    single addresses; facts relating two unknown lists are dropped. *)
Ltac nd_norm H :=
  let H1 := fresh "H" in let H2 := fresh "H" in let H3 := fresh "H" in
  lazymatch type of H with
  | NoDup (_ ++ _) =>
      apply NoDup_app_disj in H; destruct H as (H1 & H2 & H3);
      nd_norm H1; nd_norm H2; nd_norm H3
  | NoDup (_ :: _) =>
      apply NoDup_cons in H; destruct H as (H1 & H2); nd_norm H1; nd_norm H2
  | NoDup _ => clear H
  | disj [] _ => clear H
  | disj _ [] => clear H
  | disj (_ ++ _) _ =>
      apply disj_app_l in H; destruct H as (H1 & H2); nd_norm H1; nd_norm H2
  | disj (_ :: _) _ =>
      apply disj_cons_l in H; destruct H as (H1 & H2); nd_norm H1; nd_norm H2
  | disj _ (_ ++ _) =>
      apply disj_app_r in H; destruct H as (H1 & H2); nd_norm H1; nd_norm H2
  | disj _ (_ :: _) =>
      apply disj_cons_r in H; destruct H as (H1 & H2); nd_norm H1; nd_norm H2
  | disj _ _ => clear H
  | _ ∉ [] => clear H
  | _ ∉ _ ++ _ =>
      apply not_elem_of_app in H; destruct H as (H1 & H2);
      nd_norm H1; nd_norm H2
  | _ ∉ _ :: _ =>
      apply not_elem_of_cons in H; destruct H as (H1 & H2);
      nd_norm H1; nd_norm H2
  | _ => idtac
  end.

Section Trees.
Context {Item : Type}.
Implicit Types (s : @state Item) (h : gmap nat (@Rbnode Item))
  (t T : @atree Item) (tr : @Rbtree) (C : list (@frame Item)).

Lemma addrs_plug C t : addrs (plug C t) = ctxL C ++ addrs t ++ ctxR C.
Proof.
  revert t. induction C as [|[c a k r|c l a k] C IH]; intros t; cbn.
  - by rewrite app_nil_r.
  - rewrite IH. cbn. by rewrite <- app_assoc.
  - rewrite IH. cbn. rewrite <- !app_assoc. done.
Qed.

Lemma keys_plug C t : keys (plug C t) = kctxL C ++ keys t ++ kctxR C.
Proof.
  revert t. induction C as [|[c a k r|c l a k] C IH]; intros t; cbn.
  - by rewrite app_nil_r.
  - rewrite IH. cbn. by rewrite <- app_assoc.
  - rewrite IH. cbn. rewrite <- !app_assoc. done.
Qed.

Lemma rep_plug h nl par C t :
  rep h nl (plug C t) par ↔
  rep_ctx h nl par (root_of nl (plug C t)) C (root_of nl t) ∧
  rep h nl t (caddr par C).
Proof.
  revert t. induction C as [|[c a k r|c l a k] C IH]; intros t; cbn.
  - tauto.
  - rewrite IH. cbn. tauto.
  - rewrite IH. cbn. tauto.
Qed.

Lemma rep_ctx_rt h nl par rt C t :
  rep_ctx h nl par rt C (root_of nl t) → rt = root_of nl (plug C t).
Proof.
  revert t. induction C as [|[c a k r|c l a k] C IH]; intros t; cbn; [done|..];
    intros (_ & _ & H).
  - by apply (IH (Node c t a k r)).
  - by apply (IH (Node c l a k t)).
Qed.

Lemma trep_plug h nl rt C t :
  trep h nl rt (plug C t) ↔
  rep_ctx h nl nl rt C (root_of nl t) ∧ rep h nl t (caddr nl C).
Proof.
  unfold trep. rewrite rep_plug. split.
  - intros (-> & ? & ?). by split.
  - intros (H1 & H2). pose proof (rep_ctx_rt _ _ _ _ _ _ H1) as ->. by split.
Qed.

Lemma rep_frame h h' nl t par :
  rep h nl t par → (∀ a, a ∈ addrs t → h' !! a = h !! a) → rep h' nl t par.
Proof.
  revert par. induction t as [|c l IHl a k r IHr]; intros par; cbn; [done|].
  intros ((pv & nx & Ha) & Hl & Hr) Hfr. split_and!.
  - exists pv, nx. rewrite Hfr; [done|]. set_solver.
  - apply IHl; [done|]. intros b Hb. apply Hfr. set_solver.
  - apply IHr; [done|]. intros b Hb. apply Hfr. set_solver.
Qed.

Lemma rep_ctx_frame h h' nl par rt C hole :
  rep_ctx h nl par rt C hole →
  (∀ a, a ∈ ctxL C → h' !! a = h !! a) →
  (∀ a, a ∈ ctxR C → h' !! a = h !! a) →
  rep_ctx h' nl par rt C hole.
Proof.
  revert hole. induction C as [|[c a k r|c l a k] C IH]; intros hole; cbn;
    [done|..].
  - intros ((pv & nx & Ha) & Hr & HC) HfL HfR. split_and!.
    + exists pv, nx. rewrite HfR; [done|]. set_solver.
    + eapply rep_frame; [done|]. intros b Hb. apply HfR. set_solver.
    + apply IH; [done|done|]. intros b Hb. apply HfR. set_solver.
  - intros ((pv & nx & Ha) & Hr & HC) HfL HfR. split_and!.
    + exists pv, nx. rewrite HfL; [done|]. set_solver.
    + eapply rep_frame; [done|]. intros b Hb. apply HfL. set_solver.
    + apply IH; [done| |done]. intros b Hb. apply HfL. set_solver.
Qed.

Lemma root_of_neq nl t a : a ≠ nl → a ∉ addrs t → root_of nl t ≠ a.
Proof. destruct t; cbn; [done|]. set_solver. Qed.

Lemma caddr_neq nl C a : a ≠ nl → a ∉ ctxL C → a ∉ ctxR C → caddr nl C ≠ a.
Proof. destruct C as [|[]]; cbn; [done|..]; set_solver. Qed.

Lemma root_of_elem nl t : t ≠ Leaf → root_of nl t ∈ addrs t.
Proof. destruct t; cbn; [done|]. set_solver. Qed.

Lemma lview_insert h p n n' a :
  h !! p = Some n → lview n' = lview n →
  lview <$> <[p := n']> h !! a = lview <$> h !! a.
Proof.
  intros Hp Hv. destruct (decide (p = a)) as [->|].
  - rewrite lookup_insert_eq, Hp. cbn. by rewrite Hv.
  - by rewrite lookup_insert_ne.
Qed.

Lemma sentinel_frame h h' nl :
  sentinel h nl → h' !! nl = h !! nl → sentinel h' nl.
Proof. unfold sentinel. by intros ? ->. Qed.

Lemma tframe_refl s L : tframe s s L.
Proof. by repeat split. Qed.

End Trees.

(** Disequalities between addresses, from the facts in the context. *)
Ltac xneq :=
  first
    [ assumption
    | apply not_eq_sym; assumption
    | apply root_of_neq; [xneq | assumption]
    | apply not_eq_sym; apply root_of_neq; [xneq | assumption]
    | apply caddr_neq; [xneq | assumption | assumption]
    | apply not_eq_sym; apply caddr_neq; [xneq | assumption | assumption]
    | congruence ].

(** Lookups in a store given by a chain of updates. *)
Ltac xlookup :=
  lazymatch goal with
  | |- <[?a := _]> _ !! ?p = Some _ =>
      first [ unify a p; apply lookup_insert_eq
            | rewrite lookup_insert_ne by xneq; xlookup ]
  | |- _ => eassumption
  end.

Ltac xcbn :=
  cbn [left right parent prev next item color
       set_left set_right set_parent set_prev set_next set_color
       nill root count first last set_root set_count set_first set_last
       tree heap root_of caddr faddr fcolor ccolor rcolor].

(** The test at the head of the program. *)
Ltac xeqb a b :=
  first
    [ unify a b; rewrite (Nat.eqb_refl a)
    | rewrite (proj2 (Nat.eqb_neq a b)) by xneq ];
  cbn [negb].

Ltac xstep :=
  lazymatch goal with
  | |- wp (bind (bind _ _) _) _ _ => apply wp_assoc
  | |- wp (bind (load _ _) _) _ _ =>
      eapply wp_bind_load; [xlookup|]; xcbn
  | |- wp (bind (store _ _) _) _ _ =>
      eapply wp_bind_store; [xlookup|]; xcbn
  | |- wp (bind (tget _) _) _ _ => apply wp_bind_tget; xcbn
  | |- wp (bind (tset _) _) _ _ => apply wp_bind_tset; xcbn
  | |- wp (bind (ret _) _) _ _ => apply wp_bind_ret
  | |- wp (bind (if negb (?a =? ?b) then _ else _) _) _ _ => xeqb a b
  | |- wp (bind (if ?a =? ?b then _ else _) _) _ _ => xeqb a b
  | |- wp (if negb (?a =? ?b) then _ else _) _ _ => xeqb a b
  | |- wp (if ?a =? ?b then _ else _) _ _ => xeqb a b
  | |- wp (load _ _) _ _ => eapply wp_load; [xlookup|]; xcbn
  | |- wp (store _ _) _ _ => eapply wp_store; [xlookup|]; xcbn
  | |- wp (tget _) _ _ => apply wp_tget; xcbn
  | |- wp (tset _) _ _ => apply wp_tset; xcbn
  | |- wp (ret _) _ _ => apply wp_ret
  end.

(** Frames: a subtree or a context away from the updated nodes. *)
Ltac xframe_side :=
  let a := fresh "a" in let Ha := fresh "Ha" in
  intros a Ha;
  repeat (rewrite lookup_insert_ne;
          [|let E := fresh in intros E; rewrite <- E in Ha; contradiction]);
  reflexivity.

Ltac xrep1 :=
  lazymatch goal with
  | |- True => exact I
  | |- tnode _ _ _ _ _ _ _ => eexists _, _; xlookup
  | |- rep _ _ _ _ => eapply rep_frame; [eassumption | xframe_side]
  | |- rep_ctx _ _ _ _ _ _ =>
      eapply rep_ctx_frame; [eassumption | xframe_side | xframe_side]
  | |- _ = _ => reflexivity
  end.

Ltac xrep := cbn [rep rep_ctx root_of caddr faddr]; split_and?; xrep1.

(** Equal lists up to the bracketing of appends. *)
Ltac xapp :=
  repeat first [rewrite <- app_assoc | rewrite <- app_comm_cons | rewrite app_nil_r];
  reflexivity.

(** The list fields are untouched by a chain of tree updates. *)
Ltac xlview :=
  let a := fresh "a" in
  intros a;
  repeat (etrans; [eapply lview_insert; [xlookup | reflexivity]|]);
  reflexivity.

(** Nodes outside the tree are untouched. *)
Ltac xout :=
  let a := fresh "a" in let Ha := fresh "Ha" in
  intros a Ha; rewrite ?addrs_plug in Ha;
  cbn [addrs ctxL ctxR] in Ha; nd_norm Ha;
  repeat (rewrite lookup_insert_ne by xneq);
  reflexivity.

Section Rot.
Context {Item : Type}.
Implicit Types (s : @state Item) (h : gmap nat (@Rbnode Item))
  (t T : @atree Item) (tr : @Rbtree) (C : list (@frame Item)).

Lemma tstep_intro nl s0 L0 K0 rt cnt fst lst h T rt' h' T' :
  tstep nl s0 L0 K0 (mkState (mkTree nl rt cnt fst lst) h) T →
  trep h' nl rt' T' → addrs T' = addrs T → keys T' = keys T →
  (∀ a, lview <$> h' !! a = lview <$> h !! a) →
  (∀ a, a ∉ addrs T → h' !! a = h !! a) →
  tstep nl s0 L0 K0 (mkState (mkTree nl rt' cnt fst lst) h') T'.
Proof.
  intros (_ & (Hrep & Hsent & Hnd & Hnin) & HL & HK & Hfr) Hrep' Ha Hk Hlv Ho.
  cbn in *. unfold tstep, tok. cbn. rewrite Ha, Hk. split_and!; try done.
  - eapply sentinel_frame; [done|]. by apply Ho.
  - destruct Hfr as (?&?&?&?&Hl&Hf). unfold tframe. cbn in *.
    split_and!; try done.
    + intros a. by rewrite Hlv.
    + intros a Ha'. rewrite <- Hf by done. apply Ho. by rewrite HL.
Qed.

Lemma addrs_rot C c A x k c' B y k' G :
  addrs (plug C (Node c' (Node c A x k B) y k' G)) =
  addrs (plug C (Node c A x k (Node c' B y k' G))).
Proof. rewrite !addrs_plug. cbn. xapp. Qed.

Lemma keys_rot C c A x k c' B y k' G :
  keys (plug C (Node c' (Node c A x k B) y k' G)) =
  keys (plug C (Node c A x k (Node c' B y k' G))).
Proof. rewrite !keys_plug. cbn. xapp. Qed.

Ltac rot_tac Hst HQ :=
  let Hrep := fresh "Hrep" in let Hsent := fresh "Hsent" in
  let Hnd := fresh "Hnd" in let Hnin := fresh "Hnin" in
  let HC := fresh "HC" in let Hr := fresh "Hr" in
  pose proof Hst as (_ & (Hrep & Hsent & Hnd & Hnin) & _);
  cbn [tree heap nill root] in *;
  apply trep_plug in Hrep as [HC Hr];
  rewrite addrs_plug in Hnd, Hnin; cbn [addrs ctxL ctxR] in Hnd, Hnin;
  nd_norm Hnd; nd_norm Hnin;
  cbn [rep rep_ctx root_of] in Hr, HC; destruct_and?;
  repeat match goal with H : tnode _ _ _ _ _ _ _ |- _ =>
           destruct H as (? & ? & H) end;
  subst; xcbn; repeat xstep;
  apply HQ; eapply tstep_intro;
    [exact Hst | apply trep_plug; split; xrep
    | first [apply addrs_rot | symmetry; apply addrs_rot]
    | first [apply keys_rot | symmetry; apply keys_rot] | xlview | xout ].

Lemma wp_leftRotate nl s0 L0 K0 s C c A x k c' B y k' G Q :
  tstep nl s0 L0 K0 s (plug C (Node c A x k (Node c' B y k' G))) →
  (∀ s', tstep nl s0 L0 K0 s' (plug C (Node c' (Node c A x k B) y k' G)) →
         Q tt s') →
  wp (leftRotate x) s Q.
Proof.
  intros Hst HQ.
  destruct s as [[nl' rt cnt fst lst] h].
  assert (nl' = nl) as -> by apply Hst.
  unfold leftRotate.
  destruct C as [|[cp p kp r|cp l p kp] C]; destruct B as [|cb bl b kb br];
    rot_tac Hst HQ.
Qed.

Lemma wp_rightRotate nl s0 L0 K0 s C c A y k' B c' x k G Q :
  tstep nl s0 L0 K0 s (plug C (Node c (Node c' A y k' B) x k G)) →
  (∀ s', tstep nl s0 L0 K0 s' (plug C (Node c' A y k' (Node c B x k G))) →
         Q tt s') →
  wp (rightRotate x) s Q.
Proof.
  intros Hst HQ.
  destruct s as [[nl' rt cnt fst lst] h].
  assert (nl' = nl) as -> by apply Hst.
  unfold rightRotate.
  destruct C as [|[cp p kp r|cp l p kp] C]; destruct B as [|cb bl b kb br];
    rot_tac Hst HQ.
Qed.

End Rot.

Section Abs.
Context {Item : Type}.
Implicit Types (s : @state Item) (h : gmap nat (@Rbnode Item))
  (t T : @atree Item) (tr : @Rbtree) (C : list (@frame Item)).

Lemma node_at nl s0 L0 K0 s C c l a k r :
  tstep nl s0 L0 K0 s (plug C (Node c l a k r)) →
  tnode (heap s) a (root_of nl l) (root_of nl r) (caddr nl C) c k.
Proof.
  intros (Hnl & (Hrep & _) & _). rewrite Hnl in Hrep.
  apply trep_plug in Hrep as [_ Hr]. apply Hr.
Qed.

Lemma wp_bind_load_at {A B} (f : Rbnode → A) (k0 : A → M B)
    nl s0 L0 K0 s C c l a k r Q :
  tstep nl s0 L0 K0 s (plug C (Node c l a k r)) →
  (∀ pv nx, wp (k0 (f (mkNode (root_of nl l) (root_of nl r) (caddr nl C)
                              pv nx (Some k) c))) s Q) →
  wp (bind (load f a) k0) s Q.
Proof.
  intros (pv & nx & Ha)%node_at HQ. specialize (HQ pv nx).
  unfold wp, bind, load in *. by rewrite Ha.
Qed.

Lemma wp_load_at {A} (f : Rbnode → A) nl s0 L0 K0 s C c l a k r
    (Q : A → state → Prop) :
  tstep nl s0 L0 K0 s (plug C (Node c l a k r)) →
  (∀ pv nx, Q (f (mkNode (root_of nl l) (root_of nl r) (caddr nl C)
                         pv nx (Some k) c)) s) →
  wp (load f a) s Q.
Proof.
  intros (pv & nx & Ha)%node_at HQ. specialize (HQ pv nx).
  unfold wp, load in *. by rewrite Ha.
Qed.

Lemma wp_bind_tget_nill {B} (k0 : ptr → M B) nl s0 L0 K0 s T Q :
  tstep nl s0 L0 K0 s T → wp (k0 nl) s Q → wp (bind (tget nill) k0) s Q.
Proof. intros (<- & _). done. Qed.

Lemma wp_bind_tget_root {B} (k0 : ptr → M B) nl s0 L0 K0 s T Q :
  tstep nl s0 L0 K0 s T → wp (k0 (root_of nl T)) s Q →
  wp (bind (tget root) k0) s Q.
Proof. intros (<- & ((Hrt & _) & _) & _). unfold wp, bind, tget. by rewrite Hrt. Qed.

Lemma wp_tget_root nl s0 L0 K0 s T (Q : ptr → state → Prop) :
  tstep nl s0 L0 K0 s T → Q (root_of nl T) s → wp (tget root) s Q.
Proof. intros (<- & ((Hrt & _) & _) & _). unfold wp, tget. by rewrite Hrt. Qed.

Lemma sentinel_at nl s0 L0 K0 s T :
  tstep nl s0 L0 K0 s T → sentinel (heap s) nl.
Proof. intros (<- & (_ & H & _) & _). done. Qed.

Lemma wp_bind_load_color_nl {B} (k0 : bool → M B) nl s0 L0 K0 s T Q :
  tstep nl s0 L0 K0 s T → wp (k0 BLACK) s Q →
  wp (bind (load color nl) k0) s Q.
Proof.
  intros (l & r & p & pv & nx & Hn)%sentinel_at HQ.
  unfold wp, bind, load in *. by rewrite Hn.
Qed.

Lemma wp_bind_load_color_root {B} (k0 : bool → M B) nl s0 L0 K0 s C t Q :
  tstep nl s0 L0 K0 s (plug C t) → wp (k0 (rcolor t)) s Q →
  wp (bind (load color (root_of nl t)) k0) s Q.
Proof.
  intros Hst HQ. destruct t as [|c l a k r]; cbn [root_of rcolor] in *.
  - by eapply wp_bind_load_color_nl.
  - eapply wp_bind_load_at; [exact Hst|]. by intros.
Qed.

Lemma tstep_nodup nl s0 L0 K0 s T :
  tstep nl s0 L0 K0 s T → NoDup (addrs T) ∧ nl ∉ addrs T.
Proof. intros (<- & (_ & _ & H1 & H2) & _). done. Qed.

Lemma addrs_recolor C c0 c l a k r :
  addrs (plug C (Node c l a k r)) = addrs (plug C (Node c0 l a k r)).
Proof. by rewrite !addrs_plug. Qed.

Lemma keys_recolor C c0 c l a k r :
  keys (plug C (Node c l a k r)) = keys (plug C (Node c0 l a k r)).
Proof. by rewrite !keys_plug. Qed.

Lemma wp_recolor nl s0 L0 K0 s C c0 l a k r c (Q : unit → state → Prop) :
  tstep nl s0 L0 K0 s (plug C (Node c0 l a k r)) →
  (∀ s', tstep nl s0 L0 K0 s' (plug C (Node c l a k r)) → Q tt s') →
  wp (store (set_color c) a) s Q.
Proof.
  intros Hst HQ.
  destruct s as [[nl' rt cnt fst lst] h].
  assert (nl' = nl) as -> by apply Hst.
  destruct C as [|[cp p kp sb|cp sb p kp] C];
  (pose proof Hst as (_ & (Hrep & Hsent & Hnd & Hnin) & _);
   cbn [tree heap nill root] in *;
   apply trep_plug in Hrep as [HC Hr];
   rewrite addrs_plug in Hnd, Hnin; cbn [addrs ctxL ctxR] in Hnd, Hnin;
   nd_norm Hnd; nd_norm Hnin;
   cbn [rep rep_ctx root_of] in Hr, HC; destruct_and?;
   repeat match goal with H : tnode _ _ _ _ _ _ _ |- _ =>
            destruct H as (? & ? & H) end;
   subst; xcbn; xstep;
   apply HQ; eapply tstep_intro;
    [exact Hst | apply trep_plug; split; xrep | apply addrs_recolor
    | apply keys_recolor | xlview | xout ]).
Qed.

Lemma wp_bind_recolor {B} (k0 : unit → M B) nl s0 L0 K0 s C c0 l a k r c Q :
  tstep nl s0 L0 K0 s (plug C (Node c0 l a k r)) →
  (∀ s', tstep nl s0 L0 K0 s' (plug C (Node c l a k r)) → wp (k0 tt) s' Q) →
  wp (bind (store (set_color c) a) k0) s Q.
Proof. intros Hst HQ. apply wp_bind. by eapply wp_recolor. Qed.

End Abs.

(** The facts about distinct addresses that a tree in the store gives. *)
Ltac tstep_nd Hst :=
  let Hnd := fresh "Hnd" in let Hnin := fresh "Hnin" in
  pose proof (tstep_nodup _ _ _ _ _ _ Hst) as [Hnd Hnin];
  rewrite ?addrs_plug in Hnd, Hnin; cbn [addrs ctxL ctxR] in Hnd, Hnin;
  nd_norm Hnd; nd_norm Hnin.

(** Finds the node at address [a] in the tree [T] and calls [k] with
    its context and components. *)
Ltac find_ctx a T C k :=
  lazymatch T with
  | plug ?C0 ?t => find_ctx a t C0 k
  | Node ?c ?l ?b ?kk ?r =>
      first [ unify a b; k C c l kk r
            | find_ctx a l constr:(InL c b kk r :: C) k
            | find_ctx a r constr:(InR c l b kk :: C) k ]
  end.

(** Finds the subtree [t] in [T] and calls [k] with its context. *)
Ltac find_sub t T C k :=
  lazymatch T with
  | plug ?C0 ?t' => find_sub t t' C0 k
  | _ =>
      first [ unify t T; k C
            | lazymatch T with
              | Node ?c ?l ?b ?kk ?r =>
                  first [ find_sub t l constr:(InL c b kk r :: C) k
                        | find_sub t r constr:(InR c l b kk :: C) k ]
              end ]
  end.

Ltac nilctx T :=
  lazymatch type of T with
  | @atree ?I => constr:(@nil (@frame I))
  end.

Ltac acbn :=
  cbn [left right parent prev next item color root_of caddr faddr fcolor
       ccolor rcolor Bool.eqb andb negb RED BLACK].

Ltac astep :=
  lazymatch goal with
  | |- wp (bind (bind _ _) _) _ _ => apply wp_assoc
  | |- wp (bind (ret _) _) _ _ => apply wp_bind_ret
  | |- wp (ret _) _ _ => apply wp_ret
  | |- wp (bind (if negb (?a =? ?b) then _ else _) _) _ _ => xeqb a b
  | |- wp (bind (if ?a =? ?b then _ else _) _) _ _ => xeqb a b
  | |- wp (if negb (?a =? ?b) then _ else _) _ _ => xeqb a b
  | |- wp (if ?a =? ?b then _ else _) _ _ => xeqb a b
  | H : tstep ?nl _ _ _ ?s ?T |- wp (bind (tget nill) _) ?s _ =>
      eapply wp_bind_tget_nill; [exact H|]
  | H : tstep ?nl _ _ _ ?s ?T |- wp (bind (tget root) _) ?s _ =>
      eapply wp_bind_tget_root; [exact H|]; cbn [root_of]
  | H : tstep ?nl _ _ _ ?s ?T |- wp (tget root) ?s _ =>
      eapply wp_tget_root; [exact H|]; cbn [root_of]
  | H : tstep ?nl _ _ _ ?s ?T |- wp (bind (load color ?nl) _) ?s _ =>
      eapply wp_bind_load_color_nl; [exact H|]; acbn
  | H : tstep ?nl _ _ _ ?s ?T
    |- wp (bind (load color (root_of ?nl ?t)) ?k0) ?s _ =>
      let C0 := nilctx T in
      find_sub t T C0 ltac:(fun C =>
        eapply (wp_bind_load_color_root k0 nl _ _ _ s C t); [exact H|]; acbn)
  | H : tstep ?nl _ _ _ ?s ?T |- wp (bind (load ?f ?a) ?k0) ?s _ =>
      let C0 := nilctx T in
      find_ctx a T C0 ltac:(fun C c l kk r =>
        eapply (wp_bind_load_at f k0 nl _ _ _ s C c l a kk r);
        [exact H | let pv := fresh "pv" in let nx := fresh "nx" in
                   intros pv nx; acbn; try clear pv nx])
  | H : tstep ?nl _ _ _ ?s ?T |- wp (load ?f ?a) ?s _ =>
      let C0 := nilctx T in
      find_ctx a T C0 ltac:(fun C c l kk r =>
        eapply (wp_load_at f nl _ _ _ s C c l a kk r);
        [exact H | intros ? ?; acbn])
  | H : tstep ?nl _ _ _ ?s ?T
    |- wp (bind (store (set_color ?c') ?a) ?k0) ?s _ =>
      let C0 := nilctx T in
      find_ctx a T C0 ltac:(fun C c l kk r =>
        eapply (wp_bind_recolor k0 nl _ _ _ s C c l a kk r c');
        [exact H | let s' := fresh "s" in let H' := fresh "Hst" in
                   intros s' H'; clear H; cbn [plug fill] in H';
                   unfold RED, BLACK in H'])
  | H : tstep ?nl _ _ _ ?s ?T |- wp (store (set_color ?c') ?a) ?s _ =>
      let C0 := nilctx T in
      find_ctx a T C0 ltac:(fun C c l kk r =>
        eapply (wp_recolor nl _ _ _ s C c l a kk r c');
        [exact H | let s' := fresh "s" in let H' := fresh "Hst" in
                   intros s' H'; clear H; cbn [plug fill] in H';
                   unfold RED, BLACK in H'])
  | H : tstep ?nl _ _ _ ?s ?T |- wp (bind (leftRotate ?x) ?k0) ?s _ =>
      let C0 := nilctx T in
      find_ctx x T C0 ltac:(fun C c l kk r =>
        lazymatch r with
        | Node ?c' ?B ?y ?k' ?G =>
            apply wp_bind;
            eapply (wp_leftRotate nl _ _ _ s C c l x kk c' B y k' G);
            [exact H | let s' := fresh "s" in let H' := fresh "Hst" in
                       intros s' H'; clear H; cbn [plug fill] in H']
        end)
  | H : tstep ?nl _ _ _ ?s ?T |- wp (bind (rightRotate ?x) ?k0) ?s _ =>
      let C0 := nilctx T in
      find_ctx x T C0 ltac:(fun C c l kk r =>
        lazymatch l with
        | Node ?c' ?A ?y ?k' ?B =>
            apply wp_bind;
            eapply (wp_rightRotate nl _ _ _ s C c A y k' B c' x kk r);
            [exact H | let s' := fresh "s" in let H' := fresh "Hst" in
                       intros s' H'; clear H; cbn [plug fill] in H']
        end)
  end.

Section RB.
Context {Item : Type}.
Implicit Types (s : @state Item) (h : gmap nat (@Rbnode Item))
  (t T : @atree Item) (tr : @Rbtree) (C : list (@frame Item)).

Lemma rbt_plug_any C t n :
  rbc C n → rbt t n → (ccolor C = RED → rcolor t = BLACK) →
  ∃ m, rbt (blacken (plug C t)) m.
Proof.
  revert t n. induction C as [|[c a k r|c l a k] C IH]; intros t n; cbn.
  - intros _ Ht _. destruct t as [|[] l a k r]; cbn in *; eauto.
    exists (S n). tauto.
  - destruct c; cbn; intros HC Ht Hc.
    + apply (IH _ (S n)); cbn; tauto.
    + apply (IH _ n); cbn; try tauto. intros ?. destruct HC as (_&_&?&_).
      unfold RED, BLACK in *. congruence.
  - destruct c; cbn; intros HC Ht Hc.
    + apply (IH _ (S n)); cbn; tauto.
    + apply (IH _ n); cbn; try tauto. intros ?. destruct HC as (_&_&?&_).
      unfold RED, BLACK in *. congruence.
Qed.

Lemma noleft_plug_mono C t t' z0 :
  t ≠ Leaf → t' ≠ Leaf → (noleft z0 t → noleft z0 t') →
  noleft z0 (plug C t) → noleft z0 (plug C t').
Proof.
  revert t t'. induction C as [|[c a k r|c l a k] C IH]; intros t t' Ht Ht';
    cbn; [done|..]; intros Hm; apply IH; try done; cbn.
  - intros (H1 & H2 & H3). split_and!; [|auto|done].
    intros ->. by specialize (H1 eq_refl).
  - intros (H1 & H2 & H3). split_and!; auto.
Qed.

Lemma noleft_blacken z0 T : noleft z0 T → noleft z0 (blacken T).
Proof. by destruct T. Qed.

Lemma last_app_elem (X Y : list ptr) l0 z :
  Y ≠ [] → X ++ Y = l0 ++ [z] → z ∈ Y.
Proof.
  intros HY HE. destruct (exists_last HY) as (Y' & y & ->).
  rewrite app_assoc in HE. apply app_inj_tail in HE as [_ ->]. set_solver.
Qed.

(** A node in the left subtree of some node is not the last one. *)
Lemma last_inner_l C cg l g kg u z0 l0 :
  NoDup (addrs (plug C (Node cg l g kg u))) → z0 ∈ addrs l →
  addrs (plug C (Node cg l g kg u)) = l0 ++ [z0] → False.
Proof.
  rewrite addrs_plug. cbn. intros Hnd Hz HE.
  assert (z0 ∈ g :: addrs u ++ ctxR C) as Hz'.
  { eapply (last_app_elem (ctxL C ++ addrs l)); [done|].
    rewrite <- HE. xapp. }
  apply NoDup_app in Hnd as (_ & _ & Hnd).
  rewrite <- app_assoc in Hnd. apply NoDup_app in Hnd as (_ & Hnd & _).
  eapply Hnd; [exact Hz|]. set_solver.
Qed.

Lemma elem3 (a z : ptr) l r :
  a ∈ l ++ z :: r → a ∉ l → a ≠ z → a ∉ r → False.
Proof. set_solver. Qed.

End RB.

(** Closing tactics for the cases of the fix-up loops. *)
Ltac fuel_lia Hf := clear -Hf; cbn [length] in Hf; lia.

Ltac rbt_hyps :=
  repeat match goal with
  | H : rbt (Node false _ _ _ _) _ |- _ =>
      cbn [rbt] in H; destruct H as (? & ? & ? & ?)
  | H : rbt (Node true _ _ _ _) (S _) |- _ =>
      cbn [rbt] in H; destruct H as (? & ?)
  | H : rbt (Node true _ _ _ _) 0 |- _ => cbn [rbt] in H; destruct H
  | H : rbt Leaf _ |- _ => cbn [rbt] in H; subst
  end.

Ltac solve_rbt :=
  rbt_hyps; cbn [rbt rcolor]; unfold RED, BLACK in *; split_and?;
  first [assumption | reflexivity | eassumption].

Ltac solve_elem Hz0 := clear -Hz0; cbn [addrs] in *; set_solver.

Ltac solve_noleft Hnol HND HL Hz0 :=
  let Hlast := fresh "Hlast" in
  intros Hlast; specialize (Hnol Hlast); cbn [plug fill] in Hnol;
  revert Hnol; apply noleft_plug_mono; [done|done|];
  cbn [noleft]; intros ?; destruct_and?; split_and?;
  first
    [ assumption
    | exact I
    | let Hb := fresh in
      intros Hb; exfalso;
      first
        [ eapply elem3; [exact Hz0|..]; rewrite <- Hb; xneq
        | destruct Hlast as [? Hlast];
          first
            [ eapply last_inner_l; [exact HND| |rewrite HL; exact Hlast];
              solve_elem Hz0
            | lazymatch type of HND with
              | NoDup (addrs (plug ?C (Node ?c ?u ?g ?kg ?t))) =>
                  eapply (last_inner_l (InR c u g kg :: C));
                  [exact HND| |cbn [plug fill]; rewrite HL; exact Hlast];
                  solve_elem Hz0
              end ] ] ].

Section RB2.
Context {Item : Type}.
Implicit Types (s : @state Item) (h : gmap nat (@Rbnode Item))
  (t T : @atree Item) (tr : @Rbtree) (C : list (@frame Item)).

Lemma wp_insertFixup_loop nl s0 L0 K0 z0 fuel : ∀ s C l z k r n,
  length C < fuel →
  tstep nl s0 L0 K0 s (plug C (Node RED l z k r)) →
  rcolor l = BLACK → rcolor r = BLACK → rbt l n → rbt r n → rbc C n →
  z0 ∈ addrs (Node RED l z k r) →
  ((∃ l0, L0 = l0 ++ [z0]) → noleft z0 (plug C (Node RED l z k r))) →
  wp (insertFixup_loop fuel z) s (λ _ s', ∃ T',
    tstep nl s0 L0 K0 s' T' ∧ (∃ m, rbt (blacken T') m) ∧
    ((∃ l0, L0 = l0 ++ [z0]) → noleft z0 T')).
Proof.
  unfold RED, BLACK.
  induction fuel as [|fuel IH]; intros s C l z k r n Hfuel Hst Hcl Hcr Hl Hr HC
    Hz0 Hnol; [fuel_lia Hfuel|].
  cbn [insertFixup_loop]. unfold insertFixup_body.
  pose proof (tstep_nodup _ _ _ _ _ _ Hst) as [HND _].
  pose proof Hst as (_ & _ & HL & _).
  destruct C as [|[[] p kp sb|[] sb p kp] C1]; cbn [plug fill] in Hst.
  - (* z is the root *)
    repeat astep. eexists. split_and!; [exact Hst| |done].
    exists (S n). cbn. done.
  - repeat astep. eexists. split_and!; [exact Hst| |done].
    apply (rbt_plug_any (InL true p kp sb :: C1) _ n); cbn; done.
  - cbn [rbc] in HC. destruct HC as (Hsb & Hsbn & HcC & HC1 & HC).
    destruct C1 as [|[cg g kg u|cg u g kg] C2]; [done|..];
      cbn [ccolor fcolor] in HcC; subst cg; cbn [rbc] in HC;
      destruct HC as [Hu HC]; cbn [length] in Hfuel;
      cbn [plug fill] in Hst, HND, HL;
      (destruct u as [|[] ul ua ku ur]; tstep_nd Hst; repeat astep;
       [ destruct fuel as [|fuel]; [fuel_lia Hfuel|]; cbn [insertFixup_loop];
         repeat astep; eexists; split_and!; [eassumption|..]
       | destruct fuel as [|fuel]; [fuel_lia Hfuel|]; cbn [insertFixup_loop];
         repeat astep; eexists; split_and!; [eassumption|..]
       | eapply (IH _ C2 _ g _ _ (S n)); [fuel_lia Hfuel|eassumption|..] ]).
    all: cbn [rcolor]; try reflexivity.
    all: try (apply (rbt_plug_any C2 _ (S n)); [exact HC|solve_rbt|reflexivity]).
    all: try solve_rbt.
    all: try solve_elem Hz0.
    all: try solve_noleft Hnol HND HL Hz0.
  - repeat astep. eexists. split_and!; [exact Hst| |done].
    apply (rbt_plug_any (InR true sb p kp :: C1) _ n); cbn; done.
  - cbn [rbc] in HC. destruct HC as (Hsb & Hsbn & HcC & HC1 & HC).
    destruct C1 as [|[cg g kg u|cg u g kg] C2]; [done|..];
      cbn [ccolor fcolor] in HcC; subst cg; cbn [rbc] in HC;
      destruct HC as [Hu HC]; cbn [length] in Hfuel;
      cbn [plug fill] in Hst, HND, HL;
      (destruct u as [|[] ul ua ku ur]; tstep_nd Hst; repeat astep;
       [ destruct fuel as [|fuel]; [fuel_lia Hfuel|]; cbn [insertFixup_loop];
         repeat astep; eexists; split_and!; [eassumption|..]
       | destruct fuel as [|fuel]; [fuel_lia Hfuel|]; cbn [insertFixup_loop];
         repeat astep; eexists; split_and!; [eassumption|..]
       | eapply (IH _ C2 _ g _ _ (S n)); [fuel_lia Hfuel|eassumption|..] ]).
    all: cbn [rcolor]; try reflexivity.
    all: try (apply (rbt_plug_any C2 _ (S n)); [exact HC|solve_rbt|reflexivity]).
    all: try solve_rbt.
    all: try solve_elem Hz0.
    all: try solve_noleft Hnol HND HL Hz0.
Qed.

Lemma wp_insertFixup nl s0 L0 K0 z0 fuel s C l z k r n
    (Q : unit → state → Prop) :
  length C < fuel →
  tstep nl s0 L0 K0 s (plug C (Node RED l z k r)) →
  rcolor l = BLACK → rcolor r = BLACK → rbt l n → rbt r n → rbc C n →
  z0 ∈ addrs (Node RED l z k r) →
  ((∃ l0, L0 = l0 ++ [z0]) → noleft z0 (plug C (Node RED l z k r))) →
  (∀ s' T', tstep nl s0 L0 K0 s' T' → is_rb T' →
            ((∃ l0, L0 = l0 ++ [z0]) → noleft z0 T') → Q tt s') →
  wp (insertFixup fuel z) s Q.
Proof.
  intros Hfuel Hst Hcl Hcr Hl Hr HC Hz0 Hnol HQ.
  unfold insertFixup. apply wp_bind.
  eapply wp_mono; [by eapply wp_insertFixup_loop|].
  intros [] s' (T' & Hst' & [m Hm] & Hnl'). cbv beta.
  destruct T' as [|c' l' a' k' r'].
  { exfalso. destruct Hst' as (_ & _ & HL' & _), Hst as (_ & _ & HL & _).
    rewrite <- HL' in HL. rewrite addrs_plug in HL. cbn in HL.
    by destruct (ctxL C), (addrs l). }
  repeat astep. apply (HQ _ _ Hst0).
  - split; [done|]. by exists m.
  - intros Hlast. by apply (noleft_blacken _ (Node c' l' a' k' r')), Hnl'.
Qed.

End RB2.

Section Del.
Context {Item : Type}.
Implicit Types (s : @state Item) (h : gmap nat (@Rbnode Item))
  (t T : @atree Item) (tr : @Rbtree) (C : list (@frame Item)).

Lemma rcolor_plug C t n : C ≠ [] → rbc C n → rcolor (plug C t) = BLACK.
Proof.
  revert t n. induction C as [|F C IH]; intros t n HC Hn; [done|].
  destruct C as [|F' C].
  - destruct F as [[] ? ? ?|[] ? ? ?]; cbn in *; try done;
      by destruct Hn as (_&_&_&?&_).
  - cbn [plug].
    destruct F as [[] ? ? ?|[] ? ? ?]; cbn [rbc] in Hn;
      (eapply IH; [done|]); first [apply Hn | apply (proj2 Hn)].
Qed.

Lemma rbt_rcolor_blacken t n : rbt (blacken t) n → rcolor (blacken t) = BLACK.
Proof. by destruct t. Qed.

Lemma is_rb_plug C t n :
  rbc C n → rbt t n → (ccolor C = RED → rcolor t = BLACK) →
  (C = [] → rcolor t = BLACK) → is_rb (plug C t).
Proof.
  intros HC Ht Hc Hr. split.
  - destruct C as [|F C]; [by apply Hr|]. by eapply rcolor_plug.
  - destruct (rbt_plug_any C t n HC Ht Hc) as [m Hm].
    assert (rcolor (plug C t) = BLACK) as Hb.
    { destruct C as [|F C]; [by apply Hr|]. by eapply rcolor_plug. }
    exists m. destruct (plug C t) as [|[] ? ? ? ?]; cbn in *; done.
Qed.

Lemma root_plug_elem nl C c l p k r :
  root_of nl (plug C (Node c l p k r)) = p ∨
  root_of nl (plug C (Node c l p k r)) ∈ ctxL C ++ ctxR C.
Proof.
  revert c l p k r. induction C as [|[c' a k' r'|c' l' a k'] C IH];
    intros c l p k r; cbn; [by left|..].
  - destruct (IH c' (Node c l p k r) a k' r') as [->|H]; right; set_solver.
  - destruct (IH c' l' a k' (Node c l p k r)) as [->|H]; right; set_solver.
Qed.

Lemma root_plug_neq nl C c l p k r x :
  x ≠ p → x ∉ ctxL C → x ∉ ctxR C →
  x ≠ root_of nl (plug C (Node c l p k r)).
Proof.
  intros H1 H2 H3 ->.
  destruct (root_plug_elem nl C c l p k r) as [?|?%elem_of_app]; naive_solver.
Qed.

Lemma tstep_nl_same nl s0 L0 K0 s T :
  tstep nl s0 L0 K0 s T → heap s !! nl = heap s0 !! nl.
Proof.
  intros (<- & (_ & _ & _ & Hn) & HL & _ & (_&_&_&_&_&Hf)).
  apply Hf. by rewrite <- HL.
Qed.

Lemma wp_bind_load_nl {A B} (f : Rbnode → A) (k0 : A → M B)
    nl s0 L0 K0 s T n0 Q :
  tstep nl s0 L0 K0 s T → heap s0 !! nl = Some n0 →
  wp (k0 (f n0)) s Q → wp (bind (load f nl) k0) s Q.
Proof.
  intros Hst%tstep_nl_same Hn HQ. unfold wp, bind, load in *.
  by rewrite Hst, Hn.
Qed.

Lemma wp_store_color_nl nl s0 L0 K0 s T (Q : unit → state → Prop) :
  tstep nl s0 L0 K0 s T →
  (∀ s', tstep nl s0 L0 K0 s' T → Q tt s') →
  wp (store (set_color BLACK) nl) s Q.
Proof.
  intros Hst HQ. pose proof (sentinel_at _ _ _ _ _ _ Hst) as
    (l & r & p & pv & nx & Hn).
  destruct s as [tr h]. cbn in Hn. eapply wp_store; [done|]. cbn.
  rewrite insert_id by done. by apply HQ.
Qed.

Lemma is_rb_blacken_plug C t n :
  rbc C n → rbt t n → (ccolor C = RED → rcolor t = BLACK) →
  is_rb (blacken (plug C t)).
Proof.
  intros HC Ht Hc. destruct (rbt_plug_any C t n HC Ht Hc) as [m Hm].
  split; [|by exists m]. by destruct (plug C t).
Qed.

Lemma rbt_rr_blacken t n : rbt_rr t n → ∃ m, rbt (blacken t) m.
Proof.
  destruct t as [|[] l a k r]; cbn; [eauto| |].
  - destruct n; [done|]. intros. exists (S n). done.
  - intros. exists (S n). done.
Qed.

End Del.

Ltac xneq ::=
  first
    [ assumption
    | apply not_eq_sym; assumption
    | apply root_of_neq; [xneq | assumption]
    | apply not_eq_sym; apply root_of_neq; [xneq | assumption]
    | apply caddr_neq; [xneq | assumption | assumption]
    | apply not_eq_sym; apply caddr_neq; [xneq | assumption | assumption]
    | apply root_plug_neq; [xneq | assumption | assumption]
    | apply not_eq_sym; apply root_plug_neq; [xneq | assumption | assumption]
    | congruence ].

Ltac astep2 :=
  lazymatch goal with
  | H : tstep ?nl ?s0 _ _ ?s ?T, H0 : heap ?s0 !! ?nl = Some _
    |- wp (bind (load ?f ?nl) ?k0) ?s _ =>
      eapply (wp_bind_load_nl f k0); [exact H | exact H0 |]; acbn
  | _ => astep
  end.

Ltac rbt_hyps ::=
  unfold RED, BLACK in *;
  repeat match goal with
  | H : rbt_rr Leaf _ |- _ => cbn [rbt_rr] in H; subst
  | H : rbt_rr (Node false _ _ _ _) _ |- _ =>
      cbn [rbt_rr] in H; destruct H as (? & ?)
  | H : rbt_rr (Node true _ _ _ _) (S _) |- _ =>
      cbn [rbt_rr] in H; destruct H as (? & ?)
  | H : rbt_rr (Node true _ _ _ _) 0 |- _ => cbn [rbt_rr] in H; destruct H
  | H : rbt (Node false _ _ _ _) _ |- _ =>
      cbn [rbt] in H; destruct H as (? & ? & ? & ?)
  | H : rbt (Node true _ _ _ _) (S _) |- _ =>
      cbn [rbt] in H; destruct H as (? & ?)
  | H : rbt (Node true _ _ _ _) 0 |- _ => cbn [rbt] in H; destruct H
  | H : rbt Leaf (S _) |- _ => cbn [rbt] in H; discriminate H
  | H : rbt Leaf _ |- _ => cbn [rbt] in H; subst
  | H : rcolor (Node _ _ _ _ _) = _ |- _ =>
      cbn [rcolor] in H; first [discriminate H | clear H]
  | H : rcolor Leaf = _ |- _ => clear H
  | H : _ ∧ _ |- _ => destruct H
  end.

Ltac solve_rbt ::=
  rbt_hyps; cbn [rbt_rr rbt rcolor]; unfold RED, BLACK in *; split_and?;
  first [assumption | reflexivity | eassumption].

Ltac solve_is_rb :=
  cbn [plug fill blacken]; unfold RED, BLACK;
  first [eapply is_rb_blacken_plug | eapply is_rb_plug];
  [ eassumption
  | solve_rbt
  | let H := fresh in
    intros H; unfold RED, BLACK in *; first [reflexivity | congruence]
  | let H := fresh in
    intros H; unfold RED, BLACK in *; first [reflexivity | congruence] ..].

Ltac dfx_exit :=
  lazymatch goal with
  | Hst' : tstep _ _ _ _ ?s' ?T'
    |- ∃ C' t', tstep _ _ _ _ ?s' _ ∧ ?x = _ ∧ _ =>
      let C0 := nilctx T' in
      first [ find_ctx x T' C0 ltac:(fun C c l kk r =>
                exists C, (Node c l x kk r))
            | exists [], T' ];
      split_and!; [exact Hst' | reflexivity | solve_is_rb]
  end.

Ltac dfx_close IH Hf :=
  first
    [ lazymatch goal with
      | Hst' : tstep _ _ _ _ ?s' (plug ?C' ?t'), HC' : rbc ?C' (S ?m)
        |- wp (deleteFixup_loop _ _) ?s' _ =>
          eapply (IH s' C' t' m);
          [ fuel_lia Hf | exact Hst' | solve_rbt | exact HC'
          | discriminate ]
      end
    | lazymatch goal with
      | |- wp (deleteFixup_loop ?fuel _) _ _ =>
          destruct fuel as [|?]; [fuel_lia Hf|]
      end;
      cbn [deleteFixup_loop]; repeat astep2; dfx_exit ].

Ltac dfx_shapes IH Hf Hst a b :=
  destruct a as [|[] ? ? ? ?]; destruct b as [|[] ? ? ? ?]; rbt_hyps;
  tstep_nd Hst; repeat astep2; dfx_close IH Hf.

(** The cases of one iteration, for a black cursor below the frame at
    the head of the context; [w] is the sibling. *)
Ltac dfx_cases IH Hf Hst w side :=
  let wl := fresh "wl" in let wr := fresh "wr" in
  let wa := fresh "wa" in let wb := fresh "wb" in
  destruct w as [|[] wl ? ? wr]; rbt_hyps;
  [ dfx_shapes IH Hf Hst wl wr
  | lazymatch side with
    | true => destruct wl as [|[] wa ? ? wb]; rbt_hyps;
              dfx_shapes IH Hf Hst wa wb
    | false => destruct wr as [|[] wa ? ? wb]; rbt_hyps;
               dfx_shapes IH Hf Hst wa wb
    end ].

(** The same below a red parent: the sibling is black. *)
Ltac dfx_cases_red IH Hf Hst w :=
  let wl := fresh "wl" in let wr := fresh "wr" in
  destruct w as [|[] wl ? ? wr]; rbt_hyps; dfx_shapes IH Hf Hst wl wr.

Ltac dfx_frame IH Hf Hst Hnlp tx n w side flag :=
  let Hnl0 := fresh "Hnl0" in
  destruct tx as [|[] ? ? ? ?];
  [ destruct Hnlp as (? & ? & ? & ? & Hnl0); [reflexivity|];
    cbn [caddr faddr] in Hnl0; cbn [plug fill root_of] in *;
    lazymatch flag with
    | true => dfx_cases IH Hf Hst w side
    | false => dfx_cases_red IH Hf Hst w
    end
  | cbn [plug fill root_of] in *; destruct n as [|n]; [done|];
    lazymatch flag with
    | true => dfx_cases IH Hf Hst w side
    | false => dfx_cases_red IH Hf Hst w
    end
  | cbn [plug fill root_of] in *; tstep_nd Hst; repeat astep2; dfx_exit ].

Section Del2.
Context {Item : Type}.
Implicit Types (s : @state Item) (h : gmap nat (@Rbnode Item))
  (t T : @atree Item) (tr : @Rbtree) (C : list (@frame Item)).

Lemma wp_deleteFixup_loop nl s0 L0 K0 fuel : ∀ s C tx n,
  length C + 1 < fuel →
  tstep nl s0 L0 K0 s (plug C tx) →
  rbt_rr tx n → rbc C (S n) →
  (tx = Leaf → ∃ l r pv nx,
     heap s0 !! nl = Some (mkNode l r (caddr nl C) pv nx None BLACK)) →
  wp (deleteFixup_loop fuel (root_of nl tx)) s (λ x' s', ∃ C' t',
    tstep nl s0 L0 K0 s' (plug C' t') ∧ x' = root_of nl t' ∧
    is_rb (plug C' (blacken t'))).
Proof.
  unfold RED, BLACK.
  induction fuel as [|fuel IH]; intros s C tx n Hfuel Hst Htx HC Hnlp; [lia|].
  cbn [deleteFixup_loop]. unfold deleteFixup_body.
  destruct C as [|[cp p kp w|cp w p kp] C1].
  - (* x is the root *)
    cbn [plug] in Hst. repeat astep2. exists [], tx. split_and!; [done..|].
    cbn [plug]. destruct (rbt_rr_blacken _ _ Htx) as [m Hm].
    split; [by destruct tx|by exists m].
  - destruct cp; cbn [rbc] in HC;
      [destruct HC as (Hw & HC)|destruct HC as (Hcw & Hw & HcC & HC1 & HC)].
    + dfx_frame IH Hfuel Hst Hnlp tx n w true true.
    + dfx_frame IH Hfuel Hst Hnlp tx n w true false.
  - destruct cp; cbn [rbc] in HC;
      [destruct HC as (Hw & HC)|destruct HC as (Hcw & Hw & HcC & HC1 & HC)].
    + dfx_frame IH Hfuel Hst Hnlp tx n w false true.
    + dfx_frame IH Hfuel Hst Hnlp tx n w false false.
Qed.
Lemma wp_deleteFixup nl s0 L0 K0 fuel s C tx n (Q : unit → state → Prop) :
  length C + 1 < fuel →
  tstep nl s0 L0 K0 s (plug C tx) →
  rbt_rr tx n → rbc C (S n) →
  (tx = Leaf → ∃ l r pv nx,
     heap s0 !! nl = Some (mkNode l r (caddr nl C) pv nx None BLACK)) →
  (∀ s' T', tstep nl s0 L0 K0 s' T' → is_rb T' → Q tt s') →
  wp (deleteFixup fuel (root_of nl tx)) s Q.
Proof.
  intros Hfuel Hst Htx HC Hnlp HQ. unfold deleteFixup. apply wp_bind.
  eapply wp_mono; [by eapply wp_deleteFixup_loop|].
  intros x' s' (C' & t' & Hst' & -> & Hrb). cbv beta.
  destruct t' as [|c' l' a' k' r']; cbn [root_of blacken] in *.
  - eapply wp_store_color_nl; [exact Hst'|]. intros s'' Hst''. by eapply HQ.
  - astep. by eapply HQ.
Qed.

End Del2.

Section Unlink.
Context {Item : Type}.
Implicit Types (s : @state Item) (h : gmap nat (@Rbnode Item))
  (t T : @atree Item) (tr : @Rbtree) (C : list (@frame Item)).

Lemma plug_app C1 C2 t : plug (C1 ++ C2) t = plug C2 (plug C1 t).
Proof. revert t. induction C1 as [|F C1 IH]; intros t; cbn; [done|]. apply IH. Qed.

Lemma ctxL_app C1 C2 : ctxL (C1 ++ C2) = ctxL C2 ++ ctxL C1.
Proof.
  induction C1 as [|[c a k r|c l a k] C1 IH]; cbn.
  - by rewrite app_nil_r.
  - done.
  - rewrite IH. by rewrite <- app_assoc.
Qed.

Lemma ctxR_app C1 C2 : ctxR (C1 ++ C2) = ctxR C1 ++ ctxR C2.
Proof.
  induction C1 as [|[c a k r|c l a k] C1 IH]; cbn; [done| |done].
  rewrite IH. by rewrite <- app_assoc.
Qed.

Lemma kctxL_app C1 C2 : kctxL (C1 ++ C2) = kctxL C2 ++ kctxL C1.
Proof.
  induction C1 as [|[c a k r|c l a k] C1 IH]; cbn.
  - by rewrite app_nil_r.
  - done.
  - rewrite IH. by rewrite <- app_assoc.
Qed.

Lemma kctxR_app C1 C2 : kctxR (C1 ++ C2) = kctxR C1 ++ kctxR C2.
Proof.
  induction C1 as [|[c a k r|c l a k] C1 IH]; cbn; [done| |done].
  rewrite IH. by rewrite <- app_assoc.
Qed.

Lemma all_left_ctxL C : all_left C → ctxL C = [] ∧ kctxL C = [].
Proof.
  induction 1 as [|[c a k r|c l a k] C HF HC IH]; cbn; [done|done|done].
Qed.

Lemma root_plug_node nl C c l a k r c' l' k' r' :
  root_of nl (plug C (Node c l a k r)) = root_of nl (plug C (Node c' l' a k' r')).
Proof.
  revert c l a k r c' l' k' r'.
  induction C as [|[cf af kf rf|cf lf af kf] C IH]; intros; cbn; [done|..];
    apply IH.
Qed.

Lemma length_ctx C : length C ≤ length (ctxL C) + length (ctxR C).
Proof.
  induction C as [|[c a k r|c l a k] C IH]; cbn; [done|..];
    rewrite ?length_app; cbn; lia.
Qed.

Lemma length_ctx_plug C t : length C + length (addrs t) ≤ length (addrs (plug C t)).
Proof.
  rewrite addrs_plug, !length_app. pose proof (length_ctx C). lia.
Qed.

(** The in-order sequence after unlinking: [z] is taken out. *)
Lemma unlink_addrs C cz L z kz R Cx tx c :
  unlink_shape C cz L R Cx tx c →
  addrs (plug C (Node cz L z kz R)) = (ctxL C ++ addrs L) ++ z :: addrs R ++ ctxR C ∧
  addrs (plug Cx tx) = (ctxL C ++ addrs L) ++ addrs R ++ ctxR C ∧
  keys (plug C (Node cz L z kz R)) = (kctxL C ++ keys L) ++ kz :: keys R ++ kctxR C ∧
  keys (plug Cx tx) = (kctxL C ++ keys L) ++ keys R ++ kctxR C.
Proof.
  intros Hs. rewrite !addrs_plug, !keys_plug. cbn [addrs keys].
  split_and!; [xapp| |xapp|].
  - destruct Hs as [(-> & -> & -> & _)|[(_ & -> & -> & -> & _)|
      (_ & Cy & cy & y & ky & Ry & -> & Hl & -> & -> & _)]].
    + by rewrite app_nil_r.
    + by rewrite <- app_assoc.
    + rewrite ctxL_app, ctxR_app, !addrs_plug. cbn.
      destruct (all_left_ctxL _ Hl) as [-> _]. cbn. xapp.
  - destruct Hs as [(-> & -> & -> & _)|[(_ & -> & -> & -> & _)|
      (_ & Cy & cy & y & ky & Ry & -> & Hl & -> & -> & _)]].
    + by rewrite app_nil_r.
    + by rewrite <- app_assoc.
    + rewrite kctxL_app, kctxR_app, !keys_plug. cbn.
      destruct (all_left_ctxL _ Hl) as [_ ->]. cbn. xapp.
Qed.

Lemma is_rb_plug_inv C t :
  is_rb (plug C t) →
  ∃ n, rbc C n ∧ rbt t n ∧ (ccolor C = RED → rcolor t = BLACK) ∧
       (C = [] → rcolor t = BLACK).
Proof.
  revert t. induction C as [|F C IH]; intros t; cbn [plug].
  - intros [Hc [n Hn]]. exists n. by split_and!.
  - intros (n & HC & Ht & Hc1 & Hc2)%IH.
    destruct F as [[] a k r|[] l a k]; cbn [fill rbt rcolor] in *.
    + destruct n as [|m]; [done|]. exists m. cbn. unfold RED. destruct Ht. by split_and!.
    + exists n. cbn. unfold RED, BLACK in *. split_and!; try tauto.
      * by destruct (ccolor C); [|specialize (Hc1 eq_refl)].
      * intros ->. by specialize (Hc2 eq_refl).
    + destruct n as [|m]; [done|]. exists m. cbn. unfold RED. destruct Ht. by split_and!.
    + exists n. cbn. unfold RED, BLACK in *. split_and!; try tauto.
      * by destruct (ccolor C); [|specialize (Hc1 eq_refl)].
      * intros ->. by specialize (Hc2 eq_refl).
Qed.

Lemma rbt_rbt_rr t n : rbt t n → rbt_rr t n.
Proof. destruct t as [|[] l a k r]; cbn; tauto. Qed.

Lemma ccolor_app_swap (Cy C : list (@frame Item)) c L a k a' k' :
  ccolor (Cy ++ InR c L a k :: C) = ccolor (Cy ++ InR c L a' k' :: C).
Proof. by destruct Cy. Qed.

Lemma rbc_swap (Cy C : list (@frame Item)) c L a k a' k' n :
  rbc (Cy ++ InR c L a k :: C) n → rbc (Cy ++ InR c L a' k' :: C) n.
Proof.
  revert n. induction Cy as [|F Cy IH]; intros n; [done|].
  cbn [app rbc]. rewrite (ccolor_app_swap Cy C c L a k a' k').
  destruct F as [[] ? ? ?|[] ? ? ?]; intros H; destruct_and?; split_and?;
    auto; by destruct Cy.
Qed.

Lemma unlink_rb C cz L z kz R Cx tx c :
  is_rb (plug C (Node cz L z kz R)) → unlink_shape C cz L R Cx tx c →
  if c then ∃ n, rbt_rr tx n ∧ rbc Cx (S n) else is_rb (plug Cx tx).
Proof.
  intros Hrb [(-> & -> & -> & ->)|[(_ & -> & -> & -> & ->)|
      (_ & Cy & cy & y & ky & Ry & -> & Hl & -> & -> & ->)]].
  - apply is_rb_plug_inv in Hrb as (n & HC & Ht & Hc1 & Hc2).
    destruct cz; cbn [rbt] in Ht.
    + destruct n as [|m]; [done|]. exists m. split; [|done].
      apply rbt_rbt_rr, Ht.
    + eapply is_rb_plug; [done|apply Ht|intros; apply Ht|].
      intros HC'. by specialize (Hc2 HC').
  - apply is_rb_plug_inv in Hrb as (n & HC & Ht & Hc1 & Hc2).
    destruct cz; cbn [rbt] in Ht.
    + destruct n as [|m]; [done|]. exists m. split; [|done].
      apply rbt_rbt_rr, Ht.
    + eapply is_rb_plug; [done|apply Ht|intros; apply Ht|].
      intros HC'. by specialize (Hc2 HC').
  - change (Node cz L z kz (plug Cy (Node cy Leaf y ky Ry))) with
      (plug [InR cz L z kz] (plug Cy (Node cy Leaf y ky Ry))) in Hrb.
    rewrite <- !plug_app, <- ?app_assoc in Hrb. cbn [app] in Hrb.
    apply is_rb_plug_inv in Hrb as (n & HC & Ht & Hc1 & Hc2).
    apply (rbc_swap _ _ _ _ _ _ y ky) in HC.
    rewrite (ccolor_app_swap Cy C cz L z kz y ky) in Hc1.
    destruct cy; cbn [rbt] in Ht.
    + destruct n as [|m]; [done|]. exists m. split; [|done].
      apply rbt_rbt_rr, Ht.
    + eapply is_rb_plug; [done|apply Ht|intros; apply Ht|].
      intros HC'. by destruct Cy.
Qed.

End Unlink.

Ltac unl_pre Htok :=
  let Hrep := fresh "Hrep" in let Hsent := fresh "Hsent" in
  let Hnd := fresh "Hnd" in let Hnin := fresh "Hnin" in
  let HC := fresh "HC" in let Hr := fresh "Hr" in
  pose proof Htok as (Hrep & Hsent & Hnd & Hnin);
  cbn [tree heap nill root] in *;
  apply trep_plug in Hrep as [HC Hr];
  destruct Hsent as (? & ? & ? & ? & ? & Hsent);
  rewrite addrs_plug in Hnd, Hnin; cbn [addrs ctxL ctxR] in Hnd, Hnin;
  nd_norm Hnd; nd_norm Hnin;
  cbn [rep rep_ctx root_of] in Hr, HC; destruct_and?;
  repeat match goal with H : tnode _ _ _ _ _ _ _ |- _ =>
           destruct H as (? & ? & H) end;
  subst; xcbn.

Section Unlink2.
Context {Item : Type}.
Implicit Types (s : @state Item) (h : gmap nat (@Rbnode Item))
  (t T : @atree Item) (tr : @Rbtree) (C : list (@frame Item)).

Lemma NoDup_remove_mid (l1 l2 : list ptr) z :
  NoDup (l1 ++ z :: l2) → NoDup (l1 ++ l2).
Proof.
  rewrite !NoDup_app, NoDup_cons. intros (H1 & H2 & _ & H3).
  split_and!; [done| |done]. intros x Hx Hx'. eapply H2; [done|]. by right.
Qed.

Lemma unlink_nodup (nl : ptr) C cz L z kz R Cx tx c :
  unlink_shape C cz L R Cx tx c →
  NoDup (addrs (plug C (Node cz L z kz R))) →
  nl ∉ addrs (plug C (Node cz L z kz R)) →
  NoDup (addrs (plug Cx tx)) ∧ nl ∉ addrs (plug Cx tx) ∧
  z ∉ addrs (plug Cx tx).
Proof.
  intros (H1 & H2 & _)%(unlink_addrs _ _ _ z kz). rewrite H1, H2.
  intros Hnd Hnl. split_and!.
  - by eapply NoDup_remove_mid.
  - rewrite elem_of_app in *. rewrite elem_of_cons in Hnl. tauto.
  - apply NoDup_app in Hnd as (_ & Hd & Hz%NoDup_cons).
    rewrite elem_of_app. intros [Hz'|Hz']; [|tauto].
    eapply Hd; [done|]. by left.
Qed.

Lemma all_left_app (C1 C2 : list (@frame Item)) :
  all_left C1 → all_left C2 → all_left (C1 ++ C2).
Proof. apply Forall_app_2. Qed.

Lemma wp_leftmost_loop nl rt cnt fst lst h t :
  ∀ fuel par (Q : ptr → state → Prop),
  t ≠ Leaf → rep h nl t par → nl ∉ addrs t → length (addrs t) ≤ fuel →
  (∀ Cy cy y ky Ry, t = plug Cy (Node cy Leaf y ky Ry) → all_left Cy →
     Q y (mkState (mkTree nl rt cnt fst lst) h)) →
  wp (leftmost_loop fuel (root_of nl t)) (mkState (mkTree nl rt cnt fst lst) h) Q.
Proof.
  induction t as [|c l IHl a k r _]; intros fuel par Q Ht Hrep Hnl Hfuel HQ;
    [done|].
  cbn [rep root_of addrs] in *. destruct Hrep as ((pv & nx & Ha) & Hl & Hr).
  destruct fuel as [|fuel]; [rewrite length_app in Hfuel; cbn in Hfuel; lia|].
  cbn [leftmost_loop]. nd_norm Hnl.
  destruct l as [|cl ll la kl lr].
  - repeat xstep. apply (HQ [] c a k r); [done|constructor].
  - cbn [addrs] in *. nd_norm H. cbn [root_of] in *. repeat xstep.
    apply (IHl fuel a); [done|done| |..].
    + cbn. rewrite !not_elem_of_app, not_elem_of_cons. tauto.
    + rewrite !length_app in Hfuel. cbn in *. rewrite !length_app. cbn. lia.
    + intros Cy cy y ky Ry HE Hal.
      apply (HQ (Cy ++ [InL c a k r]) cy y ky Ry).
      * rewrite plug_app, <- HE. done.
      * apply all_left_app; [done|]. by repeat constructor.
Qed.

Lemma unlink_post_intro nl rt cnt fst lst h C cz L z kz R rt' h' Cx tx x c :
  tok (mkState (mkTree nl rt cnt fst lst) h) (plug C (Node cz L z kz R)) →
  unlink_shape C cz L R Cx tx c →
  x = root_of nl tx →
  trep h' nl rt' (plug Cx tx) →
  sentinel h' nl →
  (tx = Leaf → ∃ l r pv nx,
     h' !! nl = Some (mkNode l r (caddr nl Cx) pv nx None BLACK)) →
  (∀ a, lview <$> h' !! a = lview <$> h !! a) →
  (∀ a, a ∉ addrs (plug Cx tx) → a ≠ nl → h' !! a = h !! a) →
  unlink_post (mkState (mkTree nl rt cnt fst lst) h) C cz L R (x, c)
    (mkState (mkTree nl rt' cnt fst lst) h').
Proof.
  intros (_ & _ & Hnd & Hnin) Hsh -> Hrep Hsent Hnl Hlv Hout.
  cbn in Hnd, Hnin.
  destruct (unlink_nodup nl _ _ _ _ _ _ _ _ _ Hsh Hnd Hnin) as (? & ? & _).
  exists Cx, tx. cbn. split_and!; try done.
Qed.

Ltac unl_post Htok HQ :=
  apply HQ; eapply unlink_post_intro;
    [ exact Htok
    | first [ left; done | right; left; done ]
    | reflexivity
    | apply trep_plug; split; xrep
    | eexists _, _, _, _, _; xlookup
    | first [ intros; discriminate | intros _; eexists _, _, _, _; xlookup ]
    | xlview
    | let a := fresh "a" in let Ha := fresh "Ha" in let Hn := fresh "Hn" in
      intros a Ha Hn; rewrite ?addrs_plug in Ha;
      cbn [addrs ctxL ctxR] in Ha; nd_norm Ha;
      repeat (rewrite lookup_insert_ne by xneq);
      reflexivity ].

Lemma wp_remove_raw_unlink_1 fuel nl rt cnt fst lst h C cz z kz R
    (Q : ptr * bool → state → Prop) :
  let s := mkState (mkTree nl rt cnt fst lst) h in
  tok s (plug C (Node cz Leaf z kz R)) →
  (∀ res s', unlink_post s C cz Leaf R res s' → Q res s') →
  wp (remove_raw_unlink fuel z) s Q.
Proof.
  intros s Htok HQ. subst s. unfold remove_raw_unlink, transplant.
  destruct C as [|[cp p kp sb|cp sb p kp] C]; destruct R as [|cr Rl r kr Rr];
    unl_pre Htok; repeat xstep; unl_post Htok HQ.
Qed.

Lemma wp_remove_raw_unlink_2 fuel nl rt cnt fst lst h C cz cl Ll l kl Lr z kz
    (Q : ptr * bool → state → Prop) :
  let s := mkState (mkTree nl rt cnt fst lst) h in
  tok s (plug C (Node cz (Node cl Ll l kl Lr) z kz Leaf)) →
  (∀ res s', unlink_post s C cz (Node cl Ll l kl Lr) Leaf res s' → Q res s') →
  wp (remove_raw_unlink fuel z) s Q.
Proof.
  intros s Htok HQ. subst s. unfold remove_raw_unlink, transplant.
  destruct C as [|[cp p kp sb|cp sb p kp] C];
    unl_pre Htok; repeat xstep; unl_post Htok HQ.
Qed.

Ltac unl_post3 Htok HQ Cy :=
  apply HQ; eapply (unlink_post_intro _ _ _ _ _ _ _ _ _ _ _ _ _ _ (Cy ++ _));
    [ exact Htok
    | right; right; split; [done|];
      eexists Cy, _, _, _, _; split_and!;
        [reflexivity | repeat constructor | reflexivity | reflexivity | reflexivity]
    | reflexivity
    | cbn [app]; apply trep_plug; split; xrep
    | eexists _, _, _, _, _; xlookup
    | first [ intros; discriminate | intros _; eexists _, _, _, _; xlookup ]
    | xlview
    | let a := fresh "a" in let Ha := fresh "Ha" in let Hn := fresh "Hn" in
      intros a Ha Hn; rewrite ?addrs_plug in Ha;
      cbn [addrs ctxL ctxR app] in Ha; nd_norm Ha;
      repeat (rewrite lookup_insert_ne by xneq);
      reflexivity ].

Lemma wp_unlink_two_a nl rt cnt fst lst h C cz cl Ll l kl Lr z kz cy y ky Ry
    (Q : ptr * bool → state → Prop) :
  let s := mkState (mkTree nl rt cnt fst lst) h in
  let L := Node cl Ll l kl Lr in
  tok s (plug C (Node cz L z kz (Node cy Leaf y ky Ry))) →
  (∀ res s', unlink_post s C cz L (Node cy Leaf y ky Ry) res s' → Q res s') →
  wp (unlink_two z y) s Q.
Proof.
  intros s L Htok HQ. subst s L. unfold unlink_two, transplant.
  destruct C as [|[cp p kp sb|cp sb p kp] C]; destruct Ry as [|cr Rl r kr Rr];
    unl_pre Htok; repeat xstep; unl_post3 Htok HQ (@nil (@frame Item)).
Qed.

Lemma wp_unlink_two_b nl rt cnt fst lst h C cz cl Ll l kl Lr z kz cr r kr Rr
    cy y ky Ry (Q : ptr * bool → state → Prop) :
  let s := mkState (mkTree nl rt cnt fst lst) h in
  let L := Node cl Ll l kl Lr in
  let R := Node cr (Node cy Leaf y ky Ry) r kr Rr in
  tok s (plug C (Node cz L z kz R)) →
  (∀ res s', unlink_post s C cz L R res s' → Q res s') →
  wp (unlink_two z y) s Q.
Proof.
  intros s L R Htok HQ. subst s L R. unfold unlink_two, transplant.
  destruct C as [|[cp p kp sb|cp sb p kp] C]; destruct Ry as [|cy' Rl y' ky' Rr'];
    unl_pre Htok; repeat xstep; unl_post3 Htok HQ [InL cr r kr Rr].
Qed.

Ltac unl_pre_c Htok :=
  let Hrep := fresh "Hrep" in let Hsent := fresh "Hsent" in
  let Hnd := fresh "Hnd" in let Hnin := fresh "Hnin" in
  let HC := fresh "HC" in let Hr := fresh "Hr" in
  pose proof Htok as (Hrep & Hsent & Hnd & Hnin);
  cbn [tree heap nill root] in *;
  apply trep_plug in Hrep as [HC Hr];
  destruct Hsent as (? & ? & ? & ? & ? & Hsent);
  rewrite addrs_plug in Hnd, Hnin; cbn [addrs ctxL ctxR] in Hnd, Hnin;
  rewrite ?addrs_plug in Hnd, Hnin; cbn [addrs ctxL ctxR] in Hnd, Hnin;
  nd_norm Hnd; nd_norm Hnin;
  cbn [rep rep_ctx root_of] in Hr, HC; destruct_and?;
  repeat match goal with
         | H : rep _ _ (plug _ _) _ |- _ =>
             let H' := fresh "HCy" in
             apply rep_plug in H as [H' H]; cbn [rep root_of] in H;
             destruct_and?
         end;
  repeat match goal with H : tnode _ _ _ _ _ _ _ |- _ =>
           destruct H as (? & ? & H) end;
  subst; xcbn.

Ltac xrep_c Hrp :=
  cbn [rep rep_ctx root_of caddr faddr]; split_and?;
  lazymatch goal with
  | |- rep _ _ (plug _ _) _ =>
      apply rep_plug; rewrite Hrp; split;
        [ eapply rep_ctx_frame; [eassumption | xframe_side | xframe_side]
        | xrep ]
  | |- tnode _ _ (root_of _ (plug _ _)) _ _ _ _ =>
      rewrite Hrp; eexists _, _; xlookup
  | |- _ => xrep1
  end.

Lemma wp_unlink_two_c nl rt cnt fst lst h C cz cl Ll l kl Lr z kz cr r kr Rr
    Cy cq q kq Rq cy y ky Ry (Q : ptr * bool → state → Prop) :
  let s := mkState (mkTree nl rt cnt fst lst) h in
  let L := Node cl Ll l kl Lr in
  let R := Node cr (plug Cy (Node cq (Node cy Leaf y ky Ry) q kq Rq)) r kr Rr in
  tok s (plug C (Node cz L z kz R)) →
  all_left Cy →
  (∀ res s', unlink_post s C cz L R res s' → Q res s') →
  wp (unlink_two z y) s Q.
Proof.
  intros s L R Htok Hal HQ. subst s L R. unfold unlink_two, transplant.
  pose proof (root_plug_node nl Cy cq Ry q kq Rq cq (Node cy Leaf y ky Ry) kq Rq)
    as Hrp.
  destruct C as [|[cp p kp sb|cp sb p kp] C]; destruct Ry as [|cy' Rl y' ky' Rr'];
    unl_pre_c Htok; repeat xstep;
    (apply HQ; eapply (unlink_post_intro _ _ _ _ _ _ _ _ _ _ _ _ _ _
                        ((InL cq q kq Rq :: Cy ++ [InL cr r kr Rr]) ++ _));
     [ exact Htok
     | right; right; split; [done|];
       eexists (InL cq q kq Rq :: Cy ++ [InL cr r kr Rr]), _, _, _, _;
       split_and!; [ cbn [plug fill]; rewrite plug_app; reflexivity
                   | apply Forall_cons; split; [exact I|];
                     apply all_left_app; [done | repeat constructor]
                   | reflexivity.. ]
     | reflexivity
     | rewrite !plug_app; cbn [plug fill]; rewrite ?plug_app; cbn [plug fill];
       first [ apply trep_plug; split | split; [reflexivity|] ]; xrep_c Hrp
     | eexists _, _, _, _, _; xlookup
     | first [ intros; discriminate | intros _; eexists _, _, _, _; xlookup ]
     | xlview
     | let a := fresh "a" in let Ha := fresh "Ha" in let Hn := fresh "Hn" in
       intros a Ha Hn; rewrite ?addrs_plug in Ha;
       cbn [addrs ctxL ctxR app] in Ha;
       rewrite ?ctxL_app, ?ctxR_app in Ha; cbn [addrs ctxL ctxR app] in Ha;
       nd_norm Ha;
       repeat (rewrite lookup_insert_ne by xneq);
       reflexivity ]).
Qed.

Lemma all_left_snoc_inv (Cy : list (@frame Item)) F :
  all_left (Cy ++ [F]) → all_left Cy ∧ ∃ c a k r, F = InL c a k r.
Proof.
  intros [H1 H2]%Forall_app. split; [done|].
  apply Forall_cons in H2 as [H2 _]. destruct F; [eauto|done].
Qed.

Lemma root_of_neq_nl nl t : t ≠ Leaf → nl ∉ addrs t → root_of nl t ≠ nl.
Proof.
  intros Ht Hn E. apply Hn. rewrite <- E at 1. by apply root_of_elem.
Qed.

Lemma wp_remove_raw_unlink fuel s C cz L z kz R (Q : ptr * bool → state → Prop) :
  tok s (plug C (Node cz L z kz R)) →
  length (addrs R) ≤ fuel →
  (∀ res s', unlink_post s C cz L R res s' → Q res s') →
  wp (remove_raw_unlink fuel z) s Q.
Proof.
  intros Htok Hfuel HQ. destruct s as [[nl rt cnt fst lst] h].
  destruct L as [|cl Ll l kl Lr]; [by eapply wp_remove_raw_unlink_1|].
  destruct R as [|cr Rl r kr Rr]; [by eapply wp_remove_raw_unlink_2|].
  pose proof Htok as (Hrep & Hsent & Hnd & Hnin).
  cbn [tree heap nill root] in *.
  apply trep_plug in Hrep as [HC Hr].
  rewrite addrs_plug in Hnd, Hnin. cbn [addrs ctxL ctxR] in Hnd, Hnin.
  nd_norm Hnd. nd_norm Hnin.
  cbn [rep root_of] in Hr. destruct Hr as ((pv & nx & Hz) & _ & HR).
  unfold remove_raw_unlink. repeat xstep.
  apply wp_bind.
  apply (wp_leftmost_loop nl rt cnt fst lst h (Node cr Rl r kr Rr) fuel z);
    [done|done| |done|].
  { cbn [addrs]. rewrite !not_elem_of_app, not_elem_of_cons. tauto. }
  intros Cy cy y ky Ry HE Hal. clear -Htok HQ HE Hal.
  destruct Cy as [|F Cy _] using rev_ind.
  { cbn in HE. rewrite HE in *. by eapply wp_unlink_two_a. }
  apply all_left_snoc_inv in Hal as (Hal & cf & af & kf & rf & ->).
  rewrite plug_app in HE. cbn [plug fill] in HE. rewrite HE in *. clear HE.
  destruct Cy as [|Fq Cy].
  { cbn [plug]. cbn [plug] in Htok, HQ. by eapply wp_unlink_two_b. }
  apply Forall_cons in Hal as [HFq Hal].
  destruct Fq as [cq q kq Rq|]; [|done].
  cbn [plug fill] in *. by eapply wp_unlink_two_c.
Qed.

End Unlink2.

Section Dll.
Context {Item : Type}.
Implicit Types (s : @state Item) (h : gmap nat (@Rbnode Item))
  (t T : @atree Item) (tr : @Rbtree) (C : list (@frame Item)).

Lemma last_cons_cons {A} (a : A) l d : List.last (a :: l) d = List.last l a.
Proof.
  revert a d. induction l as [|b l IH]; intros a d; [done|].
  change (List.last (b :: l) d = List.last (b :: l) a).
  by rewrite !(IH b).
Qed.

Lemma last_snoc' {A} (a : A) l d : List.last (l ++ [a]) d = a.
Proof. apply last_last. Qed.

Lemma hd_app {A} (l1 l2 : list A) d : hd d (l1 ++ l2) = hd (hd d l2) l1.
Proof. by destruct l1. Qed.

Lemma last_app' {A} (l1 l2 : list A) d :
  List.last (l1 ++ l2) d = List.last l2 (List.last l1 d).
Proof.
  revert d. induction l1 as [|a l1 IH]; intros d; [done|].
  rewrite <- app_comm_cons, !last_cons_cons. apply IH.
Qed.

Lemma dll_app h l1 l2 pv nx :
  dll h (l1 ++ l2) pv nx ↔
  dll h l1 pv (hd nx l2) ∧ dll h l2 (List.last l1 pv) nx.
Proof.
  revert pv. induction l1 as [|a l1 IH]; intros pv.
  - cbn. tauto.
  - rewrite <- app_comm_cons. cbn [dll]. rewrite IH, hd_app, last_cons_cons.
    tauto.
Qed.

Lemma dll_frame h h' l pv nx :
  (∀ a, a ∈ l → lview <$> h' !! a = lview <$> h !! a) →
  dll h l pv nx → dll h' l pv nx.
Proof.
  revert pv. induction l as [|a l IH]; intros pv Hfr; [done|].
  cbn [dll]. intros ((n & Ha & Hp & Hn) & Hl). split.
  - pose proof (Hfr a ltac:(left)) as Hv. rewrite Ha in Hv.
    destruct (h' !! a) as [n'|]; [|done]. cbn in Hv.
    exists n'. unfold lview in Hv. split; [done|]. split; congruence.
  - apply IH; [|done]. intros b Hb. apply Hfr. by right.
Qed.

Lemma rep_tview h h' nl t par :
  (∀ a, a ∈ addrs t → tview <$> h' !! a = tview <$> h !! a) →
  rep h nl t par → rep h' nl t par.
Proof.
  revert par. induction t as [|c l IHl a k r IHr]; intros par Hfr; [done|].
  cbn [rep addrs] in *. intros ((pv & nx & Ha) & Hl & Hr). split_and!.
  - assert (a ∈ addrs l ++ a :: addrs r) as Hv%Hfr by set_solver.
    rewrite Ha in Hv.
    destruct (h' !! a) as [[]|] eqn:E; [|done]. cbn in Hv. unfold tview in Hv.
    cbn in Hv. simplify_eq. by eexists _, _.
  - apply IHl; [|done]. intros b Hb. apply Hfr. set_solver.
  - apply IHr; [|done]. intros b Hb. apply Hfr. set_solver.
Qed.

Lemma tview_insert h p n n' a :
  h !! p = Some n → tview n' = tview n →
  tview <$> <[p := n']> h !! a = tview <$> h !! a.
Proof.
  intros Hp Hv. destruct (decide (p = a)) as [->|].
  - rewrite lookup_insert_eq, Hp. cbn. by rewrite Hv.
  - by rewrite lookup_insert_ne.
Qed.

Lemma item_insert h p n n' a :
  h !! p = Some n → item n' = item n →
  item <$> <[p := n']> h !! a = item <$> h !! a.
Proof.
  intros Hp Hv. destruct (decide (p = a)) as [->|].
  - rewrite lookup_insert_eq, Hp. cbn. by rewrite Hv.
  - by rewrite lookup_insert_ne.
Qed.

Lemma item_lview h h' a :
  lview <$> h' !! a = lview <$> h !! a → item <$> h' !! a = item <$> h !! a.
Proof.
  destruct (h' !! a), (h !! a); cbn; try done. unfold lview. congruence.
Qed.

(** Taking [z] out of the list. *)
Lemma dll_set_next h h' l pv nx nx' :
  dll h l pv nx → NoDup l →
  (∀ a, a ∈ l → a ≠ List.last l pv → lview <$> h' !! a = lview <$> h !! a) →
  (l ≠ [] → ∃ n, h !! List.last l pv = Some n ∧
              h' !! List.last l pv = Some (set_next nx' n)) →
  dll h' l pv nx'.
Proof.
  destruct l as [|a l _] using rev_ind; [done|].
  rewrite last_snoc'. intros [H1 H2]%dll_app [Hnd1 [Hnd2 _]]%NoDup_app Hfr Hl.
  apply dll_app. cbn [hd] in *. split.
  - eapply dll_frame; [|done]. intros b Hb. apply Hfr; [set_solver|].
    intros ->. by eapply Hnd2; [|left].
  - destruct Hl as (n & Hn & Hn'); [by destruct l|].
    cbn [dll] in *. split; [|done]. destruct H2 as [(n0 & Hn0 & Hp & _) _].
    rewrite Hn in Hn0. injection Hn0 as <-.
    eexists. split; [done|]. by destruct n.
Qed.

Lemma dll_set_prev h h' l pv pv' nx :
  dll h l pv nx → NoDup l →
  (∀ a, a ∈ l → a ≠ hd nx l → lview <$> h' !! a = lview <$> h !! a) →
  (l ≠ [] → ∃ n, h !! hd nx l = Some n ∧
              h' !! hd nx l = Some (set_prev pv' n)) →
  dll h' l pv' nx.
Proof.
  destruct l as [|a l]; [done|]. cbn [hd dll].
  intros [(n0 & Hn0 & _ & Hx) H2] [Hnd1 Hnd2]%NoDup_cons Hfr Hl. split.
  - destruct Hl as (n & Hn & Hn'); [done|].
    rewrite Hn in Hn0. injection Hn0 as <-.
    eexists. split; [done|]. by destruct n.
  - eapply dll_frame; [|done]. intros b Hb. apply Hfr; [by right|].
    intros ->. done.
Qed.

Lemma hd_elem (l : list ptr) d : l ≠ [] → hd d l ∈ l.
Proof. destruct l; [done|]. intros _. by left. Qed.

Lemma last_elem (l : list ptr) d : l ≠ [] → List.last l d ∈ l.
Proof.
  destruct l as [|a l _] using rev_ind; [done|]. intros _.
  rewrite last_snoc'. set_solver.
Qed.

Lemma dll_remove h h' l1 z l2 nl :
  dll h (l1 ++ z :: l2) nl nl → NoDup (l1 ++ z :: l2) →
  nl ∉ l1 ++ z :: l2 →
  (∀ a, a ∈ l1 ++ l2 → a ≠ List.last l1 nl → a ≠ hd nl l2 →
        h' !! a = h !! a) →
  (l1 ≠ [] → ∃ n, h !! List.last l1 nl = Some n ∧
       h' !! List.last l1 nl = Some (set_next (hd nl l2) n)) →
  (l2 ≠ [] → ∃ n, h !! hd nl l2 = Some n ∧
       h' !! hd nl l2 = Some (set_prev (List.last l1 nl) n)) →
  dll h' (l1 ++ l2) nl nl.
Proof.
  intros [H1 H2]%dll_app Hnd Hnl Hfr Hl1 Hl2.
  cbn [dll hd] in H2. destruct H2 as [_ H2].
  apply NoDup_app in Hnd as (Hnd1 & Hd & [Hz Hnd2]%NoDup_cons).
  apply dll_app. split.
  - eapply dll_set_next; [done|done| |done].
    intros a Ha Hne. rewrite Hfr; [done|set_solver|done|].
    intros ->. destruct l2 as [|b l2]; cbn in *.
    + apply Hnl. set_solver.
    + eapply Hd; [done|]. set_solver.
  - eapply dll_set_prev; [done|done| |done].
    intros a Ha Hne. rewrite Hfr; [done|set_solver| |done].
    intros ->. destruct (decide (l1 = [])) as [->|Hne1].
    + cbn in *. apply Hnl. set_solver.
    + eapply Hd; [by apply last_elem|]. by right.
Qed.

End Dll.

Ltac xtview :=
  let a := fresh "a" in
  intros a;
  repeat (etrans; [eapply tview_insert; [xlookup | reflexivity]|]);
  reflexivity.

Ltac xitem :=
  let a := fresh "a" in
  intros a;
  repeat (etrans; [eapply item_insert; [xlookup | reflexivity]|]);
  reflexivity.

Section RemoveRaw.
Context {Item : Type}.
Implicit Types (s : @state Item) (h : gmap nat (@Rbnode Item))
  (t T : @atree Item) (tr : @Rbtree) (C : list (@frame Item)).

Lemma dll_lookup h l pv nx a :
  dll h l pv nx → a ∈ l → ∃ n, h !! a = Some n.
Proof.
  revert pv. induction l as [|b l IH]; intros pv; [by intros _ ?%elem_of_nil|].
  cbn [dll]. intros [(n & Hn & _) Hl] [->|Ha]%elem_of_cons; [eauto|].
  by eapply IH.
Qed.

Lemma hd_nil_inv (l : list ptr) nl : nl ∉ l → hd nl l = nl → l = [].
Proof. destruct l; [done|]. cbn. intros Hn ->. destruct Hn. by left. Qed.

Lemma last_nil_inv (l : list ptr) nl : nl ∉ l → List.last l nl = nl → l = [].
Proof.
  destruct l as [|a l _] using rev_ind; [done|]. rewrite last_snoc'.
  intros Hn ->. destruct Hn. set_solver.
Qed.

(** The last part of [remove_raw]: the count and the list. *)
Lemma wp_list_remove nl rt cnt fst lst h T l1 z l2 (Q : ptr * bool → state → Prop) :
  let s := mkState (mkTree nl rt cnt fst lst) h in
  tok s T → addrs T = l1 ++ l2 →
  dll h (l1 ++ z :: l2) nl nl → NoDup (l1 ++ z :: l2) → nl ∉ l1 ++ z :: l2 →
  fst = hd nl (l1 ++ z :: l2) → lst = List.last (l1 ++ z :: l2) nl →
  cnt = Z.of_nat (length (l1 ++ z :: l2)) →
  (∀ s', tok s' T →
         dll (heap s') (addrs T) nl nl →
         first (tree s') = hd nl (addrs T) →
         last (tree s') = List.last (addrs T) nl →
         count (tree s') = Z.of_nat (length (addrs T)) →
         nill (tree s') = nl →
         heap s' !! z = h !! z →
         (∀ a, a ∉ addrs T → heap s' !! a = h !! a) →
         (∀ a, item <$> heap s' !! a = item <$> h !! a) →
         (∀ a, tview <$> heap s' !! a = tview <$> h !! a) →
         Q (z, true) s') →
  wp (c ← tget count; tset (set_count (c - 1));;
      zn ← load next z; nl ← tget nill;
      (if negb (zn =? nl) then
         zn ← load next z; zp ← load prev z; store (set_prev zp) zn
       else
         zp ← load prev z; tset (set_last zp));;
      zp ← load prev z; nl ← tget nill;
      (if negb (zp =? nl) then
         zp ← load prev z; zn ← load next z; store (set_next zn) zp
       else
         zn ← load next z; tset (set_first zn));;
      ret (z, true)) s Q.
Proof.
  intros s ((Hrt & Hrep) & Hsent & HndT & HnlT) HT Hdll Hnd Hnl -> -> -> HQ.
  subst s. cbn [tree heap nill root] in *.
  pose proof Hdll as [H1 H2]%dll_app. cbn [dll hd] in H2.
  destruct H2 as [([zl zr zp a b ki zc] & Hz & Ha & Hb) H2]. cbn in Ha, Hb.
  pose proof Hnd as (Hnd1 & Hd & [Hz' Hnd2]%NoDup_cons)%NoDup_app.
  assert (z ≠ nl) as Hznl by (intros ->; apply Hnl; set_solver).
  assert (l1 = [] ∧ a = nl ∨
          l1 ≠ [] ∧ a ≠ nl ∧ a ≠ z ∧ a ∈ l1 ∧ ∃ na, h !! a = Some na) as Hca.
  { destruct (decide (l1 = [])) as [->|Hne]; [left; by subst|right].
    assert (a ∈ l1) as Hin by (subst a; by apply last_elem).
    split_and!; [done| | |done|by eapply (dll_lookup _ l1)].
    - intros ->. apply Hnl. set_solver.
    - intros ->. by eapply Hd; [|left]. }
  assert (l2 = [] ∧ b = nl ∨
          l2 ≠ [] ∧ b ≠ nl ∧ b ≠ z ∧ b ∈ l2 ∧ ∃ nb, h !! b = Some nb) as Hcb.
  { destruct (decide (l2 = [])) as [->|Hne]; [left; by subst|right].
    assert (b ∈ l2) as Hin by (subst b; by apply hd_elem).
    split_and!; [done| | |done|by eapply (dll_lookup _ l2)].
    - intros ->. apply Hnl. set_solver.
    - intros ->. done. }
  assert (l1 ≠ [] → l2 ≠ [] → a ≠ b) as Hab.
  { intros Hn1 Hn2 E. destruct Hca as [[? _]|(_&_&_&Hin&_)]; [done|].
    destruct Hcb as [[? _]|(_&_&_&Hin'&_)]; [done|]. rewrite E in Hin.
    eapply Hd; [exact Hin|]. by right. }
  assert (Z.of_nat (length (l1 ++ z :: l2)) - 1 = Z.of_nat (length (l1 ++ l2)))%Z
    as Hcnt by (rewrite !length_app; cbn; lia).
  assert (l1 = [] → b = hd nl (l1 ++ l2)) as Hf1 by (intros ->; by subst b).
  assert (l1 ≠ [] → hd nl (l1 ++ z :: l2) = hd nl (l1 ++ l2)) as Hf2
    by (by destruct l1).
  assert (l2 = [] → a = List.last (l1 ++ l2) nl) as Hl1
    by (intros ->; rewrite app_nil_r; by subst a).
  assert (l2 ≠ [] → List.last (l1 ++ z :: l2) nl = List.last (l1 ++ l2) nl) as Hl2.
  { intros Hne. rewrite !last_app'. destruct l2; [done|].
    by rewrite !last_cons_cons. }
  assert (∀ h', (∀ x, x ∈ l1 ++ l2 → x ≠ a → x ≠ b → h' !! x = h !! x) →
     (l1 ≠ [] → ∃ n, h !! a = Some n ∧ h' !! a = Some (set_next b n)) →
     (l2 ≠ [] → ∃ n, h !! b = Some n ∧ h' !! b = Some (set_prev a n)) →
     dll h' (l1 ++ l2) nl nl) as Hfin.
  { intros h' ? ? ?. subst a b. by eapply dll_remove. }
  clear Ha Hb H1 H2 Hdll.
  assert (∀ x y : ptr, x ∉ l1 ++ l2 → y ∈ l1 → x ≠ y) as Hn1
    by (intros x y Hx Hy ->; apply Hx; set_solver).
  assert (∀ x y : ptr, x ∉ l1 ++ l2 → y ∈ l2 → x ≠ y) as Hn2
    by (intros x y Hx Hy ->; apply Hx; set_solver).
  rewrite HT in *.
  destruct Hca as [[-> ->]|(Hne1 & ? & ? & ? & [] & Hna)];
    destruct Hcb as [[-> ->]|(Hne2 & ? & ? & ? & [] & Hnb)];
    try (specialize (Hab Hne1 Hne2));
    repeat xstep.
  all: apply HQ; cbn [tree heap nill count first last root]; rewrite ?HT.
  all: try match goal with |- tok _ _ =>
         split_and!; cbn [tree heap nill count first last root]; rewrite ?HT;
           [ split; [done|]; eapply rep_tview; [|exact Hrep];
             let a := fresh in intros a _; revert a; xtview
           | eapply sentinel_frame; [exact Hsent|];
             by rewrite ?lookup_insert_ne by done
           | done | done ] end.
  all: try match goal with |- dll _ _ _ _ =>
         apply Hfin;
           [ intros x Hx Hxa Hxb; by rewrite ?lookup_insert_ne by done
           | first [ intros []; reflexivity
                   | intros _; eexists; split; [eassumption|xlookup] ]
           | first [ intros []; reflexivity
                   | intros _; eexists; split; [eassumption|xlookup] ] ] end.
  all: try match goal with |- _ = hd _ _ =>
         first [ by apply Hf1 | by apply Hf2 ] end.
  all: try match goal with |- _ = List.last _ _ =>
         first [ by apply Hl1 | by apply Hl2 ] end.
  all: try exact Hcnt.
  all: try reflexivity.
  all: try match goal with |- ∀ a, item <$> _ = _ => xitem end.
  all: try match goal with |- ∀ a, tview <$> _ = _ => xtview end.
  all: try match goal with |- ∀ a, a ∉ _ → _ =>
         let x := fresh "x" in let Hx := fresh "Hx" in
         intros x Hx;
         repeat (rewrite lookup_insert_ne;
                 [|first [ by apply not_eq_sym, (Hn1 x)
                         | by apply not_eq_sym, (Hn2 x) ]]);
         reflexivity end.
  all: try by rewrite ?lookup_insert_ne by done.
  all: try (by intros ?).
Qed.

Lemma wp_remove_raw fuel s C cz L z kz R (Q : ptr * bool → state → Prop) :
  let T := plug C (Node cz L z kz R) in
  Inv s T → length (addrs T) < fuel →
  (∀ s' T', Inv s' T' →
     addrs T' = (ctxL C ++ addrs L) ++ addrs R ++ ctxR C →
     keys T' = (kctxL C ++ keys L) ++ keys R ++ kctxR C →
     nill (tree s') = nill (tree s) →
     heap s' !! z = heap s !! z →
     (∀ a, a ∉ addrs T → a ≠ nill (tree s) → heap s' !! a = heap s !! a) →
     (∀ a, item <$> heap s' !! a = item <$> heap s !! a) →
     Q (z, true) s') →
  wp (remove_raw fuel z) s Q.
Proof.
  intros T (Htok & Hrb & Hdll & Hfirst & Hlast & Hcnt) Hfuel HQ.
  unfold remove_raw. apply wp_bind.
  eapply wp_remove_raw_unlink; [exact Htok| |].
  { subst T. rewrite addrs_plug in Hfuel. cbn [addrs] in Hfuel.
    rewrite !length_app in Hfuel. cbn [length] in Hfuel. lia. }
  intros [x c] s1 (Cx & tx & Hsh & Hx & Htok1 & Hnl1 & Hc1 & Hf1 & Hl1 &
                   Hlv1 & Hout1 & Hnlp).
  cbn [fst snd] in *.
  destruct (unlink_addrs _ _ _ z kz _ _ _ _ Hsh) as (HaT & HaT1 & HkT & HkT1).
  fold T in HaT, HkT.
  pose proof Htok as (_ & _ & HndT & HnlT).
  destruct (unlink_nodup (nill (tree s)) _ _ _ _ _ _ _ _ _ Hsh HndT HnlT)
    as (_ & _ & HzT1).
  pose proof (unlink_rb _ _ _ _ _ _ _ _ _ Hrb Hsh) as Hrb1.
  set (nl := nill (tree s)) in *.
  set (l1 := ctxL C ++ addrs L) in *. set (l2 := addrs R ++ ctxR C) in *.
  assert (z ≠ nl) as Hznl.
  { intros E. apply HnlT. rewrite HaT, <- E. set_solver. }
  assert (tstep nl s1 (l1 ++ l2) (keys (plug Cx tx)) s1 (plug Cx tx)) as Hst1.
  { split_and!; try done; apply tframe_refl. }
  apply wp_bind.
  assert (∀ s2 T2, tstep nl s1 (l1 ++ l2) (keys (plug Cx tx)) s2 T2 → is_rb T2 →
    wp (c ← tget count; tset (set_count (c - 1));;
      zn ← load next z; nl ← tget nill;
      (if negb (zn =? nl) then
         zn ← load next z; zp ← load prev z; store (set_prev zp) zn
       else
         zp ← load prev z; tset (set_last zp));;
      zp ← load prev z; nl ← tget nill;
      (if negb (zp =? nl) then
         zp ← load prev z; zn ← load next z; store (set_next zn) zp
       else
         zn ← load next z; tset (set_first zn));;
      ret (z, true)) s2 Q) as Hk.
  { intros s2 T2 (Hnl2 & Htok2 & HL2 & HK2 & Hfr) Hrb2.
    destruct Hfr as (_ & Hc2 & Hf2 & Hl2 & Hlv2 & Hout2).
    destruct s2 as [[nl2 rt2 cnt2 fst2 lst2] h2].
    cbn [tree heap nill root count first last] in *. subst nl2.
    assert (∀ a, lview <$> h2 !! a = lview <$> heap s !! a) as Hlv
      by (intros a; by rewrite Hlv2, Hlv1).
    eapply (wp_list_remove nl rt2 cnt2 fst2 lst2 h2 T2 l1 z l2);
      [done|done| | | | | | |].
    - eapply dll_frame; [|rewrite <- HaT; exact Hdll]. intros a _. apply Hlv.
    - by rewrite <- HaT.
    - by rewrite <- HaT.
    - rewrite <- HaT. congruence.
    - rewrite <- HaT. congruence.
    - rewrite <- HaT. congruence.
    - intros s' Htok' Hdll' Hfst' Hlst' Hcnt' Hnl' Hz' Hout' Hit' Htv'.
      assert (h2 !! z = heap s !! z) as Hz2.
      { rewrite Hout2 by (by rewrite <- HaT1). by apply Hout1. }
      apply (HQ s' T2).
      + unfold Inv. rewrite Hnl'. by split_and!.
      + done.
      + by rewrite HK2.
      + done.
      + by rewrite Hz'.
      + intros a Ha Hanl. rewrite HaT in Ha.
        assert (a ∉ l1 ++ l2) as Ha' by set_solver.
        rewrite Hout' by (by rewrite HL2).
        rewrite Hout2 by done. apply Hout1; [by rewrite HaT1|done].
      + intros a. rewrite Hit'. apply item_lview, Hlv. }
  destruct c; cbn [eqb BLACK].
  - destruct Hrb1 as (n & Hrr & Hrc). rewrite Hx.
    eapply (wp_deleteFixup nl s1); [ |exact Hst1|exact Hrr|exact Hrc|exact Hnlp|].
    + pose proof (length_ctx_plug Cx tx) as Hlen. rewrite HaT1 in Hlen.
      rewrite HaT in Hfuel. clear -Hlen Hfuel.
      rewrite !length_app in *. cbn [length] in *. lia.
    + intros s' T' Hst' Hrb'. by eapply Hk.
  - apply wp_ret. by eapply Hk.
Qed.

End RemoveRaw.

Section Descent.
Context {Item : Type} (Less : Item → Item → bool).
Implicit Types (s : @state Item) (h : gmap nat (@Rbnode Item))
  (t T : @atree Item) (tr : @Rbtree) (C : list (@frame Item)).

Lemma ipath_path x C : ipath Less x C → path Less x C.
Proof.
  induction C as [|[c a k r|c l a k] C IH]; cbn; [done|..]; tauto.
Qed.

Lemma wp_insert_loop nl rt cnt fst lst h z zn kz t :
  let s := mkState (mkTree nl rt cnt fst lst) h in
  h !! z = Some zn → item zn = Some kz →
  ∀ fuel C par (Q : ptr + ptr → state → Prop),
  rep h nl t par → nl ∉ addrs t → length (addrs t) < fuel →
  ipath Less kz C →
  (∀ C', plug C t = plug C' Leaf → ipath Less kz C' → Q (inr (caddr nl C')) s) →
  (∀ C' c l y ky r, plug C t = plug C' (Node c l y ky r) →
     equiv_item Less kz ky → Q (inl y) s) →
  wp (insert_loop Less fuel z (root_of nl t) (caddr nl C)) s Q.
Proof.
  intros s Hz Hzi. subst s.
  induction t as [|c l IHl a k r IHr]; intros fuel C par Q Hrep Hnl Hfuel Hp HQ1 HQ2.
  - destruct fuel as [|fuel]; [cbn in Hfuel; lia|].
    cbn [insert_loop root_of]. repeat xstep. by apply HQ1.
  - destruct fuel as [|fuel]; [cbn in Hfuel; lia|].
    cbn [rep addrs root_of] in *. destruct Hrep as ((pv & nx & Ha) & Hl & Hr).
    rewrite length_app in Hfuel. cbn [length] in Hfuel.
    assert (nl ≠ a ∧ nl ∉ addrs l ∧ nl ∉ addrs r) as (Hna & Hnl1 & Hnl2).
    { rewrite !not_elem_of_app, not_elem_of_cons in Hnl. tauto. }
    cbn [insert_loop]. repeat xstep. rewrite Hzi. cbn [less].
    apply wp_bind_ret. destruct (Less kz k) eqn:E1.
    + xstep. apply (IHl fuel (InL c a k r :: C) a); try done.
      * lia.
    + repeat xstep. rewrite Hzi. cbn [less].
      apply wp_bind_ret. destruct (Less k kz) eqn:E2.
      * xstep. apply (IHr fuel (InR c l a k :: C) a); try done.
        lia.
      * apply wp_ret. by eapply (HQ2 C).
Qed.

Lemma wp_search_loop nl rt cnt fst lst h x xn kx t :
  let s := mkState (mkTree nl rt cnt fst lst) h in
  h !! x = Some xn → item xn = Some kx →
  ∀ fuel C par (Q : ptr → state → Prop),
  rep h nl t par → nl ∉ addrs t → length (addrs t) < fuel →
  path Less kx C →
  (∀ C', plug C t = plug C' Leaf → path Less kx C' → Q nl s) →
  (∀ C' c l y ky r, plug C t = plug C' (Node c l y ky r) →
     equiv_item Less kx ky → Q y s) →
  wp (search_loop Less fuel x (root_of nl t)) s Q.
Proof.
  intros s Hz Hzi. subst s.
  induction t as [|c l IHl a k r IHr]; intros fuel C par Q Hrep Hnl Hfuel Hp HQ1 HQ2.
  - destruct fuel as [|fuel]; [cbn in Hfuel; lia|].
    cbn [search_loop root_of]. repeat xstep. by eapply HQ1.
  - destruct fuel as [|fuel]; [cbn in Hfuel; lia|].
    cbn [rep addrs root_of] in *. destruct Hrep as ((pv & nx & Ha) & Hl & Hr).
    rewrite length_app in Hfuel. cbn [length] in Hfuel.
    assert (nl ≠ a ∧ nl ∉ addrs l ∧ nl ∉ addrs r) as (Hna & Hnl1 & Hnl2).
    { rewrite !not_elem_of_app, not_elem_of_cons in Hnl. tauto. }
    cbn [search_loop]. repeat xstep. rewrite Hzi. cbn [less].
    apply wp_bind_ret. destruct (Less k kx) eqn:E1.
    + xstep. apply (IHr fuel (InR c l a k :: C) a); try done.
      lia.
    + repeat xstep. rewrite Hzi. cbn [less].
      apply wp_bind_ret. destruct (Less kx k) eqn:E2.
      * xstep. apply (IHl fuel (InL c a k r :: C) a); try done.
        lia.
      * apply wp_ret. by eapply (HQ2 C).
Qed.

End Descent.

Section Link.
Context {Item : Type} (Less : Item → Item → bool).
Implicit Types (s : @state Item) (h : gmap nat (@Rbnode Item))
  (t T : @atree Item) (tr : @Rbtree) (C : list (@frame Item)).

(** Linking the new node under the parent found by the descent. *)
Lemma wp_link {B} nl rt cnt fst lst h C z kz pz pv nx (k : M B)
    (Q : B → state → Prop) :
  let s := mkState (mkTree nl rt cnt fst lst) h in
  let T' := plug C (Node RED Leaf z kz Leaf) in
  tok s (plug C Leaf) → ipath Less kz C →
  h !! z = Some (mkNode nl nl pz pv nx (Some kz) RED) →
  z ∉ addrs (plug C Leaf) → z ≠ nl →
  (∀ s', tok s' T' →
     nill (tree s') = nl → count (tree s') = (cnt + 1)%Z →
     first (tree s') = fst → last (tree s') = lst →
     (∀ a, lview <$> heap s' !! a = lview <$> h !! a) →
     (∀ a, a ∉ addrs T' → heap s' !! a = h !! a) →
     wp k s' Q) →
  wp (store (set_parent (caddr nl C)) z;;
      nl' ← tget nill;
      (if caddr nl C =? nl' then tset (set_root z)
       else
         zi ← load item z; yi ← load item (caddr nl C);
         b ← less Less zi yi;
         if b then store (set_left z) (caddr nl C)
         else store (set_right z) (caddr nl C));;
      c ← tget count; tset (set_count (c + 1));; k) s Q.
Proof.
  intros s T' Htok Hp Hz Hzin Hznl HQ. subst s T'.
  pose proof Htok as (Hrep & Hsent & Hnd & Hnin).
  cbn [tree heap nill root] in *.
  apply trep_plug in Hrep as [HC _].
  assert (NoDup (addrs (plug C (Node RED Leaf z kz Leaf))) ∧
          nl ∉ addrs (plug C (Node RED Leaf z kz Leaf))) as [HndT' HnlT'].
  { rewrite addrs_plug in *. cbn [addrs app] in *. split.
    - apply NoDup_app in Hnd as (H1 & H2 & H3). apply NoDup_app.
      split_and!; [done| |].
      + intros x Hx [->|Hx']%elem_of_cons; [|by eapply H2].
        apply Hzin. set_solver.
      + apply NoDup_cons. split; [|done]. intros Hx. apply Hzin. set_solver.
    - rewrite not_elem_of_app, not_elem_of_cons.
      rewrite not_elem_of_app in Hnin. split_and!; [tauto|done|tauto]. }
  rewrite addrs_plug in Hnd, Hnin, Hzin.
  destruct C as [|[cp p kp sb|cp sb p kp] C];
    cbn [addrs ctxL ctxR app] in Hnd, Hnin, Hzin;
    nd_norm Hnd; nd_norm Hnin; nd_norm Hzin;
    cbn [rep_ctx root_of ipath] in HC, Hp; destruct_and?;
    repeat match goal with H : tnode _ _ _ _ _ _ _ |- _ =>
             destruct H as (? & ? & H) end;
    subst; xcbn; repeat xstep; cbn [less];
    repeat match goal with
           | H : Less _ _ = _ |- _ => rewrite H; clear H
           end;
    repeat xstep;
    (apply HQ; cbn [tree heap nill root count first last];
     [ split_and!; cbn [tree heap nill root];
       [ apply trep_plug; split; xrep
       | destruct Hsent as (? & ? & ? & ? & ? & Hsent);
         eexists _, _, _, _, _; xlookup
       | exact HndT' | exact HnlT' ]
     | reflexivity | reflexivity | reflexivity | reflexivity
     | xlview
     | xout ]).
Qed.

End Link.

Section Succ.
Context {Item : Type}.
Implicit Types (s : @state Item) (h : gmap nat (@Rbnode Item))
  (t T : @atree Item) (tr : @Rbtree) (C : list (@frame Item)).

Lemma min_loop_leftmost fuel : ∀ x s,
  min_loop fuel x s = leftmost_loop fuel x s.
Proof.
  induction fuel as [|fuel IH]; intros x s; [done|].
  cbn [min_loop leftmost_loop]. unfold bind.
  destruct (load left x s) as [xl s1| |]; [|done..].
  destruct (tget nill s1) as [nl s2| |]; [|done..].
  destruct (negb (xl =? nl)); [|done].
  destruct (load left x s2) as [x' s3| |]; [|done..]. apply IH.
Qed.

Lemma wp_min nl rt cnt fst lst h fuel t par (Q : ptr → state → Prop) :
  let s := mkState (mkTree nl rt cnt fst lst) h in
  t ≠ Leaf → rep h nl t par → nl ∉ addrs t → length (addrs t) ≤ fuel →
  Q (hd nl (addrs t)) s →
  wp (min fuel (root_of nl t)) s Q.
Proof.
  intros s Ht Hrep Hnl Hfuel HQ. subst s. unfold min.
  xstep. rewrite (proj2 (Nat.eqb_neq _ _)) by (by apply root_of_neq_nl).
  unfold wp. rewrite min_loop_leftmost.
  eapply wp_leftmost_loop; try done.
  intros Cy cy y ky Ry -> Hal.
  destruct (all_left_ctxL _ Hal) as [E _].
  rewrite addrs_plug, E in HQ. exact HQ.
Qed.

Lemma wp_successor_loop nl rt cnt fst lst h (Q : ptr → state → Prop) :
  let s := mkState (mkTree nl rt cnt fst lst) h in
  ∀ C fuel x,
  rep_ctx h nl nl rt C x → length C < fuel →
  x ≠ nl → x ∉ ctxR C → nl ∉ ctxL C → nl ∉ ctxR C →
  disj (ctxL C) (ctxR C) →
  Q (hd nl (ctxR C)) s →
  wp (successor_loop fuel x (caddr nl C)) s Q.
Proof.
  intros s. subst s.
  induction C as [|[c a k r|c l a k] C IH];
    intros fuel x HC Hfuel Hx HxR HnL HnR Hd HQ;
    (destruct fuel as [|fuel]; [cbn in Hfuel; lia|]);
    cbn [successor_loop caddr faddr ctxL ctxR rep_ctx length hd] in *.
  - repeat xstep. done.
  - destruct HC as ((pv & nx & Ha) & Hr & HC).
    nd_norm HnR. nd_norm HxR.
    repeat xstep. done.
  - destruct HC as ((pv & nx & Ha) & Hl & HC).
    nd_norm HnL. repeat xstep.
    apply IH; try done.
    + lia.
    + intros Hin. eapply (Hd a); [|done]. set_solver.
    + intros y Hy. apply Hd. set_solver.
Qed.

End Succ.

Section Succ2.
Context {Item : Type}.
Implicit Types (s : @state Item) (h : gmap nat (@Rbnode Item))
  (t T : @atree Item) (tr : @Rbtree) (C : list (@frame Item)).

Lemma wp_successor nl rt cnt fst lst h fuel C c l z k r (Q : ptr → state → Prop) :
  let s := mkState (mkTree nl rt cnt fst lst) h in
  tok s (plug C (Node c l z k r)) →
  length (addrs (plug C (Node c l z k r))) < fuel →
  Q (hd nl (addrs r ++ ctxR C)) s →
  wp (successor fuel z) s Q.
Proof.
  intros s (Hrep & Hsent & Hnd & Hnin) Hfuel HQ. subst s.
  cbn [tree heap nill root] in *.
  apply trep_plug in Hrep as [HC Hr].
  assert (length C < fuel) as HlenC.
  { pose proof (length_ctx_plug C (Node c l z k r)). lia. }
  rewrite addrs_plug in Hnd, Hnin, Hfuel. cbn [addrs] in Hnd, Hnin, Hfuel.
  rewrite !length_app in Hfuel. cbn [length] in Hfuel.
  cbn [rep root_of] in Hr. destruct Hr as ((pv & nx & Hz) & Hl & Hr).
  assert (disj (ctxL C) (ctxR C)) as Hd.
  { apply NoDup_app in Hnd as (_ & Hd & _). intros x Hx Hx'.
    apply (Hd x Hx). set_solver. }
  assert (nl ∉ addrs r) as Hnr.
  { clear -Hnin. set_solver. }
  unfold successor.
  destruct r as [|cr rl r kr rr]; cbn [root_of addrs] in *;
    nd_norm Hnd; nd_norm Hnin; repeat xstep.
  - apply wp_successor_loop; done.
  - apply (wp_min nl rt cnt fst lst h fuel (Node cr rl r kr rr) z); try done.
    + clear -Hfuel. cbn [addrs length]. rewrite !length_app in *.
      cbn [length] in *. lia.
    + cbn [addrs]. destruct (addrs rl); exact HQ.
Qed.

Lemma NoDup_mid_inj (l1 l2 l1' l2' : list ptr) z :
  NoDup (l1 ++ z :: l2) → l1 ++ z :: l2 = l1' ++ z :: l2' →
  l1 = l1' ∧ l2 = l2'.
Proof.
  revert l1'. induction l1 as [|a l1 IH]; intros l1' Hnd HE.
  - destruct l1' as [|b l1']; cbn in *; [by simplify_eq|].
    simplify_eq. apply NoDup_cons in Hnd as [Hn _]. destruct Hn. set_solver.
  - destruct l1' as [|b l1']; cbn in *.
    + simplify_eq. apply NoDup_cons in Hnd as [Hn _]. destruct Hn. set_solver.
    + simplify_eq. apply NoDup_cons in Hnd as [_ Hnd].
      destruct (IH _ Hnd H0) as [-> ->]. done.
Qed.

(** The parent of a last node without a left child is its in-order
    predecessor. *)
Lemma parent_last (nl : ptr) C c z k r l1 :
  NoDup (addrs (plug C (Node c Leaf z k r))) →
  addrs (plug C (Node c Leaf z k r)) = l1 ++ [z] →
  caddr nl C = List.last l1 nl.
Proof.
  rewrite addrs_plug. cbn [addrs app]. intros Hnd HE.
  rewrite HE in Hnd. apply NoDup_mid_inj in HE as [<- HR]; [|by rewrite HE].
  apply app_eq_nil in HR as [_ HR]. clear -HR.
  destruct C as [|[c a k r|c l a k] C]; cbn in *; [done|done|].
  by rewrite !app_assoc, last_snoc'.
Qed.

Lemma dll_insert h h' l1 z l2 nl :
  dll h (l1 ++ l2) nl nl → NoDup (l1 ++ z :: l2) →
  nl ∉ l1 ++ z :: l2 →
  (∀ a, a ∈ l1 ++ l2 → a ≠ List.last l1 nl → a ≠ hd nl l2 →
        h' !! a = h !! a) →
  (∃ n, h' !! z = Some n ∧ prev n = List.last l1 nl ∧ next n = hd nl l2) →
  (l1 ≠ [] → ∃ n, h !! List.last l1 nl = Some n ∧
       h' !! List.last l1 nl = Some (set_next z n)) →
  (l2 ≠ [] → ∃ n, h !! hd nl l2 = Some n ∧
       h' !! hd nl l2 = Some (set_prev z n)) →
  dll h' (l1 ++ z :: l2) nl nl.
Proof.
  intros [H1 H2]%dll_app Hnd Hnl Hfr Hz Hl1 Hl2.
  apply NoDup_app in Hnd as (Hnd1 & Hd & [Hz' Hnd2]%NoDup_cons).
  apply dll_app. cbn [dll hd]. split_and!.
  - eapply dll_set_next; [done|done| |done].
    intros a Ha Hne. rewrite Hfr; [done|set_solver|done|].
    intros ->. destruct l2 as [|b l2]; cbn in *.
    + apply Hnl. set_solver.
    + eapply Hd; [done|]. set_solver.
  - done.
  - eapply dll_set_prev; [done|done| |done].
    intros a Ha Hne. rewrite Hfr; [done|set_solver| |done].
    intros ->. destruct (decide (l1 = [])) as [->|Hne1].
    + cbn in *. apply Hnl. set_solver.
    + eapply Hd; [by apply last_elem|]. by right.
Qed.

End Succ2.

Section ListInsert.
Context {Item : Type}.
Implicit Types (s : @state Item) (h : gmap nat (@Rbnode Item))
  (t T : @atree Item) (tr : @Rbtree) (C : list (@frame Item)).

Lemma addr_decomp T z :
  z ∈ addrs T → ∃ C c l k r, T = plug C (Node c l z k r).
Proof.
  induction T as [|c l IHl a k r IHr]; cbn [addrs]; [by intros ?%elem_of_nil|].
  rewrite elem_of_app, elem_of_cons. intros [Hz|[->|Hz]].
  - destruct (IHl Hz) as (C & c' & l' & k' & r' & ->).
    exists (C ++ [InL c a k r]), c', l', k', r'. by rewrite plug_app.
  - by exists [], c, l, k, r.
  - destruct (IHr Hz) as (C & c' & l' & k' & r' & ->).
    exists (C ++ [InR c l a k]), c', l', k', r'. by rewrite plug_app.
Qed.

Lemma noleft_plug_inv z C t : noleft z (plug C t) → noleft z t.
Proof.
  revert t. induction C as [|[c a k r|c l a k] C IH]; intros t; cbn [plug fill];
    [done|..]; intros H%IH; cbn [noleft] in H; tauto.
Qed.

(** The last part of [insert]: the list. *)
Lemma wp_list_insert nl rt cnt fst lst h fuel T l1 z l2
    (Q : ptr * bool → state → Prop) :
  let s := mkState (mkTree nl rt cnt fst lst) h in
  tok s T → addrs T = l1 ++ z :: l2 → length (addrs T) < fuel →
  dll h (l1 ++ l2) nl nl →
  (l2 = [] → noleft z T) →
  fst = hd nl (l1 ++ l2) → lst = List.last (l1 ++ l2) nl →
  (∀ s', tok s' T →
         dll (heap s') (addrs T) nl nl →
         first (tree s') = hd nl (addrs T) →
         last (tree s') = List.last (addrs T) nl →
         count (tree s') = cnt →
         nill (tree s') = nl →
         (∀ a, a ∉ addrs T → heap s' !! a = h !! a) →
         (∀ a, item <$> heap s' !! a = item <$> h !! a) →
         (∀ a, tview <$> heap s' !! a = tview <$> h !! a) →
         Q (z, true) s') →
  wp (s ← successor fuel z; store (set_next s) z;;
      zn ← load next z; nl ← tget nill;
      (if negb (zn =? nl) then
         zn ← load next z; znp ← load prev zn;
         store (set_prev znp) z;;
         zn ← load next z; store (set_prev z) zn
       else
         zp ← load parent z; store (set_prev zp) z;;
         tset (set_last z));;
      zp ← load prev z; nl ← tget nill;
      (if negb (zp =? nl) then
         zp ← load prev z; store (set_next z) zp
       else tset (set_first z));;
      ret (z, true)) s Q.
Proof.
  intros s Htok HT Hfuel Hdll Hnol -> -> HQ. subst s.
  pose proof Htok as ((Hrt & Hrep) & Hsent & Hnd & Hnl).
  cbn [tree heap nill root] in *.
  assert (z ∈ addrs T) as Hz by (rewrite HT; set_solver).
  destruct (addr_decomp _ _ Hz) as (C & c & l & k & r & ->).
  assert (ctxL C ++ addrs l = l1 ∧ addrs r ++ ctxR C = l2) as [Hl1 Hl2].
  { rewrite addrs_plug in HT, Hnd. cbn [addrs] in HT, Hnd.
    rewrite <- !app_assoc, <- app_comm_cons in HT, Hnd.
    rewrite app_assoc in HT, Hnd.
    by apply NoDup_mid_inj in HT. }
  apply wp_bind. eapply wp_successor; [exact Htok|done|].
  rewrite Hl2.
  assert (caddr nl C = List.last l1 nl ∨ l2 ≠ []) as Hpar.
  { destruct (decide (l2 = [])) as [E|]; [left|by right].
    specialize (Hnol E). apply noleft_plug_inv in Hnol as [Hnol _].
    rewrite (Hnol eq_refl) in HT, Hnd. rewrite E in HT.
    by eapply parent_last. }
  pose proof (proj1 (rep_plug _ _ _ _ _) Hrep) as [_ Hr].
  cbn [rep] in Hr. destruct Hr as ((pv & nx & Hzn) & _ & _).
  clear Hnol Hl1 Hl2.
  rewrite HT in *.
  pose proof Hdll as [H1 H2]%dll_app.
  pose proof Hnd as (Hnd1 & Hd & [Hz' Hnd2]%NoDup_cons)%NoDup_app.
  assert (z ≠ nl) as Hznl by (intros ->; apply Hnl; set_solver).
  set (a := List.last l1 nl) in *. set (b := hd nl l2) in *.
  assert (l1 = [] ∧ a = nl ∨
          l1 ≠ [] ∧ a ≠ nl ∧ a ≠ z ∧ a ∈ l1 ∧ ∃ na, h !! a = Some na) as Hca.
  { destruct (decide (l1 = [])) as [->|Hne]; [left; by subst|right].
    assert (a ∈ l1) as Hin by (by apply last_elem).
    split_and!; [done| | |done|by eapply (dll_lookup _ l1)].
    - intros E. apply Hnl. rewrite <- E. set_solver.
    - intros E. eapply Hd; [exact Hin|]. rewrite E. by left. }
  assert (l2 = [] ∧ b = nl ∨
          l2 ≠ [] ∧ b ≠ nl ∧ b ≠ z ∧ b ∈ l2 ∧
          ∃ nb, h !! b = Some nb ∧ prev nb = a) as Hcb.
  { destruct (decide (l2 = [])) as [->|Hne]; [left; by subst|right].
    assert (b ∈ l2) as Hin by (by apply hd_elem).
    split_and!; [done| | |done|].
    - intros E. apply Hnl. rewrite <- E. set_solver.
    - intros E. apply Hz'. by rewrite <- E.
    - destruct l2 as [|b' l2]; [done|]. cbn [dll hd] in *.
      destruct H2 as [(nb & ? & ? & _) _]. by exists nb. }
  assert (l1 ≠ [] → l2 ≠ [] → a ≠ b) as Hab.
  { intros Hn1 Hn2 E. destruct Hca as [[? _]|(_&_&_&Hin&_)]; [done|].
    destruct Hcb as [[? _]|(_&_&_&Hin'&_)]; [done|]. rewrite E in Hin.
    eapply Hd; [exact Hin|]. by right. }
  assert (l1 = [] → z = hd nl (l1 ++ z :: l2)) as Hf1 by (by intros ->).
  assert (l1 ≠ [] → hd nl (l1 ++ l2) = hd nl (l1 ++ z :: l2)) as Hf2
    by (by destruct l1).
  assert (l2 = [] → z = List.last (l1 ++ z :: l2) nl) as Hl1
    by (intros ->; by rewrite last_snoc').
  assert (l2 ≠ [] → List.last (l1 ++ l2) nl = List.last (l1 ++ z :: l2) nl) as Hl2.
  { intros Hne. rewrite !last_app'. destruct l2; [done|].
    by rewrite !last_cons_cons. }
  assert (∀ h', (∀ x, x ∈ l1 ++ l2 → x ≠ a → x ≠ b → h' !! x = h !! x) →
     (∃ n, h' !! z = Some n ∧ prev n = a ∧ next n = b) →
     (l1 ≠ [] → ∃ n, h !! a = Some n ∧ h' !! a = Some (set_next z n)) →
     (l2 ≠ [] → ∃ n, h !! b = Some n ∧ h' !! b = Some (set_prev z n)) →
     dll h' (l1 ++ z :: l2) nl nl) as Hfin.
  { intros h' ? ? ? ?. by eapply dll_insert. }
  assert (∀ x y : ptr, x ∉ l1 ++ z :: l2 → y ∈ l1 → x ≠ y) as Hn1
    by (intros x y Hx Hy ->; apply Hx; set_solver).
  assert (∀ x y : ptr, x ∉ l1 ++ z :: l2 → y ∈ l2 → x ≠ y) as Hn2
    by (intros x y Hx Hy ->; apply Hx; set_solver).
  assert (∀ x : ptr, x ∉ l1 ++ z :: l2 → x ≠ z) as Hn3
    by (intros x Hx ->; apply Hx; set_solver).
  assert (∀ x : ptr, x ∈ l1 ++ l2 → x ≠ z) as Hn4.
  { intros x [Hx|Hx]%elem_of_app ->; [|done]. eapply Hd; [done|by left]. }
  clearbody a b. clear H1 H2 Hdll.
  destruct Hca as [[-> ->]|(Hne1 & ? & ? & ? & [al ar ap apv anx ai ac] & Hna)];
    destruct Hcb as [[-> ->]|(Hne2 & ? & ? & ? & [bl br bp bpv bnx bi bc] & Hnb & Hpb)];
    try (specialize (Hab Hne1 Hne2));
    try (destruct Hpar as [Hpar|Hpar]; [|done]);
    try (cbn in Hpb; subst bpv);
    try rewrite Hpar in *;
    repeat xstep.
  all: apply HQ; cbn [tree heap nill count first last root].
  all: try match goal with |- tok _ _ =>
         split_and!; cbn [tree heap nill count first last root]; rewrite ?HT;
           [ split; [done|]; eapply rep_tview; [|exact Hrep];
             let a := fresh in intros a _; revert a; xtview
           | eapply sentinel_frame; [exact Hsent|];
             by rewrite ?lookup_insert_ne by done
           | done | done ] end.
  all: try match goal with |- dll _ _ _ _ =>
         apply Hfin;
           [ let x := fresh "x" in let Hx := fresh "Hx" in
             intros x Hx Hxa Hxb; pose proof (Hn4 x Hx);
             by rewrite ?lookup_insert_ne by done
           | eexists; split; [xlookup|split; reflexivity]
           | first [ intros []; reflexivity
                   | intros _; eexists; split; [eassumption|xlookup] ]
           | first [ intros []; reflexivity
                   | intros _; eexists; split; [eassumption|xlookup] ] ] end.
  all: try match goal with |- _ = hd _ _ =>
         first [ by apply Hf1 | by apply Hf2 ] end.
  all: try match goal with |- _ = List.last _ _ =>
         first [ by apply Hl1 | by apply Hl2 ] end.
  all: try reflexivity.
  all: try match goal with |- ∀ a, item <$> _ = _ => xitem end.
  all: try match goal with |- ∀ a, tview <$> _ = _ => xtview end.
  all: try match goal with |- ∀ a, a ∉ _ → _ =>
         let x := fresh "x" in let Hx := fresh "Hx" in
         intros x Hx; pose proof (Hn3 x Hx);
         repeat (rewrite lookup_insert_ne;
                 [|first [ done
                         | by apply not_eq_sym, (Hn1 x)
                         | by apply not_eq_sym, (Hn2 x) ]]);
         reflexivity end.
Qed.

End ListInsert.

Section InsertBase.
Context {Item : Type}.
Implicit Types (s : @state Item) (h : gmap nat (@Rbnode Item))
  (t T : @atree Item) (tr : @Rbtree) (C : list (@frame Item)).

Lemma noleft_notin z t : z ∉ addrs t → noleft z t.
Proof.
  induction t as [|c l IHl a k r IHr]; [done|]. cbn [addrs noleft].
  rewrite !not_elem_of_app, not_elem_of_cons. intros (? & ? & ?).
  split_and!; [congruence|by apply IHl|by apply IHr].
Qed.

Lemma noleft_plug z C t :
  noleft z t → z ∉ ctxL C → z ∉ ctxR C → noleft z (plug C t).
Proof.
  revert t. induction C as [|[c a k r|c l a k] C IH]; intros t Ht;
    cbn [plug fill ctxL ctxR]; [done|..]; intros HL HR.
  - apply IH; [|done|set_solver]. cbn [noleft]. split_and!; [|done|].
    + intros ->. set_solver.
    + apply noleft_notin. set_solver.
  - apply IH; [|set_solver|done]. cbn [noleft]. split_and!; [| |done].
    + intros ->. set_solver.
    + apply noleft_notin. set_solver.
Qed.

End InsertBase.

Section Insert.
Context {Item : Type} (Less : Item → Item → bool).
Implicit Types (s : @state Item) (h : gmap nat (@Rbnode Item))
  (t T : @atree Item) (tr : @Rbtree) (C : list (@frame Item)).

Lemma wp_insert fuel s T z kz pz pv nx (Q : ptr * bool → state → Prop) :
  let nl := nill (tree s) in
  Inv s T → length (addrs T) + 1 < fuel →
  heap s !! z = Some (mkNode nl nl pz pv nx (Some kz) RED) →
  z ∉ addrs T → z ≠ nl →
  (∀ C c l y ky r, T = plug C (Node c l y ky r) → equiv_item Less kz ky →
     Q (y, false) s) →
  (∀ s' T' C, T = plug C Leaf → ipath Less kz C → Inv s' T' →
     addrs T' = ctxL C ++ z :: ctxR C → keys T' = kctxL C ++ kz :: kctxR C →
     nill (tree s') = nl →
     (∀ a, a ∉ addrs T' → heap s' !! a = heap s !! a) →
     (∀ a, item <$> heap s' !! a = item <$> heap s !! a) →
     Q (z, true) s') →
  wp (insert Less fuel z) s Q.
Proof.
  intros nl (Htok & Hrb & Hdll & Hfirst & Hlast & Hcnt) Hfuel Hz Hzin Hznl
    HQ1 HQ2.
  destruct s as [[nl' rt cnt fst lst] h]. cbn [tree heap nill] in *.
  subst nl. rename nl' into nl.
  pose proof Htok as ((Hrt & Hrep) & Hsent & Hnd & Hnin).
  cbn [tree heap nill root count first last] in *.
  unfold insert. repeat xstep. rewrite Hrt. apply wp_bind.
  eapply (wp_insert_loop Less nl _ cnt fst lst h z _ kz T Hz eq_refl
            fuel [] nl); [done|done|lia|done| |].
  2:{ intros C c l y ky r HT He. cbn [plug] in HT. rewrite <- Hrt.
      apply wp_ret. by eapply HQ1. }
  intros C HT Hp. cbn [plug] in HT. subst T. rewrite <- Hrt.
  cbn beta iota.
  eapply (wp_link Less); [exact Htok|exact Hp|exact Hz|exact Hzin|exact Hznl|].
  intros s1 Htok1 Hnl1 Hc1 Hf1 Hl1 Hlv1 Hout1.
  set (T1 := plug C (Node RED Leaf z kz Leaf)) in *.
  assert (addrs T1 = ctxL C ++ z :: ctxR C) as HaT1
    by (subst T1; by rewrite addrs_plug).
  assert (keys T1 = kctxL C ++ kz :: kctxR C) as HkT1
    by (subst T1; by rewrite keys_plug).
  assert (addrs (plug C Leaf) = ctxL C ++ ctxR C) as HaT
    by (by rewrite addrs_plug).
  apply is_rb_plug_inv in Hrb as (n & Hrc & Hn & _). cbn [rbt] in Hn. subst n.
  pose proof Htok1 as (_ & _ & Hnd1 & Hnin1).
  apply wp_bind.
  eapply (wp_insertFixup nl s1 (addrs T1) (keys T1) z fuel s1 C Leaf z kz Leaf 0);
    [ | |done|done|done|done|exact Hrc| | |].
  { pose proof (length_ctx_plug C (@Leaf Item)). cbn [addrs length] in *. lia. }
  { split_and!; try done; apply tframe_refl. }
  { cbn. set_solver. }
  { intros _. subst T1. rewrite addrs_plug in Hnd1. cbn [addrs app] in Hnd1.
    apply NoDup_app in Hnd1 as (_ & Hd1 & [Hd2 _]%NoDup_cons).
    apply noleft_plug; [by cbn| |done].
    intros Hin. eapply Hd1; [done|]. by left. }
  intros s2 T2 (Hnl2 & Htok2 & HL2 & HK2 & Hfr) Hrb2 Hnol2.
  destruct Hfr as (_ & Hc2 & Hf2 & Hl2 & Hlv2 & Hout2).
  destruct s2 as [[nl2 rt2 cnt2 fst2 lst2] h2].
  cbn [tree heap nill root count first last] in *. subst nl2.
  eapply (wp_list_insert nl rt2 cnt2 fst2 lst2 h2 fuel T2 (ctxL C) z (ctxR C));
    [done|congruence| | | | | |].
  - rewrite HL2, HaT1. rewrite HaT in Hfuel. clear -Hfuel.
    rewrite !length_app in *. cbn [length]. lia.
  - eapply dll_frame; [|rewrite <- HaT; exact Hdll].
    intros a _. by rewrite Hlv2, Hlv1.
  - intros E. apply Hnol2. exists (ctxL C). by rewrite HaT1, E.
  - rewrite <- HaT. congruence.
  - rewrite <- HaT. congruence.
  - intros s' Htok' Hdll' Hfst' Hlst' Hcnt' Hnl' Hout' Hit' Htv'.
    apply (HQ2 s' T2 C); try done.
    + unfold Inv. rewrite Hnl'. split_and!; try done.
      rewrite Hcnt', Hc2, Hc1, Hcnt, HL2, HaT1, HaT. clear.
      rewrite !length_app. cbn [length]. lia.
    + congruence.
    + congruence.
    + intros a Ha. rewrite Hout' by done. rewrite HL2 in Ha.
      rewrite Hout2 by done. by apply Hout1.
    + intros a. rewrite Hit'. apply item_lview. by rewrite Hlv2, Hlv1.
Qed.

End Insert.

Section ApiBase.
Context {Item : Type}.
Implicit Types (s : @state Item) (h : gmap nat (@Rbnode Item))
  (t T : @atree Item) (tr : @Rbtree) (C : list (@frame Item)).

Lemma new_addr_fresh h : h !! new_addr h = None ∧ new_addr h ≠ null.
Proof.
  unfold new_addr.
  pose proof (is_fresh ({[null]} ∪ dom h)) as Hf.
  split.
  - apply not_elem_of_dom. set_solver.
  - set_solver.
Qed.

Lemma wp_bind_alloc {B} (n : @Rbnode Item) (k : ptr → M B) tr h Q :
  wp (k (new_addr h)) (mkState tr (<[new_addr h := n]> h)) Q →
  wp (bind (alloc n) k) (mkState tr h) Q.
Proof. done. Qed.

Lemma rep_lookup h nl t par a :
  rep h nl t par → a ∈ addrs t → ∃ n k, h !! a = Some n ∧ item n = Some k ∧ k ∈ keys t.
Proof.
  revert par. induction t as [|c l IHl b k r IHr]; intros par;
    cbn [rep addrs keys]; [by intros _ ?%elem_of_nil|].
  intros ((pv & nx & Hb) & Hl & Hr).
  rewrite elem_of_app, elem_of_cons. intros [Ha|[->|Ha]].
  - destruct (IHl _ Hl Ha) as (n & k' & ? & ? & ?). exists n, k'. set_solver.
  - eexists _, k. split; [done|]. set_solver.
  - destruct (IHr _ Hr Ha) as (n & k' & ? & ? & ?). exists n, k'. set_solver.
Qed.

Lemma tok_lookup s T a : tok s T → a ∈ addrs T → is_Some (heap s !! a).
Proof.
  intros ((_ & Hrep) & _) Ha.
  destruct (rep_lookup _ _ _ _ _ Hrep Ha) as (n & _ & -> & _). done.
Qed.

Lemma Valid_fresh s T :
  Valid s T →
  new_addr (heap s) ∉ addrs T ∧ new_addr (heap s) ≠ nill (tree s) ∧
  new_addr (heap s) ≠ null.
Proof.
  intros [(Htok & _) Hnull].
  destruct (new_addr_fresh (heap s)) as [Hf Hn]. split_and!; [| |done].
  - intros [n Hin]%(tok_lookup _ _ _ Htok). congruence.
  - destruct Htok as (_ & (? & ? & ? & ? & ? & Hs) & _). congruence.
Qed.

Lemma Valid_alloc s T n :
  Valid s T →
  Valid (mkState (tree s) (<[new_addr (heap s) := n]> (heap s))) T.
Proof.
  intros HV. destruct (Valid_fresh _ _ HV) as (Hz1 & Hz2 & Hz3).
  destruct HV as [(Htok & Hrb & Hdll & Hrest) Hnull].
  destruct Htok as ((Hrt & Hrep) & Hsent & Hnd).
  split; [|cbn; by rewrite lookup_insert_ne].
  unfold Inv, tok, trep. cbn [tree heap]. split_and!; try done.
  - eapply rep_frame; [done|]. intros a Ha.
    rewrite lookup_insert_ne; [done|]. by intros <-.
  - eapply sentinel_frame; [done|]. by rewrite lookup_insert_ne.
  - apply Hnd.
  - apply Hnd.
  - eapply dll_frame; [|done]. intros a Ha.
    rewrite lookup_insert_ne; [done|]. by intros <-.
  - apply Hrest.
  - apply Hrest.
  - apply Hrest.
Qed.

Lemma Valid_null s T : Valid s T → null ∉ addrs T ∧ nill (tree s) ≠ null.
Proof.
  intros [(Htok & _) Hnull]. split.
  - intros [n Hin]%(tok_lookup _ _ _ Htok). congruence.
  - destruct Htok as (_ & (? & ? & ? & ? & ? & Hs) & _). congruence.
Qed.

Lemma tok_node s C c l z k r :
  tok s (plug C (Node c l z k r)) →
  z ≠ nill (tree s) ∧
  ∃ pv nx, heap s !! z =
    Some (mkNode (root_of (nill (tree s)) l) (root_of (nill (tree s)) r)
            (caddr (nill (tree s)) C) pv nx (Some k) c).
Proof.
  intros (Hrep & _ & _ & Hnl). split.
  - intros E. apply Hnl. rewrite addrs_plug, <- E. cbn. set_solver.
  - apply trep_plug in Hrep as [_ Hr]. cbn [rep] in Hr. apply Hr.
Qed.

Lemma wp_Remove_raw fuel s C c l z kz r (Q : iface * bool → state → Prop) :
  let T := plug C (Node c l z kz r) in
  let nl := nill (tree s) in
  Valid s T → length (addrs T) < fuel →
  (∀ s' T', Valid s' T' →
     addrs T' = (ctxL C ++ addrs l) ++ addrs r ++ ctxR C →
     keys T' = (kctxL C ++ keys l) ++ keys r ++ kctxR C →
     nill (tree s') = nl →
     heap s' !! z = heap s !! z →
     (∀ a, a ∉ addrs T → a ≠ nl → heap s' !! a = heap s !! a) →
     (∀ a, item <$> heap s' !! a = item <$> heap s !! a) →
     Q (INode z, true) s') →
  wp (Remove_raw fuel z) s Q.
Proof.
  intros T nl HV Hfuel HQ.
  destruct (Valid_null _ _ HV) as [Hnull Hnlnull]. destruct HV as [HI Hn].
  assert (z ≠ null) as Hz.
  { intros ->. apply Hnull. subst T. rewrite addrs_plug. cbn. set_solver. }
  unfold Remove_raw. rewrite (proj2 (Nat.eqb_neq _ _) Hz).
  apply wp_bind. eapply wp_remove_raw; [exact HI|done|].
  intros s' T' HI' Ha Hk Hnl' Hz' Hout Hit. apply wp_ret.
  apply (HQ s' T'); try done. split; [done|].
  rewrite Hout; done.
Qed.

End ApiBase.

Section Api.
Context {Item : Type} (Less : Item → Item → bool).
Implicit Types (s : @state Item) (h : gmap nat (@Rbnode Item))
  (t T : @atree Item) (tr : @Rbtree) (C : list (@frame Item)).

Lemma wp_Insert fuel s T x (Q : ptr * bool → state → Prop) :
  let nl := nill (tree s) in
  let z := new_addr (heap s) in
  let s0 := mkState (tree s) (<[z := mkNode nl nl nl nl nl (Some x) RED]> (heap s)) in
  Valid s T → length (addrs T) + 1 < fuel →
  (∀ C c l y ky r, T = plug C (Node c l y ky r) → equiv_item Less x ky →
     Q (y, false) s0) →
  (∀ s' T' C, T = plug C Leaf → ipath Less x C → Valid s' T' →
     addrs T' = ctxL C ++ z :: ctxR C → keys T' = kctxL C ++ x :: kctxR C →
     nill (tree s') = nl →
     (∀ a, a ∉ addrs T' → heap s' !! a = heap s0 !! a) →
     (∀ a, item <$> heap s' !! a = item <$> heap s0 !! a) →
     Q (z, true) s') →
  wp (Insert Less fuel (Some x)) s Q.
Proof.
  intros nl z s0 HV Hfuel HQ1 HQ2.
  destruct (Valid_fresh _ _ HV) as (Hz1 & Hz2 & Hz3).
  pose proof (Valid_alloc _ _ (mkNode nl nl nl nl nl (Some x) RED) HV) as [HI0 Hn0].
  fold z in HI0, Hn0, Hz1, Hz2, Hz3. fold s0 in HI0, Hn0.
  destruct s as [tr h]. unfold Insert. xstep. apply wp_bind_alloc.
  cbn [tree heap] in *. fold nl z s0.
  eapply (wp_insert Less fuel s0 T z x); [done|done| |done|done|done|].
  - subst s0. cbn. by rewrite lookup_insert_eq.
  - intros s' T' C HT Hp HI' Ha Hk Hnl Hout Hit.
    eapply HQ2; try done. split; [done|].
    rewrite Hout; [done|]. rewrite Ha.
    destruct (Valid_null _ _ (conj HI0 Hn0)) as [Hnull _].
    rewrite HT, addrs_plug in Hnull. cbn [addrs app] in Hnull.
    clear -Hnull Hz3. set_solver.
Qed.

Lemma wp_search fuel s T x xn kx (Q : ptr → state → Prop) :
  tok s T → length (addrs T) < fuel →
  heap s !! x = Some xn → item xn = Some kx →
  (∀ C, T = plug C Leaf → path Less kx C → Q (nill (tree s)) s) →
  (∀ C c l y ky r, T = plug C (Node c l y ky r) → equiv_item Less kx ky →
     Q y s) →
  wp (search Less fuel x) s Q.
Proof.
  intros ((Hrt & Hrep) & _ & _ & Hnl) Hfuel Hx Hxi HQ1 HQ2.
  destruct s as [[nl rt cnt fst lst] h]. cbn [tree heap nill root] in *.
  unfold search. xstep. rewrite Hrt.
  eapply (wp_search_loop Less nl _ cnt fst lst h x xn kx T Hx Hxi fuel [] nl);
    [done|done|done|done| |].
  - intros C HT Hp. rewrite <- Hrt. by apply (HQ1 C).
  - intros C c l y ky r HT He. rewrite <- Hrt. by apply (HQ2 C c l y ky r).
Qed.

Lemma wp_Remove fuel s T x (Q : iface * bool → state → Prop) :
  let nl := nill (tree s) in
  let key := new_addr (heap s) in
  let s0 := mkState (tree s)
              (<[key := mkNode nl nl nl nl nl (Some x) RED]> (heap s)) in
  Valid s T → length (addrs T) < fuel →
  (∀ C, T = plug C Leaf → path Less x C → Q (INil, false) s0) →
  (∀ s' T' C c l z kz r, T = plug C (Node c l z kz r) →
     equiv_item Less x kz → Valid s' T' →
     addrs T' = (ctxL C ++ addrs l) ++ addrs r ++ ctxR C →
     keys T' = (kctxL C ++ keys l) ++ keys r ++ kctxR C →
     nill (tree s') = nl →
     heap s' !! z = heap s !! z →
     (∀ a, a ∉ addrs T → a ≠ nl → heap s' !! a = heap s0 !! a) →
     (∀ a, item <$> heap s' !! a = item <$> heap s0 !! a) →
     Q (IItem kz, true) s') →
  wp (Remove Less fuel (Some x)) s Q.
Proof.
  intros nl key s0 HV Hfuel HQ1 HQ2.
  destruct (Valid_fresh _ _ HV) as (Hz1 & Hz2 & Hz3).
  pose proof (Valid_alloc _ _ (mkNode nl nl nl nl nl (Some x) RED) HV) as HV0.
  fold key in HV0, Hz1, Hz2, Hz3. fold s0 in HV0.
  destruct s as [tr h]. unfold Remove. xstep. apply wp_bind_alloc.
  cbn [tree heap] in *. fold nl key s0.
  apply wp_bind. unfold remove. apply wp_bind.
  eapply (wp_search fuel s0 T key (mkNode nl nl nl nl nl (Some x) RED) x);
    [apply HV0|done| |done| |].
  { subst s0. cbn. by rewrite lookup_insert_eq. }
  - intros C HT Hp. subst s0. repeat xstep. by apply (HQ1 C).
  - intros C c l y ky r HT He.
    pose proof HV0 as [[Htok0 _] _]. rewrite HT in Htok0.
    destruct (tok_node _ _ _ _ _ _ _ Htok0) as (Hynl & pv & nx & Hy).
    assert (y ≠ key) as Hyk.
    { intros ->. apply Hz1. rewrite HT, addrs_plug. cbn. set_solver. }
    subst s0. cbn [tree heap nill] in *. fold nl in Hynl, Hy |- *.
    repeat xstep.
    rewrite HT in HV0, Hfuel.
    destruct HV0 as [HI0 Hn0].
    eapply wp_remove_raw; [exact HI0|done|].
    intros s' T' HI' Ha Hk Hnl' Hz' Hout Hit. cbn [tree heap nill] in *.
    destruct s' as [tr' h']. cbn [tree heap] in *.
    eapply wp_bind_load; [by rewrite Hz'|]. cbn [item iface_of].
    apply wp_ret. eapply (HQ2 _ T'); try done.
    + split; [done|]. cbn. rewrite Hout; [done| |].
      * destruct (Valid_null _ _ (conj HI0 Hn0)) as [Hnull _]. done.
      * destruct (Valid_null _ _ (conj HI0 Hn0)) as [_ Hnull]. done.
    + cbn. rewrite Hz'. by rewrite lookup_insert_ne.
    + rewrite HT. done.
Qed.

Lemma wp_Get fuel s T x (Q : ptr → state → Prop) :
  let nl := nill (tree s) in
  let key := new_addr (heap s) in
  let s0 := mkState (tree s)
              (<[key := mkNode nl nl nl nl nl (Some x) RED]> (heap s)) in
  Valid s T → length (addrs T) < fuel →
  (∀ C, T = plug C Leaf → path Less x C → Q null s0) →
  (∀ C c l z kz r, T = plug C (Node c l z kz r) → equiv_item Less x kz →
     Q z s0) →
  wp (Get Less fuel (Some x)) s Q.
Proof.
  intros nl key s0 HV Hfuel HQ1 HQ2.
  pose proof (Valid_alloc _ _ (mkNode nl nl nl nl nl (Some x) RED) HV) as HV0.
  fold key in HV0. fold s0 in HV0.
  destruct s as [tr h]. unfold Get. xstep. apply wp_bind_alloc.
  cbn [tree heap] in *. fold nl key s0.
  apply wp_bind.
  eapply (wp_search fuel s0 T key (mkNode nl nl nl nl nl (Some x) RED) x);
    [apply HV0|done| |done| |].
  { subst s0. cbn. by rewrite lookup_insert_eq. }
  - intros C HT Hp. subst s0. repeat xstep. by apply (HQ1 C).
  - intros C c l y ky r HT He.
    pose proof HV0 as [[Htok0 _] _]. rewrite HT in Htok0.
    destruct (tok_node _ _ _ _ _ _ _ Htok0) as (Hynl & _).
    subst s0. cbn [tree heap nill] in *. fold nl in Hynl |- *.
    repeat xstep. by eapply HQ2.
Qed.

End Api.

Section OrderBase.
Context {Item : Type}.
Implicit Types (s : @state Item) (h : gmap nat (@Rbnode Item))
  (t T : @atree Item) (tr : @Rbtree) (C : list (@frame Item)).

Lemma key_in_plug C c l z kz r : kz ∈ keys (plug C (Node c l z kz r)).
Proof. rewrite keys_plug. cbn. set_solver. Qed.

Lemma addr_in_plug C c l z kz r : z ∈ addrs (plug C (Node c l z kz r)).
Proof. rewrite addrs_plug. cbn. set_solver. Qed.

Lemma length_keys t : length (keys t) = length (addrs t).
Proof.
  induction t as [|c l IHl a k r IHr]; [done|]. cbn.
  rewrite !length_app. cbn. by rewrite IHl, IHr.
Qed.

Lemma length_kctxL C : length (kctxL C) = length (ctxL C).
Proof.
  induction C as [|[c a k r|c l a k] C IH]; cbn; [done|done|].
  rewrite !length_app. cbn. by rewrite IH, length_keys.
Qed.

End OrderBase.

Section Order.
Context {Item : Type} (Less : Item → Item → bool).
Implicit Types (s : @state Item) (h : gmap nat (@Rbnode Item))
  (t T : @atree Item) (tr : @Rbtree) (C : list (@frame Item)).

Lemma equiv_item_sym x y : equiv_item Less x y → equiv_item Less y x.
Proof. intros [? ?]. by split. Qed.

Lemma ss_app (l1 l2 : list Item) :
  StronglySorted (lt Less) (l1 ++ l2) ↔
  (∀ x y, x ∈ l1 → y ∈ l2 → Less x y = true) ∧
  StronglySorted (lt Less) l1 ∧ StronglySorted (lt Less) l2.
Proof. apply StronglySorted_app. Qed.

Lemma ss_cons (x : Item) l :
  StronglySorted (lt Less) (x :: l) ↔
  (∀ y, y ∈ l → Less x y = true) ∧ StronglySorted (lt Less) l.
Proof. rewrite StronglySorted_cons, Forall_forall. done. Qed.

(** The keys around the hole of a descent are on the right side of the
    item looked for. *)

Lemma path_bounds x C : ltrans Less → path Less x C → ∀ t,
  bst Less (plug C t) →
  (∀ k, k ∈ kctxL C → Less k x = true) ∧
  (∀ k, k ∈ kctxR C → Less x k = true).
Proof.
  intros Htr. induction C as [|[c a k r|c l a k] C IH]; cbn [path kctxL kctxR plug fill].
  - intros _ t _. split; intros k ?%elem_of_nil; done.
  - intros [Hx Hp] t Hb. destruct (IH Hp _ Hb) as [HL HR].
    split; [done|]. intros k'. rewrite elem_of_cons, elem_of_app.
    intros [->|[Hk|Hk]]; [done| |by apply HR].
    unfold bst in Hb. rewrite keys_plug in Hb. cbn [keys] in Hb.
    apply ss_app in Hb as (_ & _ & Hb). apply ss_app in Hb as (_ & Hb & _).
    apply ss_app in Hb as (_ & _ & Hb). apply ss_cons in Hb as [Hb _].
    eapply Htr; [done|]. by apply Hb.
  - intros [Hx Hp] t Hb. destruct (IH Hp _ Hb) as [HL HR].
    split; [|done]. intros k'. rewrite !elem_of_app, list_elem_of_singleton.
    intros [Hk|[Hk| ->]]; [by apply HL| |done].
    unfold bst in Hb. rewrite keys_plug in Hb. cbn [keys] in Hb.
    apply ss_app in Hb as (_ & _ & Hb). apply ss_app in Hb as (_ & Hb & _).
    apply ss_app in Hb as (Hb & _ & _).
    eapply Htr; [|done]. apply Hb; [done|]. set_solver.
Qed.

Lemma bst_insert x C :
  ltrans Less → ipath Less x C → bst Less (plug C Leaf) →
  StronglySorted (lt Less) (kctxL C ++ x :: kctxR C).
Proof.
  intros Htr Hp%ipath_path Hb.
  destruct (path_bounds x C Htr Hp _ Hb) as [HL HR].
  unfold bst in Hb. rewrite keys_plug in Hb. cbn [keys app] in Hb.
  apply ss_app in Hb as (H1 & H2 & H3).
  apply ss_app. split_and!; [|done|].
  - intros a b Ha [->|Hb]%elem_of_cons; [by apply HL|by apply H1].
  - apply ss_cons. by split.
Qed.

Lemma bst_remove (l1 l2 : list Item) k :
  StronglySorted (lt Less) (l1 ++ k :: l2) → StronglySorted (lt Less) (l1 ++ l2).
Proof.
  intros (H1 & H2 & H3)%ss_app. apply ss_cons in H3 as [_ H3].
  apply ss_app. split_and!; [|done|done].
  intros a b Ha Hb. apply H1; [done|]. by right.
Qed.

(** A descent that falls off the tree: nothing equal is stored. *)

Lemma path_absent x C y :
  ltrans Less → path Less x C → bst Less (plug C Leaf) →
  y ∈ keys (plug C Leaf) → equiv_item Less x y → False.
Proof.
  intros Htr Hp Hb Hy [He1 He2].
  destruct (path_bounds x C Htr Hp _ Hb) as [HL HR].
  rewrite keys_plug in Hy. cbn [keys app] in Hy.
  apply elem_of_app in Hy as [Hy|Hy].
  - apply HL in Hy. congruence.
  - apply HR in Hy. congruence.
Qed.

(** Two stored items equal to the same item are the same item. *)

Lemma bst_equiv_unique C c l z kz r x y :
  lequiv_trans Less → bst Less (plug C (Node c l z kz r)) →
  equiv_item Less x kz → equiv_item Less x y →
  y ∈ keys (plug C (Node c l z kz r)) → y = kz.
Proof.
  intros Hsw Hb He1 He2 Hy.
  assert (equiv_item Less y kz) as [E1 E2].
  { eapply Hsw; [|done]. by apply equiv_item_sym. }
  unfold bst in Hb. rewrite keys_plug in Hb, Hy. cbn [keys] in Hb, Hy.
  apply ss_app in Hb as (A & _ & (B1 & (D1 & _ & [D2 _]%ss_cons)%ss_app & _)%ss_app).
  rewrite !elem_of_app, elem_of_cons in Hy.
  destruct Hy as [Hy|[[Hy|[->|Hy]]|Hy]]; [| |done| |].
  - rewrite (A y kz) in E1; [done|done|set_solver].
  - rewrite (D1 y kz) in E1; [done|done|set_solver].
  - rewrite (D2 y) in E2; done.
  - rewrite (B1 kz y) in E2; [done|set_solver|done].
Qed.

(** Distinct positions of a sorted sequence hold items that are not
    equal. *)

Lemma bst_no_equal T l1 x l2 y l3 :
  bst Less T → keys T = l1 ++ x :: l2 ++ y :: l3 → ¬ equiv_item Less x y.
Proof.
  unfold bst. intros Hb HE [E _]. rewrite HE in Hb.
  apply ss_app in Hb as (_ & _ & [Hb _]%ss_cons).
  rewrite Hb in E; [done|]. set_solver.
Qed.

End Order.

Section PubBase.
Context {Item : Type}.
Implicit Types (s : @state Item) (h : gmap nat (@Rbnode Item))
  (t T : @atree Item) (tr : @Rbtree) (C : list (@frame Item)).

Lemma build_rep h nl t par :
  rep h nl t par → nl ∉ addrs t →
  ∀ fuel t', build fuel h nl (root_of nl t) = Some t' → t' = t.
Proof.
  revert par. induction t as [|c l IHl a k r IHr]; intros par Hrep Hnl fuel t'.
  - destruct fuel as [|fuel]; [done|]. cbn. rewrite Nat.eqb_refl. congruence.
  - destruct fuel as [|fuel]; [done|]. cbn [build root_of].
    cbn [rep addrs] in *. destruct Hrep as ((pv & nx & Ha) & Hl & Hr).
    assert (a ≠ nl ∧ nl ∉ addrs l ∧ nl ∉ addrs r) as (Hna & Hnl1 & Hnl2).
    { clear -Hnl. set_solver. }
    rewrite (proj2 (Nat.eqb_neq _ _) Hna), Ha. cbn [item left right color].
    destruct (build fuel h nl (root_of nl l)) as [l'|] eqn:El; [|done].
    destruct (build fuel h nl (root_of nl r)) as [r'|] eqn:Er; [|done].
    intros [= <-]. f_equal; [by eapply IHl|by eapply IHr].
Qed.

Lemma tok_build s T fuel T' :
  tok s T → build fuel (heap s) (nill (tree s)) (root (tree s)) = Some T' →
  T = T'.
Proof.
  intros ((-> & Hrep) & _ & _ & Hnl) Hb. symmetry. by eapply build_rep.
Qed.

Lemma Valid_New : Valid (@NewRbtree Item) Leaf.
Proof.
  unfold Valid, Inv, tok, trep, sentinel, is_rb, NewRbtree.
  cbn [tree heap nill root count first last addrs rep root_of dll rcolor hd
       List.last length].
  destruct (new_addr_fresh (∅ : gmap nat (@Rbnode Item))) as [_ Hn].
  split_and!; try done;
    first [ eexists _, _, _, _, _; apply lookup_singleton_eq
          | apply NoDup_nil_2
          | apply not_elem_of_nil
          | by exists 0
          | by rewrite lookup_singleton_ne ].
Qed.

Lemma Valid_rb_balance s T : Valid s T → rb_balance s.
Proof. intros [(? & ? & _) _]. by exists T. Qed.


Lemma Remove_raw_Valid fuel s T z :
  Valid s T → length (addrs T) + 1 < fuel →
  z = null ∨ z ∈ addrs T →
  wp (Remove_raw fuel z) s (λ _ s', ∃ T', Valid s' T').
Proof.
  intros HV Hfuel [->|Hz]; [by exists T|].
  destruct (addr_decomp _ _ Hz) as (C & c & l & k & r & ->).
  eapply (wp_Remove_raw fuel s C c l z k r); [done|lia|].
  intros s' T' HV' _ _ _ _ _ _. by exists T'.
Qed.

End PubBase.

Section Pub.
Context {Item : Type} (Less : Item → Item → bool).
Implicit Types (s : @state Item) (h : gmap nat (@Rbnode Item))
  (t T : @atree Item) (tr : @Rbtree) (C : list (@frame Item)).

(** Reading the tree back gives the tree that the store holds. *)

(** The four public operations keep the invariant, on a node that is
    stored where the operation takes a node. *)

Lemma Insert_Valid fuel s T it :
  Valid s T → length (addrs T) + 1 < fuel →
  wp (Insert Less fuel it) s (λ _ s', ∃ T', Valid s' T').
Proof.
  intros HV Hfuel. destruct it as [x|]; [|by exists T].
  eapply (wp_Insert Less fuel s T x); [done|done| |].
  - intros. exists T. by apply Valid_alloc.
  - intros s' T' C _ _ HV' _ _ _ _ _. by exists T'.
Qed.

Lemma Remove_Valid fuel s T it :
  Valid s T → length (addrs T) + 1 < fuel →
  wp (Remove Less fuel it) s (λ _ s', ∃ T', Valid s' T').
Proof.
  intros HV Hfuel. destruct it as [x|]; [|by exists T].
  eapply (wp_Remove Less fuel s T x); [done|lia| |].
  - intros. exists T. by apply Valid_alloc.
  - intros s' T' C c l z kz r _ _ HV' _ _ _ _ _ _. by exists T'.
Qed.

Lemma Get_Valid fuel s T it :
  Valid s T → length (addrs T) + 1 < fuel →
  wp (Get Less fuel it) s (λ _ s', ∃ T', Valid s' T').
Proof.
  intros HV Hfuel. destruct it as [x|]; [|by exists T].
  eapply (wp_Get Less fuel s T x); [done|lia| |].
  - intros. exists T. by apply Valid_alloc.
  - intros. exists T. by apply Valid_alloc.
Qed.

End Pub.

Section ClaimsBase.
Context {Item : Type}.
Implicit Types (s : @state Item) (h : gmap nat (@Rbnode Item))
  (t T : @atree Item) (tr : @Rbtree) (C : list (@frame Item)).

Lemma wp_eq {A} (m : M A) s (a : A) s0 :
  wp m s (λ r s', r = a ∧ s' = s0) → m s = Ok a s0.
Proof. unfold wp. destruct (m s) as [r s'| |]; [|done..]. by intros [-> ->]. Qed.

Lemma plug_not_leaf C c l a k r : plug C (Node c l a k r) ≠ Leaf.
Proof.
  intros E. pose proof (addr_in_plug C c l a k r) as Hin.
  rewrite E in Hin. by apply elem_of_nil in Hin.
Qed.

End ClaimsBase.

Section Claims.
Context {Item : Type} (Less : Item → Item → bool).
Implicit Types (s : @state Item) (h : gmap nat (@Rbnode Item))
  (t T : @atree Item) (tr : @Rbtree) (C : list (@frame Item)).

(** C1 (amended).  A new container is valid, and on a valid container
    each of Insert, Remove, Get, and Remove_raw of nil or of a node that
    is stored in the tree, returns and leaves a valid container whose
    tree is red-black balanced: the sentinel is black, the root is
    black, a red node has black children and all paths from the root to
    a leaf have the same number of black nodes. *)
Theorem C1_balance_kept fuel s T :
  Valid s T → length (addrs T) + 1 < fuel →
  Valid (@NewRbtree Item) Leaf ∧
  (∀ it, wp (Insert Less fuel it) s
           (λ _ s', (∃ T', Valid s' T') ∧ rb_balance s')) ∧
  (∀ it, wp (Remove Less fuel it) s
           (λ _ s', (∃ T', Valid s' T') ∧ rb_balance s')) ∧
  (∀ z, z = null ∨ z ∈ addrs T →
        wp (Remove_raw fuel z) s
           (λ _ s', (∃ T', Valid s' T') ∧ rb_balance s')) ∧
  (∀ it, wp (Get Less fuel it) s
           (λ _ s', (∃ T', Valid s' T') ∧ rb_balance s')).
Proof.
  intros HV Hfuel.
  assert (∀ s', (∃ T', Valid s' T') →
            (∃ T', Valid s' T') ∧ rb_balance s') as Hpost.
  { intros s' [T' HV']. split; [by exists T'|by eapply Valid_rb_balance]. }
  split_and!; [apply Valid_New|..].
  - intros it. eapply wp_mono; [by eapply Insert_Valid|]. intros a s'. apply Hpost.
  - intros it. eapply wp_mono; [by eapply Remove_Valid|]. intros a s'. apply Hpost.
  - intros z Hz. eapply wp_mono; [by eapply Remove_raw_Valid|].
    intros a s'. apply Hpost.
  - intros it. eapply wp_mono; [by eapply Get_Valid|]. intros a s'. apply Hpost.
Qed.


(** C3.  Removing a node [z] with two children: the first part of
    remove_raw returns; [y], the leftmost node of the right subtree (the
    in-order successor of [z]), is linked at the place of [z] with the
    colour, the left subtree and the parent of [z] and with its own item,
    while the record of [z] is not written; the value of yOriginalColor
    is the colour [y] had, and it alone decides whether remove_raw goes
    on with deleteFixup. *)
Theorem C3_successor_relocated fuel s C cz L z kz R :
  tok s (plug C (Node cz L z kz R)) → L ≠ Leaf → R ≠ Leaf →
  length (addrs R) ≤ fuel →
  let rest : M (ptr * bool) :=
    (c ← tget count; tset (set_count (c - 1));;
     zn ← load next z; nl ← tget nill;
     (if negb (zn =? nl) then
        zn ← load next z; zp ← load prev z; store (set_prev zp) zn
      else
        zp ← load prev z; tset (set_last zp));;
     zp ← load prev z; nl ← tget nill;
     (if negb (zp =? nl) then
        zp ← load prev z; zn ← load next z; store (set_next zn) zp
      else
        zn ← load next z; tset (set_first zn));;
     ret (z, true)) in
  ∃ s1 Cy cy y ky Ry,
    R = plug Cy (Node cy Leaf y ky Ry) ∧ all_left Cy ∧
    hd y (addrs R) = y ∧
    remove_raw_unlink fuel z s = Ok (root_of (nill (tree s)) Ry, cy) s1 ∧
    tok s1 (plug C (Node cz L y ky (plug Cy Ry))) ∧
    heap s1 !! z = heap s !! z ∧
    remove_raw fuel z s =
      (if cy then bind (deleteFixup fuel (root_of (nill (tree s)) Ry)) (λ _, rest)
       else rest) s1.
Proof.
  intros Htok HL HR Hfuel rest.
  pose proof (wp_remove_raw_unlink fuel s C cz L z kz R
                (λ res s', unlink_post s C cz L R res s') Htok Hfuel) as Hwp.
  apply wp_ok in Hwp as ([x c] & s1 & Hrun & Hpost); [|done].
  destruct Hpost as (Cx & tx & Hsh & Hx & Htok1 & _ & _ & _ & _ & _ & Hout & _).
  cbn [fst snd] in *.
  pose proof Htok as (_ & _ & Hnd & Hnl).
  destruct (unlink_nodup (nill (tree s)) _ _ _ _ _ _ _ _ _ Hsh Hnd Hnl)
    as (_ & _ & HzT1).
  destruct Hsh as [(-> & _)|[(_ & -> & _)|
      (_ & Cy & cy & y & ky & Ry & -> & Hal & -> & -> & ->)]]; [done|done|].
  exists s1, Cy, cy, y, ky, Ry. split_and!.
  - done.
  - done.
  - rewrite addrs_plug. destruct (all_left_ctxL _ Hal) as [-> _]. done.
  - by rewrite Hrun, Hx.
  - rewrite plug_app in Htok1. exact Htok1.
  - apply Hout; [done|]. intros E. apply Hnl. rewrite <- E. apply addr_in_plug.
  - unfold remove_raw, bind at 1. rewrite Hrun, Hx. by destruct cy.
Qed.

(** Remove_raw on a stored node.  For a node [z] that is stored in
    the tree, Remove_raw(z) returns with ok = true; its first result
    is the value that remove_raw returns (the node [z]) converted to
    the interface type, while the item [kz] stays in the Item field of
    [z]; the container is valid again, with [z] and its item taken out
    of the in-order sequence and count one less.  Remove_raw(nil)
    returns (nil, false) and changes nothing.  Remove, once its search
    has found [z], runs the same remove_raw. *)
Theorem Remove_raw_stored fuel s C c l z kz r :
  let T := plug C (Node c l z kz r) in
  Valid s T → length (addrs T) + 1 < fuel →
  wp (Remove_raw fuel z) s (λ res s',
    res = (INode z, true) ∧
    item <$> heap s' !! z = Some (Some kz) ∧
    count (tree s') = (count (tree s) - 1)%Z ∧
    ∃ T', Valid s' T' ∧
      addrs T' = (ctxL C ++ addrs l) ++ addrs r ++ ctxR C ∧
      keys T' = (kctxL C ++ keys l) ++ keys r ++ kctxR C) ∧
  (∀ s0 : @state Item, Remove_raw fuel null s0 = Ok (INil, false) s0) ∧
  (∀ key s0 s1, search Less fuel key s0 = Ok z s1 → z ≠ nill (tree s1) →
     remove Less fuel key s0 = remove_raw fuel z s1).
Proof.
  intros T HV Hfuel. subst T. split_and!.
  - eapply (wp_Remove_raw fuel s C c l z kz r); [done|lia|].
    intros s' T' HV' Ha Hk Hnl Hz Hout Hit.
    destruct HV as [HI Hn]. pose proof HI as (Htok & _ & _ & _ & _ & Hcnt).
    destruct (tok_node _ _ _ _ _ _ _ Htok) as (_ & pv & nx & Hzn).
    split_and!; [done|by rewrite Hz, Hzn| |by exists T'].
    destruct HV' as [(_ & _ & _ & _ & _ & Hcnt') _].
    rewrite Hcnt', Hcnt, Ha. rewrite addrs_plug. cbn [addrs].
    rewrite !length_app. cbn [length]. lia.
  - done.
  - intros key s0 s1 Hs Hz. unfold remove, bind. rewrite Hs. cbn.
    by rewrite (proj2 (Nat.eqb_neq _ _) Hz).
Qed.

(** C10.  A successful removal does not write the removed node: after
    Remove_raw of a stored node [z], and after a Remove that found its
    item at a node [z], the record of [z] in the store is what it was
    (left, right, parent, colour, prev, next and item), so that Next
    and Prev on [z] return its former in-order neighbours, which are
    nodes of the container that is left, or the sentinel where [z] was
    the last or the first node. *)
Theorem C10_removed_node_untouched fuel s T :
  let nl := nill (tree s) in
  let removed := λ (z : ptr) (s' : @state Item),
    ∃ l1 l2, addrs T = l1 ++ z :: l2 ∧
      heap s' !! z = heap s !! z ∧
      Next z s' = Ok (hd nl l2) s' ∧ Prev z s' = Ok (List.last l1 nl) s' ∧
      ∃ T', Valid s' T' ∧ addrs T' = l1 ++ l2 ∧
        (hd nl l2 = nl ∨ hd nl l2 ∈ addrs T') ∧
        (List.last l1 nl = nl ∨ List.last l1 nl ∈ addrs T') in
  Valid s T → length (addrs T) + 1 < fuel →
  (∀ z, z ∈ addrs T → wp (Remove_raw fuel z) s (λ _ s', removed z s')) ∧
  (∀ x, wp (Remove Less fuel (Some x)) s
          (λ res s', snd res = true → ∃ z, z ∈ addrs T ∧ removed z s')).
Proof.
  intros nl removed HV Hfuel.
  assert (∀ C c l z kz r s' T', T = plug C (Node c l z kz r) →
            Valid s' T' →
            addrs T' = (ctxL C ++ addrs l) ++ addrs r ++ ctxR C →
            heap s' !! z = heap s !! z → removed z s') as Hpost.
  { intros C c l z kz r s' T' HT HV' Ha Hz.
    pose proof HV as [HI Hn]. pose proof HI as (Htok & _ & Hdll & _).
    rewrite HT in Htok, Hdll.
    destruct (tok_node _ _ _ _ _ _ _ Htok) as (Hznl & pv & nx & Hzn).
    fold nl in Hzn, Hdll.
    set (l1 := ctxL C ++ addrs l) in *. set (l2 := addrs r ++ ctxR C) in *.
    assert (addrs T = l1 ++ z :: l2) as HaT.
    { subst l1 l2. rewrite HT, addrs_plug. cbn [addrs]. by rewrite <- !app_assoc. }
    rewrite <- HT, HaT in Hdll.
    assert (pv = List.last l1 nl ∧ nx = hd nl l2) as [-> ->].
    { apply dll_app in Hdll as [_ Hd].
      cbn [dll] in Hd. destruct Hd as [(n & Hn' & Hp & Hx) _].
      rewrite Hzn in Hn'. injection Hn' as <-. done. }
    exists l1, l2. split_and!; [done|done| | |].
    - unfold Next, load. by rewrite Hz, Hzn.
    - unfold Prev, load. by rewrite Hz, Hzn.
    - exists T'. split_and!; [done|done| |]; rewrite Ha.
      + destruct l2 as [|b l2']; [by left|right]. cbn. set_solver.
      + destruct (decide (l1 = [])) as [E|E]; [left; by rewrite E|right].
        apply elem_of_app. left. by apply last_elem. }
  split.
  - intros z Hz. destruct (addr_decomp _ _ Hz) as (C & c & l & k & r & HT).
    rewrite HT in HV, Hfuel.
    eapply (wp_Remove_raw fuel s C c l z k r); [done|lia|].
    intros s' T' HV' Ha Hk Hnl Hz' Hout Hit. by eapply Hpost.
  - intros x. eapply (wp_Remove Less fuel s T x); [done|lia| |].
    + intros C' HT Hp. done.
    + intros s' T' C c l z kz r HT He HV' Ha Hk Hnl Hz' Hout Hit _.
      exists z. split; [rewrite HT; apply addr_in_plug|]. by eapply Hpost.
Qed.

(** C7.  Absence is the sentinel node, which holds no item, or nil.
    On an empty container Remove of any item returns (nil, false) and
    First and Last return the sentinel; on any valid container Next on
    the last node and Prev on the first node return the sentinel. *)
Theorem C7_absence fuel s T :
  Valid s T → 0 < fuel →
  let nl := nill (tree s) in
  (∃ l r p pv nx, heap s !! nl = Some (mkNode l r p pv nx None BLACK)) ∧
  (T = Leaf →
     (∀ it, wp (Remove Less fuel it) s (λ res _, res = (INil, false))) ∧
     First s = Ok nl s ∧ Last s = Ok nl s) ∧
  (∀ l z, addrs T = l ++ [z] → Next z s = Ok nl s) ∧
  (∀ z l, addrs T = z :: l → Prev z s = Ok nl s).
Proof.
  intros HV Hfuel nl. pose proof HV as [(Htok & _ & Hdll & Hf & Hl & _) _].
  fold nl in Hdll, Hf, Hl. split_and!.
  - apply Htok.
  - intros ->. cbn [addrs hd List.last] in *. split_and!.
    + intros [x|]; [|done].
      eapply (wp_Remove Less fuel s Leaf x); [done|done|done|].
      intros s' T' C c l z kz r HT. symmetry in HT. by apply plug_not_leaf in HT.
    + unfold First, tget. by rewrite Hf.
    + unfold Last, tget. by rewrite Hl.
  - intros l z HT. rewrite HT in Hdll. apply dll_app in Hdll as [_ Hd].
    cbn [dll hd] in Hd. destruct Hd as [(n & Hn & _ & Hx) _].
    unfold Next, load. by rewrite Hn, Hx.
  - intros z l HT. rewrite HT in Hdll.
    cbn [dll] in Hdll. destruct Hdll as [(n & Hn & Hp & _) _].
    unfold Prev, load. by rewrite Hn, Hp.
Qed.


Lemma Insert_bst fuel s T it :
  ltrans Less → Valid s T → bst Less T → length (addrs T) + 1 < fuel →
  wp (Insert Less fuel it) s (λ _ s', ∃ T', Valid s' T' ∧ bst Less T').
Proof.
  intros Htr HV Hb Hfuel. destruct it as [x|]; [|by exists T].
  eapply (wp_Insert Less fuel s T x); [done|done| |].
  - intros. exists T. split; [by apply Valid_alloc|done].
  - intros s' T' C HT Hp HV' _ Hk _ _ _. exists T'. split; [done|].
    unfold bst. rewrite Hk. apply bst_insert; [done|done|by rewrite <- HT].
Qed.

Lemma Remove_bst fuel s T it :
  Valid s T → bst Less T → length (addrs T) + 1 < fuel →
  wp (Remove Less fuel it) s (λ _ s', ∃ T', Valid s' T' ∧ bst Less T').
Proof.
  intros HV Hb Hfuel. destruct it as [x|]; [|by exists T].
  eapply (wp_Remove Less fuel s T x); [done|lia| |].
  - intros. exists T. split; [by apply Valid_alloc|done].
  - intros s' T' C c l z kz r HT He HV' _ Hk _ _ _ _. exists T'.
    split; [done|]. unfold bst in *. rewrite Hk.
    rewrite HT, keys_plug in Hb. cbn [keys] in Hb.
    rewrite <- !app_assoc, <- app_comm_cons in Hb. rewrite app_assoc in Hb.
    by apply bst_remove in Hb.
Qed.

(** C6.  With a transitive Less for which being equal is transitive,
    on a valid, ordered container that stores [y]: Insert of an item
    [x] equal to [y] returns the node that holds [y] and false; the
    container fields (count among them) and every node of the store
    are as before, all that is new being the node allocated for the
    argument, which nothing refers to.  No two stored items are equal,
    and Insert and Remove keep the container valid and ordered. *)
Theorem C6_duplicate_rejected fuel s T x y :
  ltrans Less → lequiv_trans Less →
  Valid s T → bst Less T → length (addrs T) + 1 < fuel →
  y ∈ keys T → equiv_item Less x y →
  let nl := nill (tree s) in
  let s0 := mkState (tree s)
              (<[new_addr (heap s) := mkNode nl nl nl nl nl (Some x) RED]>
                 (heap s)) in
  (∃ node C c l r, T = plug C (Node c l node y r) ∧
     Insert Less fuel (Some x) s = Ok (node, false) s0) ∧
  count (tree s0) = count (tree s) ∧ tree s0 = tree s ∧
  (∀ a n, heap s !! a = Some n → heap s0 !! a = Some n) ∧
  Valid s0 T ∧
  (∀ l1 a l2 b l3, keys T = l1 ++ a :: l2 ++ b :: l3 → ¬ equiv_item Less a b) ∧
  (∀ it, wp (Insert Less fuel it) s (λ _ s', ∃ T', Valid s' T' ∧ bst Less T')) ∧
  (∀ it, wp (Remove Less fuel it) s (λ _ s', ∃ T', Valid s' T' ∧ bst Less T')).
Proof.
  intros Htr Hsw HV Hb Hfuel Hy He nl s0. split_and!; try done.
  - pose proof (wp_Insert Less fuel s T x
      (λ res s', ∃ node C c l r, T = plug C (Node c l node y r) ∧
                   res = (node, false) ∧ s' = s0) HV Hfuel) as Hwp.
    apply wp_ok in Hwp as (res & s' & Hrun & node & C & c & l & r & HT & -> & ->).
    + by exists node, C, c, l, r.
    + intros C c l z kz r HT Hz. exists z, C, c, l, r.
      assert (y = kz) as ->; [|done].
      rewrite HT in Hb, Hy. by eapply bst_equiv_unique.
    + intros s' T' C HT Hp _ _ _ _ _ _. exfalso.
      rewrite HT in Hb, Hy. eapply path_absent; [done| |done|done|done].
      by apply ipath_path.
  - intros a n Ha. subst s0. cbn. rewrite lookup_insert_ne; [done|].
    intros <-. destruct (new_addr_fresh (heap s)) as [Hf _]. congruence.
  - by apply Valid_alloc.
  - intros l1 a l2 b l3. by apply bst_no_equal.
  - intros it. by apply (Insert_bst fuel s T).
  - intros it. by apply (Remove_bst fuel s T).
Qed.

(** C5 (amended).  With an irreflexive and transitive Less, on a valid,
    ordered container that stores no item equal to [x]: Insert(x)
    returns true, and Remove(x) after it returns (x, true) and leaves a
    valid, ordered container with the count, the in-order sequence of
    nodes and the in-order sequence of items that the container had
    before the Insert.  (The shape of the tree may differ.) *)
Theorem C5_round_trip fuel s T x :
  lirrefl Less → ltrans Less →
  Valid s T → bst Less T → length (addrs T) + 2 < fuel →
  (∀ y, y ∈ keys T → ¬ equiv_item Less x y) →
  wp (Insert Less fuel (Some x)) s (λ r1 s1,
    snd r1 = true ∧
    wp (Remove Less fuel (Some x)) s1 (λ r2 s2,
      r2 = (IItem x, true) ∧
      count (tree s2) = count (tree s) ∧
      ∃ T2, Valid s2 T2 ∧ bst Less T2 ∧
            addrs T2 = addrs T ∧ keys T2 = keys T)).
Proof.
  intros Hirr Htr HV Hb Hfuel Habs.
  eapply (wp_Insert Less fuel s T x); [done|lia| |].
  { intros C c l y ky r HT He. exfalso. apply (Habs ky); [|done].
    rewrite HT. apply key_in_plug. }
  intros s1 T1 C HT Hp HV1 Ha1 Hk1 Hnl1 Hout1 Hit1. split; [done|].
  set (z := new_addr (heap s)) in *.
  assert (bst Less T1) as Hb1.
  { unfold bst. rewrite Hk1. apply bst_insert; [done|done|by rewrite <- HT]. }
  assert (addrs T = ctxL C ++ ctxR C) as HaT by (by rewrite HT, addrs_plug).
  assert (keys T = kctxL C ++ kctxR C) as HkT by (by rewrite HT, keys_plug).
  eapply (wp_Remove Less fuel s1 T1 x); [done| | |].
  { rewrite Ha1. rewrite HaT in Hfuel. clear -Hfuel.
    rewrite !length_app in *. cbn [length]. lia. }
  { intros C' HT1 Hp'. exfalso. rewrite HT1 in Hb1.
    eapply (path_absent Less x C' x); [done|done|done| |by split].
    rewrite <- HT1, Hk1. set_solver. }
  intros s2 T2 C' c l z' kz' r HT1 He HV2 Ha2 Hk2 Hnl2 Hz2 Hout2 Hit2.
  pose proof HV1 as [(Htok1 & _) _]. pose proof Htok1 as (_ & _ & Hnd1 & _).
  assert (z' = z) as ->.
  { destruct (decide (z' = z)) as [|Hne]; [done|exfalso].
    assert (z' ∈ addrs T) as Hin.
    { pose proof (addr_in_plug C' c l z' kz' r) as Hin.
      rewrite <- HT1, Ha1 in Hin. rewrite HaT. clear -Hin Hne. set_solver. }
    pose proof HV as [(((_ & Hrep) & _) & _) _].
    destruct (rep_lookup _ _ _ _ _ Hrep Hin) as (n & k' & Hn & Hi & Hk').
    rewrite HT1 in Htok1.
    destruct (tok_node _ _ _ _ _ _ _ Htok1) as (_ & pv & nx & Hz1).
    pose proof (Hit1 z') as Hi1. rewrite Hz1 in Hi1. cbn [heap] in Hi1.
    rewrite lookup_insert_ne in Hi1 by done. rewrite Hn in Hi1.
    cbn in Hi1. rewrite Hi in Hi1. injection Hi1 as ->.
    by apply (Habs k'). }
  rewrite HT1, addrs_plug in Ha1, Hnd1. cbn [addrs] in Ha1, Hnd1.
  rewrite <- !app_assoc, <- app_comm_cons in Ha1, Hnd1.
  rewrite app_assoc in Ha1, Hnd1.
  apply NoDup_mid_inj in Ha1 as [HL HR]; [|done].
  rewrite HT1, keys_plug in Hk1. cbn [keys] in Hk1.
  rewrite <- !app_assoc, <- app_comm_cons in Hk1. rewrite app_assoc in Hk1.
  apply app_inj_1 in Hk1 as [HkL HkR].
  2:{ rewrite !length_app, !length_kctxL, !length_keys, <- length_app, HL. done. }
  injection HkR as <- HkR.
  assert (addrs T2 = addrs T) as HaT2 by (by rewrite Ha2, HaT, HL, HR).
  split_and!; [done| |].
  - destruct HV2 as [(_ & _ & _ & _ & _ & ->) _].
    destruct HV as [(_ & _ & _ & _ & _ & ->) _]. by rewrite HaT2.
  - exists T2. split_and!; [done| |done|by rewrite Hk2, HkT, HkL, HkR].
    unfold bst in *. rewrite Hk2, HkL, HkR, <- HkT. done.
Qed.

End Claims.

Section Color.
Context {Item : Type}.
Implicit Types (s : @state Item) (h : gmap nat (@Rbnode Item)).

Lemma color_insert h p (n n' : @Rbnode Item) a :
  h !! p = Some n → color n' = color n →
  color <$> <[p := n']> h !! a = color <$> h !! a.
Proof.
  intros Hp Hv. destruct (decide (p = a)) as [->|].
  - rewrite lookup_insert_eq, Hp. cbn. by rewrite Hv.
  - by rewrite lookup_insert_ne.
Qed.

Lemma wp_conj {A} (m : M A) s (Q1 Q2 : A → state → Prop) :
  wp m s Q1 → wp m s Q2 → wp m s (λ a s', Q1 a s' ∧ Q2 a s').
Proof. unfold wp. by destruct (m s). Qed.

End Color.

Ltac xcolor :=
  let a := fresh "a" in
  intros a;
  repeat (etrans; [eapply color_insert; [xlookup | reflexivity]|]);
  reflexivity.

Section Rot2.
Context {Item : Type}.
Implicit Types (s : @state Item) (h : gmap nat (@Rbnode Item))
  (t T : @atree Item) (tr : @Rbtree) (C : list (@frame Item)).

Lemma leftRotate_color s C c A x k c' B y k' G :
  tok s (plug C (Node c A x k (Node c' B y k' G))) →
  wp (leftRotate x) s (λ _ s', ∀ a, color <$> heap s' !! a = color <$> heap s !! a).
Proof.
  intros Htok. destruct s as [[nl rt cnt fst lst] h]. unfold leftRotate.
  destruct C as [|[cp p kp r|cp l p kp] C]; destruct B as [|cb bl b kb br];
    unl_pre Htok; repeat xstep; xcolor.
Qed.

Lemma rightRotate_color s C c A y k' B c' x k G :
  tok s (plug C (Node c (Node c' A y k' B) x k G)) →
  wp (rightRotate x) s (λ _ s', ∀ a, color <$> heap s' !! a = color <$> heap s !! a).
Proof.
  intros Htok. destruct s as [[nl rt cnt fst lst] h]. unfold rightRotate.
  destruct C as [|[cp p kp r|cp l p kp] C]; destruct B as [|cb bl b kb br];
    unl_pre Htok; repeat xstep; xcolor.
Qed.

Lemma leftRotate_noop s C c A x k :
  tok s (plug C (Node c A x k Leaf)) → leftRotate x s = Ok tt s.
Proof.
  intros Htok. apply wp_eq.
  destruct (tok_node _ _ _ _ _ _ _ Htok) as (_ & pv & nx & Hx).
  destruct s as [[nl rt cnt fst lst] h]. cbn [tree heap nill root_of] in *.
  unfold leftRotate. repeat xstep. done.
Qed.

Lemma rightRotate_noop s C c A x k :
  tok s (plug C (Node c Leaf x k A)) → rightRotate x s = Ok tt s.
Proof.
  intros Htok. apply wp_eq.
  destruct (tok_node _ _ _ _ _ _ _ Htok) as (_ & pv & nx & Hx).
  destruct s as [[nl rt cnt fst lst] h]. cbn [tree heap nill root_of] in *.
  unfold rightRotate. repeat xstep. done.
Qed.

Lemma tok_tstep s T : tok s T → tstep (nill (tree s)) s (addrs T) (keys T) s T.
Proof. intros Htok. split_and!; try done; apply tframe_refl. Qed.

(** C8.  leftRotate(x) does nothing when the right child of [x] is the
    sentinel.  Otherwise it returns, and the tree it leaves has the
    right child [y] of [x] at the place of [x] (under the same parent,
    or as the root), [x] as the left child of [y] and the former left
    subtree of [y] as the right subtree of [x]; the in-order sequences
    of nodes and of items are the same, no node changes its colour, and
    the list fields, the other container fields and the nodes outside
    the tree are not touched.  rightRotate is the mirror image. *)
Theorem C8_rotations s C c A x k R :
  tok s (plug C (Node c A x k R)) →
  let T := plug C (Node c A x k R) in
  let rotated := λ (T' : @atree Item) (s' : @state Item),
    tok s' T' ∧ addrs T' = addrs T ∧ keys T' = keys T ∧
    tframe s s' (addrs T) ∧
    (∀ a, color <$> heap s' !! a = color <$> heap s !! a) in
  match R with
  | Leaf => leftRotate x s = Ok tt s
  | Node c' B y k' G =>
      wp (leftRotate x) s
        (λ _ s', rotated (plug C (Node c' (Node c A x k B) y k' G)) s')
  end ∧
  match A with
  | Leaf => rightRotate x s = Ok tt s
  | Node c' E y k' B =>
      wp (rightRotate x) s
        (λ _ s', rotated (plug C (Node c' E y k' (Node c B x k R))) s')
  end.
Proof.
  intros Htok T rotated. pose proof (tok_tstep _ _ Htok) as Hst. split.
  - destruct R as [|c' B y k' G]; [by eapply leftRotate_noop|].
    assert (wp (leftRotate x) s (λ _ s',
              tstep (nill (tree s)) s (addrs T) (keys T) s'
                (plug C (Node c' (Node c A x k B) y k' G)))) as H1.
    { eapply wp_leftRotate; [exact Hst|]. intros s' H. exact H. }
    eapply wp_mono;
      [exact (wp_conj _ _ _ _ H1 (leftRotate_color _ _ _ _ _ _ _ _ _ _ _ Htok))|].
    intros [] s' [(_ & Htok' & Ha & Hk & Hfr) Hc]. by split_and!.
  - destruct A as [|c' E y k' B]; [by eapply rightRotate_noop|].
    assert (wp (rightRotate x) s (λ _ s',
              tstep (nill (tree s)) s (addrs T) (keys T) s'
                (plug C (Node c' E y k' (Node c B x k R))))) as H1.
    { eapply wp_rightRotate; [exact Hst|]. intros s' H. exact H. }
    eapply wp_mono;
      [exact (wp_conj _ _ _ _ H1 (rightRotate_color _ _ _ _ _ _ _ _ _ _ _ Htok))|].
    intros [] s' [(_ & Htok' & Ha & Hk & Hfr) Hc]. by split_and!.
Qed.

End Rot2.

Lemma ex_less_trans : ltrans ex_less.
Proof.
  intros x y z H1%Nat.ltb_lt H2%Nat.ltb_lt. apply Nat.ltb_lt. lia.
Defined.

Lemma ex_less_irrefl : lirrefl ex_less.
Proof. intros x. apply Nat.ltb_irrefl. Defined.

Lemma ex_less_equiv_trans : lequiv_trans ex_less.
Proof.
  intros x y z [H1%Nat.ltb_ge H2%Nat.ltb_ge] [H3%Nat.ltb_ge H4%Nat.ltb_ge].
  split; apply Nat.ltb_ge; lia.
Defined.

Lemma ex_valid : Valid ex_state ex_tree.
Proof.
  unfold Valid, Inv, tok, trep, sentinel, is_rb.
  split_and!.
  - vm_compute. reflexivity.
  - cbn [rep ex_tree]. unfold tnode. split_and!; try exact I.
    + exists 3, 4. vm_compute. reflexivity.
    + exists 1, 2. vm_compute. reflexivity.
    + exists 2, 1. vm_compute. reflexivity.
  - exists 0, 0, 0, 0, 0. vm_compute. reflexivity.
  - vm_compute. repeat constructor; set_solver.
  - vm_compute. set_solver.
  - reflexivity.
  - exists 1. cbn. done.
  - cbn [dll addrs ex_tree app hd]. split_and!; try exact I.
    + eexists. split; [vm_compute; reflexivity|]. split; reflexivity.
    + eexists. split; [vm_compute; reflexivity|]. split; reflexivity.
    + eexists. split; [vm_compute; reflexivity|]. split; reflexivity.
  - vm_compute. reflexivity.
  - vm_compute. reflexivity.
  - vm_compute. reflexivity.
  - vm_compute. reflexivity.
Defined.

Lemma ex_bst : bst ex_less ex_tree.
Proof. unfold bst. cbn. repeat constructor. Defined.

Lemma ex_fuel : length (addrs ex_tree) + 1 < 10.
Proof. cbn. lia. Defined.

Lemma C1_balance_kept_witness :
  Valid ex_state ex_tree ∧ length (addrs ex_tree) + 1 < 10 ∧
  (Valid (@NewRbtree nat) Leaf ∧
   (∀ it, wp (Insert ex_less 10 it) ex_state
            (λ _ s', (∃ T', Valid s' T') ∧ rb_balance s')) ∧
   (∀ it, wp (Remove ex_less 10 it) ex_state
            (λ _ s', (∃ T', Valid s' T') ∧ rb_balance s')) ∧
   (∀ z, z = null ∨ z ∈ addrs ex_tree →
         wp (Remove_raw 10 z) ex_state
            (λ _ s', (∃ T', Valid s' T') ∧ rb_balance s')) ∧
   (∀ it, wp (Get ex_less 10 it) ex_state
            (λ _ s', (∃ T', Valid s' T') ∧ rb_balance s'))).
Proof.
  split; [exact ex_valid|]. split; [exact ex_fuel|].
  exact (C1_balance_kept ex_less 10 ex_state ex_tree ex_valid ex_fuel).
Defined.


Lemma C3_successor_relocated_witness :
  let L := Node RED Leaf 3 1 Leaf in
  let R := Node RED Leaf 4 3 Leaf in
  tok ex_state (plug [] (Node BLACK L 2 2 R)) ∧ L ≠ Leaf ∧ R ≠ Leaf ∧
  length (addrs R) ≤ 10 ∧
  ∃ s1 Cy cy y ky Ry,
    R = plug Cy (Node cy Leaf y ky Ry) ∧ all_left Cy ∧
    hd y (addrs R) = y ∧
    remove_raw_unlink 10 2 ex_state = Ok (root_of (nill (tree ex_state)) Ry, cy) s1 ∧
    tok s1 (plug [] (Node BLACK L y ky (plug Cy Ry))) ∧
    heap s1 !! 2 = heap ex_state !! 2.
Proof.
  intros L R.
  assert (tok ex_state (plug [] (Node BLACK L 2 2 R))) as Htok
    by exact (proj1 (proj1 ex_valid)).
  assert (L ≠ Leaf) as HL by discriminate.
  assert (R ≠ Leaf) as HR by discriminate.
  assert (length (addrs R) ≤ 10) as Hf by (cbn; lia).
  split_and!; [exact Htok|exact HL|exact HR|exact Hf|].
  destruct (C3_successor_relocated 10 ex_state [] BLACK L 2 2 R Htok HL HR Hf)
    as (s1 & Cy & cy & y & ky & Ry & H1 & H2 & H3 & H4 & H5 & H6 & _).
  exists s1, Cy, cy, y, ky, Ry. by split_and!.
Defined.

Lemma C5_round_trip_witness :
  lirrefl ex_less ∧ ltrans ex_less ∧ Valid ex_state ex_tree ∧
  bst ex_less ex_tree ∧ length (addrs ex_tree) + 2 < 10 ∧
  (∀ y, y ∈ keys ex_tree → ¬ equiv_item ex_less 7 y) ∧
  wp (Insert ex_less 10 (Some 7)) ex_state (λ r1 s1,
    snd r1 = true ∧
    wp (Remove ex_less 10 (Some 7)) s1 (λ r2 s2,
      r2 = (IItem 7, true) ∧
      count (tree s2) = count (tree ex_state) ∧
      ∃ T2, Valid s2 T2 ∧ bst ex_less T2 ∧
            addrs T2 = addrs ex_tree ∧ keys T2 = keys ex_tree)).
Proof.
  assert (length (addrs ex_tree) + 2 < 10) as Hf by (cbn; lia).
  assert (∀ y, y ∈ keys ex_tree → ¬ equiv_item ex_less 7 y) as Habs.
  { intros y Hy [_ H]. cbn in Hy.
    repeat (apply elem_of_cons in Hy as [->|Hy]; [discriminate H|]).
    by apply elem_of_nil in Hy. }
  split_and!; [exact ex_less_irrefl|exact ex_less_trans|exact ex_valid
              |exact ex_bst|exact Hf|exact Habs|].
  exact (C5_round_trip ex_less 10 ex_state ex_tree 7 ex_less_irrefl
           ex_less_trans ex_valid ex_bst Hf Habs).
Defined.

Lemma C6_duplicate_rejected_witness :
  ltrans ex_less ∧ lequiv_trans ex_less ∧ Valid ex_state ex_tree ∧
  bst ex_less ex_tree ∧ length (addrs ex_tree) + 1 < 10 ∧
  3 ∈ keys ex_tree ∧ equiv_item ex_less 3 3 ∧
  ∃ node C c l r, ex_tree = plug C (Node c l node 3 r) ∧
    Insert ex_less 10 (Some 3) ex_state =
      Ok (node, false)
        (mkState (tree ex_state)
           (<[new_addr (heap ex_state) :=
                mkNode (nill (tree ex_state)) (nill (tree ex_state))
                  (nill (tree ex_state)) (nill (tree ex_state))
                  (nill (tree ex_state)) (Some 3) RED]> (heap ex_state))).
Proof.
  assert (3 ∈ keys ex_tree) as Hin by (cbn; set_solver).
  assert (equiv_item ex_less 3 3) as He by (split; reflexivity).
  split_and!; [exact ex_less_trans|exact ex_less_equiv_trans|exact ex_valid
              |exact ex_bst|exact ex_fuel|exact Hin|exact He|].
  exact (proj1 (C6_duplicate_rejected ex_less 10 ex_state ex_tree 3 3
                  ex_less_trans ex_less_equiv_trans ex_valid ex_bst ex_fuel
                  Hin He)).
Defined.

Lemma C7_absence_witness :
  Valid ex_state ex_tree ∧ 0 < 10 ∧
  Next 4 ex_state = Ok (nill (tree ex_state)) ex_state ∧
  Prev 3 ex_state = Ok (nill (tree ex_state)) ex_state ∧
  Valid (@NewRbtree nat) Leaf ∧
  (∀ it, wp (Remove ex_less 10 it) NewRbtree (λ res _, res = (INil, false))) ∧
  First (@NewRbtree nat) = Ok (nill (tree (@NewRbtree nat))) NewRbtree ∧
  Last (@NewRbtree nat) = Ok (nill (tree (@NewRbtree nat))) NewRbtree.
Proof.
  assert (0 < 10) as Hf by lia.
  pose proof (C7_absence ex_less 10 ex_state ex_tree ex_valid Hf)
    as (_ & _ & Hn & Hp).
  pose proof (C7_absence ex_less 10 NewRbtree Leaf Valid_New Hf)
    as (_ & He & _).
  destruct (He eq_refl) as (H1 & H2 & H3).
  split_and!; [exact ex_valid|exact Hf|exact (Hn [3; 2] 4 eq_refl)
              |exact (Hp 3 [2; 4] eq_refl)|exact Valid_New|exact H1
              |exact H2|exact H3].
Defined.

Lemma C8_rotations_witness :
  tok ex_state (plug [] (Node BLACK (Node RED Leaf 3 1 Leaf) 2 2
                           (Node RED Leaf 4 3 Leaf))) ∧
  wp (leftRotate 2) ex_state (λ _ s',
    tok s' (Node RED (Node BLACK (Node RED Leaf 3 1 Leaf) 2 2 Leaf) 4 3 Leaf) ∧
    (∀ a, color <$> heap s' !! a = color <$> heap ex_state !! a)) ∧
  wp (rightRotate 2) ex_state (λ _ s',
    tok s' (Node RED Leaf 3 1 (Node BLACK Leaf 2 2 (Node RED Leaf 4 3 Leaf))) ∧
    (∀ a, color <$> heap s' !! a = color <$> heap ex_state !! a)).
Proof.
  assert (tok ex_state (plug [] (Node BLACK (Node RED Leaf 3 1 Leaf) 2 2
                           (Node RED Leaf 4 3 Leaf)))) as Htok
    by exact (proj1 (proj1 ex_valid)).
  destruct (C8_rotations ex_state [] BLACK (Node RED Leaf 3 1 Leaf) 2 2
              (Node RED Leaf 4 3 Leaf) Htok) as [HL HR].
  split_and!; [exact Htok| |].
  - eapply wp_mono; [exact HL|]. intros _ s' (H1 & _ & _ & _ & H2).
    split; [exact H1|exact H2].
  - eapply wp_mono; [exact HR|]. intros _ s' (H1 & _ & _ & _ & H2).
    split; [exact H1|exact H2].
Defined.


Lemma C10_removed_node_untouched_witness :
  Valid ex_state ex_tree ∧ length (addrs ex_tree) + 1 < 10 ∧
  wp (Remove_raw 10 2) ex_state (λ _ s',
    ∃ l1 l2, addrs ex_tree = l1 ++ 2 :: l2 ∧
      heap s' !! 2 = heap ex_state !! 2 ∧
      Next 2 s' = Ok (hd (nill (tree ex_state)) l2) s' ∧
      Prev 2 s' = Ok (List.last l1 (nill (tree ex_state))) s' ∧
      ∃ T', Valid s' T' ∧ addrs T' = l1 ++ l2 ∧
        (hd (nill (tree ex_state)) l2 = nill (tree ex_state) ∨
         hd (nill (tree ex_state)) l2 ∈ addrs T') ∧
        (List.last l1 (nill (tree ex_state)) = nill (tree ex_state) ∨
         List.last l1 (nill (tree ex_state)) ∈ addrs T')).
Proof.
  assert (2 ∈ addrs ex_tree) as Hin by (cbn; set_solver).
  split_and!; [exact ex_valid|exact ex_fuel|].
  exact (proj1 (C10_removed_node_untouched ex_less 10 ex_state ex_tree
                  ex_valid ex_fuel) 2 Hin).
Defined.

Section Intro.
Context {Item : Type}.

Lemma tnode_intro (h : gmap nat (@Rbnode Item)) a n l r p c k :
  h !! a = Some n → left n = l → right n = r → parent n = p →
  item n = Some k → color n = c → tnode h a l r p c k.
Proof.
  intros H <- <- <- Hi <-. exists (prev n), (next n). rewrite H.
  by destruct n; simplify_eq/=.
Qed.

Lemma sentinel_intro (h : gmap nat (@Rbnode Item)) nl n :
  h !! nl = Some n → item n = None → color n = BLACK → sentinel h nl.
Proof. intros H Hi Hc. destruct n; simplify_eq/=. by eexists _, _, _, _, _. Qed.

End Intro.

Ltac valid_goal :=
  lazymatch goal with
  | |- True => exact I
  | |- rep _ _ _ _ =>
      cbn [rep]; split_and?; try exact I;
      (eapply tnode_intro; [vm_compute; reflexivity|vm_compute; reflexivity..])
  | |- sentinel _ _ =>
      eapply sentinel_intro; [vm_compute; reflexivity|vm_compute; reflexivity..]
  | |- NoDup _ =>
      vm_compute; repeat (apply NoDup_cons_2; [set_solver|]); apply NoDup_nil_2
  | |- _ ∉ _ => vm_compute; set_solver
  | |- ∃ n, rbt ?T n =>
      let n := eval vm_compute in (bheight T) in exists n;
      cbn; split_and?; done
  | |- dll _ _ _ _ =>
      cbn [dll addrs app hd]; split_and?; try exact I;
      (eexists; split; [vm_compute; reflexivity|]; split; vm_compute; reflexivity)
  | |- _ = _ => vm_compute; reflexivity
  end.

Ltac valid_by_compute :=
  unfold Valid, Inv, tok, trep, is_rb; split_and!; valid_goal.

Lemma ex_before_valid : Valid ex_before_stale ex_before_tree.
Proof. unfold ex_before_tree. valid_by_compute. Qed.

Lemma ex_once_valid : Valid ex_once (Node BLACK Leaf 2 1 Leaf).
Proof. valid_by_compute. Qed.


Lemma ex_two_valid :
  Valid ex_two (Node BLACK Leaf 2 1 (Node RED Leaf 3 2 Leaf)).
Proof. valid_by_compute. Qed.

(** C1, as the specification states it, fails: the node at address 3
    was removed from the container (which is valid and does not hold
    it); Remove_raw on this node returns and leaves a tree that is not
    balanced. *)
Lemma C1_counterexample :
  Valid ex_before_stale ex_before_tree ∧ 3 ∉ addrs ex_before_tree ∧
  ∃ s, Remove_raw 10 3 ex_before_stale = Ok (INode 3, true) s ∧
       ¬ rb_balance s.
Proof.
  split; [exact ex_before_valid|]. split; [cbn; set_solver|].
  exists (ex_run (Remove_raw 10 3) ex_before_stale).
  split; [vm_compute; reflexivity|].
  intros (T & Htok & _ & n & Hn).
  assert (T = Node BLACK (Node BLACK (Node RED Leaf 7 1 Leaf) 6 2 Leaf) 2 3 Leaf)
    as ->.
  { eapply (tok_build _ _ 10); [exact Htok|]. vm_compute. reflexivity. }
  cbn in Hn. destruct n as [|[|n]]; cbn in Hn; [done|tauto|].
  by destruct Hn as [_ Hn].
Qed.


(** C4: the code diverges from the claim.  The container holds the
    single item 1, at the node of address 2.  Remove_raw of this node
    returns the node itself as the interface value, not the stored
    item 1; Remove of the item 1 from the same container returns the
    stored item. *)
Lemma C4_Remove_raw_returns_node :
  Valid ex_once (Node BLACK Leaf 2 1 Leaf) ∧
  (∃ s, Remove_raw 10 2 ex_once = Ok (INode 2, true) s) ∧
  @INode nat 2 ≠ IItem 1 ∧
  (∃ s, Remove ex_less 10 (Some 1) ex_once = Ok (IItem 1, true) s).
Proof.
  split; [exact ex_once_valid|]. split_and!.
  - exists (ex_run (Remove_raw 10 2) ex_once). vm_compute. reflexivity.
  - discriminate.
  - exists (ex_run (Remove ex_less 10 (Some 1)) ex_once).
    vm_compute. reflexivity.
Qed.

(** C5, as the specification states it, fails: the container holds 1
    at the root and 2 at its right child; after Insert(3) and Remove(3)
    the root holds 2 and 1 is its left child. *)
Lemma C5_counterexample :
  Valid ex_two (Node BLACK Leaf 2 1 (Node RED Leaf 3 2 Leaf)) ∧
  ∃ s, (Insert ex_less 10 (Some 3);; Remove ex_less 10 (Some 3)) ex_two =
         Ok (IItem 3, true) s ∧
       ∀ T, tok s T →
         shape T ≠ shape (Node BLACK Leaf 2 1 (Node RED Leaf 3 2 Leaf)).
Proof.
  split; [exact ex_two_valid|].
  exists (ex_run (Insert ex_less 10 (Some 3);; Remove ex_less 10 (Some 3)) ex_two).
  split; [vm_compute; reflexivity|].
  intros T Htok.
  assert (T = Node BLACK (Node RED Leaf 2 1 Leaf) 3 2 Leaf) as ->.
  { eapply (tok_build _ _ 10); [exact Htok|]. vm_compute. reflexivity. }
  discriminate.
Qed.

Section MoreBase.
Context {Item : Type}.
Implicit Types (s : @state Item) (h : gmap nat (@Rbnode Item))
  (t T : @atree Item) (tr : @Rbtree) (C : list (@frame Item)).

(** Init: on a store with no node at nil, Init returns and leaves a
    valid empty container with a new sentinel; the nodes of the store
    are not touched. *)
Theorem Init_resets s :
  heap s !! null = None →
  wp Init s (λ _ s',
    Valid s' Leaf ∧ count (tree s') = 0%Z ∧
    heap s !! nill (tree s') = None ∧
    ∀ a n, heap s !! a = Some n → heap s' !! a = Some n).
Proof.
  intros Hn. destruct s as [tr h]. cbn [heap] in *.
  unfold Init. apply wp_bind_alloc. apply wp_tset.
  destruct (new_addr_fresh h) as [Hf Hne].
  cbn [tree heap nill count]. split_and!; [|done|done|].
  - unfold Valid, Inv, tok, trep, sentinel, is_rb.
    cbn [tree heap nill root count first last addrs rep root_of dll rcolor hd
         List.last length].
    split_and!; try done;
      first [ eexists _, _, _, _, _; apply lookup_insert_eq
            | apply NoDup_nil_2
            | apply not_elem_of_nil
            | by exists 0
            | by rewrite lookup_insert_ne ].
  - intros a n Ha. rewrite lookup_insert_ne; [done|]. intros <-. congruence.
Qed.

(** Count: on a valid container Count returns the number of stored
    items and changes nothing. *)
Theorem Count_is_size s T :
  Valid s T → Count s = Ok (Z.of_nat (length (keys T))) s.
Proof.
  intros [(_ & _ & _ & _ & _ & Hc) _]. unfold Count, tget.
  by rewrite Hc, length_keys.
Qed.

(** First, Last, Next, Prev: on a valid container First and Last
    return the first and the last node of the in-order sequence of the
    tree (the sentinel when it is empty), and for two nodes [a], [b]
    that are neighbours in this sequence Next on [a] returns [b] and
    Prev on [b] returns [a]; none of them changes the state. *)
Theorem list_walk_in_order s T :
  Valid s T →
  First s = Ok (hd (nill (tree s)) (addrs T)) s ∧
  Last s = Ok (List.last (addrs T) (nill (tree s))) s ∧
  ∀ l1 a b l2, addrs T = l1 ++ a :: b :: l2 →
    Next a s = Ok b s ∧ Prev b s = Ok a s.
Proof.
  intros [(_ & _ & Hdll & Hf & Hl & _) _]. split_and!.
  - unfold First, tget. by rewrite Hf.
  - unfold Last, tget. by rewrite Hl.
  - intros l1 a b l2 HT. rewrite HT in Hdll.
    apply dll_app in Hdll as [_ Hd]. cbn [dll hd] in Hd.
    destruct Hd as [(na & Ha & _ & Hx) [(nb & Hb & Hp & _) _]].
    unfold Next, Prev, load. by rewrite Ha, Hb, Hx, Hp.
Qed.

Lemma tok_sub s C t :
  tok s (plug C t) →
  rep (heap s) (nill (tree s)) t (caddr (nill (tree s)) C) ∧
  nill (tree s) ∉ addrs t.
Proof.
  intros (Hrep & _ & _ & Hnl). apply trep_plug in Hrep as [_ Hr].
  split; [done|]. rewrite addrs_plug in Hnl. set_solver.
Qed.

Lemma max_loop_last nl rt cnt fst lst h t :
  ∀ fuel par,
  t ≠ Leaf → rep h nl t par → nl ∉ addrs t → length (addrs t) ≤ fuel →
  max_loop fuel (root_of nl t) (mkState (mkTree nl rt cnt fst lst) h) =
    Ok (List.last (addrs t) nl) (mkState (mkTree nl rt cnt fst lst) h).
Proof.
  induction t as [|c l _ a k r IHr]; intros fuel par Ht Hrep Hnl Hfuel; [done|].
  cbn [rep root_of addrs] in *. destruct Hrep as ((pv & nx & Ha) & Hl & Hr).
  destruct fuel as [|fuel]; [rewrite length_app in Hfuel; cbn in Hfuel; lia|].
  assert (nl ≠ a ∧ nl ∉ addrs r) as [Hna Hnr] by (clear -Hnl; set_solver).
  rewrite last_app', last_cons_cons.
  apply wp_eq. cbn [max_loop].
  destruct r as [|cr rl b kr rr].
  - cbn [root_of addrs List.last]. repeat xstep. done.
  - cbn [root_of]. cbn [addrs] in Hnr.
    assert (nl ≠ b) by (clear -Hnr; set_solver).
    assert (length (addrs (Node cr rl b kr rr)) ≤ fuel) as Hlen.
    { rewrite !length_app in Hfuel. cbn [length] in *. lia. }
    pose proof (IHr fuel a ltac:(done) Hr Hnr Hlen) as E. cbn [root_of] in E.
    repeat xstep. unfold wp. rewrite E. split; [|done].
    cbn [addrs]. by rewrite !last_app', !last_cons_cons.
Qed.

(** min, max: for a subtree [t] of the tree in the store, min on its
    root returns the first and max the last node of the in-order
    sequence of [t]; on the sentinel (an empty subtree) both return the
    sentinel.  The state is not changed. *)
Theorem min_max_ends fuel s C t :
  tok s (plug C t) → length (addrs t) ≤ fuel →
  let nl := nill (tree s) in
  min fuel (root_of nl t) s = Ok (hd nl (addrs t)) s ∧
  max fuel (root_of nl t) s = Ok (List.last (addrs t) nl) s.
Proof.
  intros Htok Hfuel nl. subst nl. destruct (tok_sub _ _ _ Htok) as [Hrep Hnl].
  destruct s as [[nl rt cnt fst lst] h]. cbn [tree heap nill] in *.
  assert (t = Leaf ∨ t ≠ Leaf) as [->|Ht] by (destruct t; [by left|by right]).
  - cbn. unfold min, max, bind, tget. cbn. by rewrite Nat.eqb_refl.
  - split.
    + apply wp_eq. eapply wp_min; done.
    + unfold max, bind, tget. cbn [tree nill].
      rewrite (proj2 (Nat.eqb_neq _ _) (root_of_neq_nl _ _ Ht Hnl)).
      by eapply max_loop_last.
Qed.

(** successor: for a node [z] of the tree, successor returns the node
    that follows [z] in the in-order sequence, or the sentinel when [z]
    is the last one; the state is not changed. *)
Theorem successor_is_next fuel s T l1 z l2 :
  tok s T → addrs T = l1 ++ z :: l2 → length (addrs T) < fuel →
  successor fuel z s = Ok (hd (nill (tree s)) l2) s.
Proof.
  intros Htok HT Hfuel.
  assert (z ∈ addrs T) as Hz by (rewrite HT; set_solver).
  destruct (addr_decomp _ _ Hz) as (C & c & l & k & r & ->).
  pose proof Htok as (_ & _ & Hnd & _).
  assert (addrs r ++ ctxR C = l2) as <-.
  { rewrite addrs_plug in HT, Hnd. cbn [addrs] in HT, Hnd.
    rewrite <- !app_assoc, <- app_comm_cons in HT, Hnd.
    rewrite app_assoc in HT, Hnd.
    by apply NoDup_mid_inj in HT as [_ ?]. }
  destruct s as [[nl rt cnt fst lst] h]. cbn [tree heap nill] in *.
  apply wp_eq. eapply wp_successor; [exact Htok|done|done].
Qed.

End MoreBase.

Section MoreFix.
Context {Item : Type}.
Implicit Types (s : @state Item) (h : gmap nat (@Rbnode Item))
  (t T : @atree Item) (tr : @Rbtree) (C : list (@frame Item)).

(** insertFixup: [z] is a red node whose subtrees are balanced with
    black roots, in a context that is balanced for them, so that the
    only violation can be a red parent of [z] or a red root.  Then
    insertFixup(z) returns and leaves a red-black tree with the same
    in-order sequence of nodes and items; list fields, the other
    container fields and nodes outside the tree are not touched. *)
Theorem insertFixup_restores fuel s C l z k r n :
  tok s (plug C (Node RED l z k r)) →
  rcolor l = BLACK → rcolor r = BLACK → rbt l n → rbt r n → rbc C n →
  length C < fuel →
  wp (insertFixup fuel z) s (λ _ s',
    ∃ T', tok s' T' ∧ is_rb T' ∧
      addrs T' = addrs (plug C (Node RED l z k r)) ∧
      keys T' = keys (plug C (Node RED l z k r)) ∧
      tframe s s' (addrs (plug C (Node RED l z k r)))).
Proof.
  intros Htok Hcl Hcr Hl Hr HC Hfuel.
  pose proof (tok_tstep _ _ Htok) as Hst.
  pose proof Htok as (_ & _ & Hnd & _).
  assert (∀ z0, z0 ∈ addrs (Node RED l z k r) →
    ((∃ l0, addrs (plug C (Node RED l z k r)) = l0 ++ [z0]) →
       noleft z0 (plug C (Node RED l z k r))) →
    wp (insertFixup fuel z) s (λ _ s',
      ∃ T', tok s' T' ∧ is_rb T' ∧
        addrs T' = addrs (plug C (Node RED l z k r)) ∧
        keys T' = keys (plug C (Node RED l z k r)) ∧
        tframe s s' (addrs (plug C (Node RED l z k r))))) as Hgo.
  { intros z0 Hz0 Hnol.
    eapply (wp_insertFixup _ s _ _ z0); [exact Hfuel|exact Hst|done..|].
    intros s' T' (_ & Htok' & Ha & Hk & Hfr) Hrb _. by exists T'. }
  destruct l as [|cl ll a kl lr].
  - apply (Hgo z); [cbn; set_solver|]. intros _.
    rewrite addrs_plug in Hnd. cbn [addrs app] in Hnd.
    apply NoDup_app in Hnd as (_ & Hd1 & [Hd2 _]%NoDup_cons).
    apply noleft_plug.
    + cbn [noleft]. split_and!; [done|done|].
      apply noleft_notin. intros Hin. apply Hd2. set_solver.
    + intros Hin. eapply Hd1; [done|]. by left.
    + intros Hin. apply Hd2. set_solver.
  - apply (Hgo a); [cbn; set_solver|]. intros [l0 HE]. exfalso.
    assert (addrs (plug C (Node RED (Node cl ll a kl lr) z k r)) =
            (ctxL C ++ addrs ll ++ [a]) ++
            (addrs lr ++ z :: addrs r ++ ctxR C)) as E
      by (rewrite addrs_plug; cbn [addrs]; xapp).
    rewrite E in HE, Hnd. apply last_app_elem in HE; [|by destruct (addrs lr)].
    apply NoDup_app in Hnd as (_ & Hd & _). apply (Hd a); [|done].
    clear. set_solver.
Qed.

(** deleteFixup: the subtree at [x] is balanced with one black node
    less than its context asks for (and where [x] is the sentinel its
    parent field is the parent of the hole).  Then deleteFixup(x)
    returns and leaves a red-black tree with the same in-order sequence
    of nodes and items; list fields, the other container fields and
    nodes outside the tree are not touched. *)
Theorem deleteFixup_restores fuel s C tx n :
  tok s (plug C tx) → rbt_rr tx n → rbc C (S n) →
  (tx = Leaf → ∃ l r pv nx, heap s !! nill (tree s) =
     Some (mkNode l r (caddr (nill (tree s)) C) pv nx None BLACK)) →
  length C + 1 < fuel →
  wp (deleteFixup fuel (root_of (nill (tree s)) tx)) s (λ _ s',
    ∃ T', tok s' T' ∧ is_rb T' ∧
      addrs T' = addrs (plug C tx) ∧ keys T' = keys (plug C tx) ∧
      tframe s s' (addrs (plug C tx))).
Proof.
  intros Htok Hrr HC Hnl Hfuel.
  pose proof (tok_tstep _ _ Htok) as Hst.
  eapply (wp_deleteFixup _ s); [exact Hfuel|exact Hst|done..|].
  intros s' T' (_ & Htok' & Ha & Hk & Hfr) Hrb. by exists T'.
Qed.

End MoreFix.

Section MoreOps.
Context {Item : Type} (Less : Item → Item → bool).
Implicit Types (s : @state Item) (h : gmap nat (@Rbnode Item))
  (t T : @atree Item) (tr : @Rbtree) (C : list (@frame Item)).

(** Insert of a new item: with a transitive Less, on a valid ordered
    container that stores no item equal to [x], Insert(x) returns a
    node that was not in the store together with true; this node holds
    [x] and enters the in-order sequence after the smaller and before
    the larger items, the other nodes keeping their places; count grows
    by one, and the container is valid and ordered. *)
Theorem Insert_new_in_order fuel s T x :
  ltrans Less → Valid s T → bst Less T → length (addrs T) + 1 < fuel →
  (∀ y, y ∈ keys T → ¬ equiv_item Less x y) →
  wp (Insert Less fuel (Some x)) s (λ res s',
    ∃ z T' l1 l2 k1 k2,
      res = (z, true) ∧ heap s !! z = None ∧
      item <$> heap s' !! z = Some (Some x) ∧
      addrs T = l1 ++ l2 ∧ addrs T' = l1 ++ z :: l2 ∧
      keys T = k1 ++ k2 ∧ keys T' = k1 ++ x :: k2 ∧
      (∀ k, k ∈ k1 → Less k x = true) ∧ (∀ k, k ∈ k2 → Less x k = true) ∧
      Valid s' T' ∧ bst Less T' ∧
      count (tree s') = (count (tree s) + 1)%Z).
Proof.
  intros Htr HV Hb Hfuel Habs.
  eapply (wp_Insert Less fuel s T x); [done|done| |].
  { intros C c l y ky r HT He. exfalso. apply (Habs ky); [|done].
    rewrite HT. apply key_in_plug. }
  intros s' T' C HT Hp HV' Ha Hk Hnl Hout Hit.
  destruct (new_addr_fresh (heap s)) as [Hf _].
  set (z := new_addr (heap s)) in *.
  destruct (path_bounds Less x C Htr (ipath_path _ _ _ Hp) Leaf) as [HL HR];
    [by rewrite <- HT|].
  exists z, T', (ctxL C), (ctxR C), (kctxL C), (kctxR C).
  split_and!; try done.
  - rewrite Hit. cbn. by rewrite lookup_insert_eq.
  - by rewrite HT, addrs_plug.
  - by rewrite HT, keys_plug.
  - unfold bst. rewrite Hk. apply bst_insert; [done|done|by rewrite <- HT].
  - destruct HV' as [(_ & _ & _ & _ & _ & ->) _].
    destruct HV as [(_ & _ & _ & _ & _ & ->) _].
    rewrite Ha, HT, addrs_plug. cbn [addrs app]. rewrite !length_app.
    cbn [length]. lia.
Qed.

(** Remove of a stored item.  With a transitive Less for which being
    equal is transitive, Remove of [x] from a valid ordered container
    that holds an item [y] equal to [x] returns ([y], true).  The node
    [z] that held [y] is the one that leaves the in-order sequence, at
    the position of [y] among the items; Remove does not write [z],
    every node of the tree keeps its item, the other nodes and items
    keep their order, the container is valid and ordered again and
    count is one less. *)
Theorem Remove_found_in_order fuel s T x y :
  ltrans Less → lequiv_trans Less →
  Valid s T → bst Less T → length (addrs T) + 1 < fuel →
  y ∈ keys T → equiv_item Less x y →
  wp (Remove Less fuel (Some x)) s (λ res s',
    ∃ z T' l1 l2 k1 k2,
      res = (IItem y, true) ∧
      item <$> heap s !! z = Some (Some y) ∧
      heap s' !! z = heap s !! z ∧
      addrs T = l1 ++ z :: l2 ∧ addrs T' = l1 ++ l2 ∧
      keys T = k1 ++ y :: k2 ∧ keys T' = k1 ++ k2 ∧
      length l1 = length k1 ∧
      (∀ a, a ∈ addrs T → item <$> heap s' !! a = item <$> heap s !! a) ∧
      Valid s' T' ∧ bst Less T' ∧
      count (tree s') = (count (tree s) - 1)%Z).
Proof.
  intros Htr Hsw HV Hb Hfuel Hy He.
  eapply (wp_Remove Less fuel s T x); [done|lia| |].
  { intros C HT Hp. exfalso. rewrite HT in Hb, Hy.
    by eapply path_absent. }
  intros s' T' C c l z kz r HT Hz HV' Ha Hk Hnl Hz' Hout Hit.
  assert (y = kz) as <-.
  { rewrite HT in Hb, Hy. by eapply bst_equiv_unique. }
  exists z, T', (ctxL C ++ addrs l), (addrs r ++ ctxR C),
    (kctxL C ++ keys l), (keys r ++ kctxR C).
  assert (keys T = (kctxL C ++ keys l) ++ y :: keys r ++ kctxR C) as HkT.
  { rewrite HT, keys_plug. cbn [keys]. by rewrite <- !app_assoc. }
  assert (addrs T = (ctxL C ++ addrs l) ++ z :: addrs r ++ ctxR C) as HaT.
  { rewrite HT, addrs_plug. cbn [addrs]. by rewrite <- !app_assoc. }
  pose proof HV as [(Htok & _) _].
  split_and!; try done.
  - rewrite HT in Htok.
    destruct (tok_node _ _ _ _ _ _ _ Htok) as (_ & pv & nx & Hzs).
    by rewrite Hzs.
  - rewrite !length_app. by rewrite length_kctxL, length_keys.
  - intros a Hin. rewrite Hit. cbn [heap].
    destruct Htok as ((_ & Hrep) & _).
    destruct (rep_lookup _ _ _ _ _ Hrep Hin) as (n & k' & Hn & _).
    destruct (new_addr_fresh (heap s)) as [Hf _].
    rewrite lookup_insert_ne; [done|]. intros <-. by rewrite Hf in Hn.
  - unfold bst in *. rewrite Hk. rewrite HkT in Hb. by apply bst_remove in Hb.
  - destruct HV' as [(_ & _ & _ & _ & _ & ->) _].
    destruct HV as [(_ & _ & _ & _ & _ & ->) _].
    rewrite Ha, HaT. rewrite !length_app. cbn [length]. rewrite !length_app.
    lia.
Qed.

(** Get of a stored item: with a transitive Less for which being equal
    is transitive, on a valid ordered container that stores [y], Get of
    an item [x] equal to [y] returns the node that holds [y] (not nil);
    the container fields and every node of the store are as before,
    all that is new being the node allocated for the argument. *)
Theorem Get_finds fuel s T x y :
  ltrans Less → lequiv_trans Less →
  Valid s T → bst Less T → length (addrs T) + 1 < fuel →
  y ∈ keys T → equiv_item Less x y →
  wp (Get Less fuel (Some x)) s (λ p s',
    p ≠ null ∧ (∃ C c l r, T = plug C (Node c l p y r)) ∧
    item <$> heap s' !! p = Some (Some y) ∧
    tree s' = tree s ∧ Valid s' T ∧
    ∀ a n, heap s !! a = Some n → heap s' !! a = Some n).
Proof.
  intros Htr Hsw HV Hb Hfuel Hy He.
  pose proof (Valid_alloc _ _ (mkNode (nill (tree s)) (nill (tree s))
    (nill (tree s)) (nill (tree s)) (nill (tree s)) (Some x) RED) HV) as HV0.
  eapply (wp_Get Less fuel s T x); [done|lia| |].
  { intros C HT Hp. exfalso. rewrite HT in Hb, Hy.
    by eapply path_absent. }
  intros C c l z kz r HT Hz.
  assert (y = kz) as <-.
  { rewrite HT in Hb, Hy. by eapply bst_equiv_unique. }
  destruct (Valid_null _ _ HV0) as [Hnull _].
  pose proof HV0 as [(Htok0 & _) _]. rewrite HT in Htok0.
  destruct (tok_node _ _ _ _ _ _ _ Htok0) as (_ & pv & nx & Hzn).
  split_and!; try done.
  - intros ->. apply Hnull. rewrite HT. apply addr_in_plug.
  - by exists C, c, l, r.
  - by rewrite Hzn.
  - intros a n Ha. cbn. rewrite lookup_insert_ne; [done|].
    intros <-. destruct (new_addr_fresh (heap s)) as [Hf _]. congruence.
Qed.

(** Insert, then Get: with an irreflexive and transitive Less, on a
    valid ordered container that stores no item equal to [x], Get(x)
    after Insert(x) returns the node that Insert returned. *)
Theorem Insert_then_Get fuel s T x :
  lirrefl Less → ltrans Less →
  Valid s T → bst Less T → length (addrs T) + 2 < fuel →
  (∀ y, y ∈ keys T → ¬ equiv_item Less x y) →
  wp (Insert Less fuel (Some x)) s (λ r1 s1,
    snd r1 = true ∧
    wp (Get Less fuel (Some x)) s1 (λ p _, p = fst r1)).
Proof.
  intros Hirr Htr HV Hb Hfuel Habs.
  eapply (wp_Insert Less fuel s T x); [done|lia| |].
  { intros C c l y ky r HT He. exfalso. apply (Habs ky); [|done].
    rewrite HT. apply key_in_plug. }
  intros s1 T1 C HT Hp HV1 Ha1 Hk1 Hnl1 Hout1 Hit1. split; [done|].
  set (z := new_addr (heap s)) in *. cbn [fst].
  assert (bst Less T1) as Hb1.
  { unfold bst. rewrite Hk1. apply bst_insert; [done|done|by rewrite <- HT]. }
  assert (addrs T = ctxL C ++ ctxR C) as HaT by (by rewrite HT, addrs_plug).
  eapply (wp_Get Less fuel s1 T1 x); [done| | |].
  { rewrite Ha1. rewrite HaT in Hfuel. clear -Hfuel.
    rewrite !length_app in *. cbn [length]. lia. }
  { intros C' HT1 Hp'. exfalso. rewrite HT1 in Hb1.
    eapply (path_absent Less x C' x); [done|done|done| |by split].
    rewrite <- HT1, Hk1. set_solver. }
  intros C' c l z' kz' r HT1 He.
  destruct (decide (z' = z)) as [|Hne]; [done|exfalso].
  assert (z' ∈ addrs T) as Hin.
  { pose proof (addr_in_plug C' c l z' kz' r) as Hin.
    rewrite <- HT1, Ha1 in Hin. rewrite HaT. clear -Hin Hne. set_solver. }
  pose proof HV as [(((_ & Hrep) & _) & _) _].
  destruct (rep_lookup _ _ _ _ _ Hrep Hin) as (n & k' & Hn & Hi & Hk').
  pose proof HV1 as [(Htok1 & _) _]. rewrite HT1 in Htok1.
  destruct (tok_node _ _ _ _ _ _ _ Htok1) as (_ & pv & nx & Hz1).
  pose proof (Hit1 z') as Hi1. rewrite Hz1 in Hi1. cbn [heap] in Hi1.
  rewrite lookup_insert_ne in Hi1 by done. rewrite Hn in Hi1.
  cbn in Hi1. rewrite Hi in Hi1. injection Hi1 as ->.
  by apply (Habs k').
Qed.

End MoreOps.

Section TestBlack.
Context {Item : Type}.
Implicit Types (s : @state Item) (h : gmap nat (@Rbnode Item))
  (t T : @atree Item) (tr : @Rbtree) (C : list (@frame Item)).

Lemma testBlack_rbt s t : ∀ fuel par n (dep total : Z),
  rep (heap s) (nill (tree s)) t par → nill (tree s) ∉ addrs t →
  rbt t n → length (addrs t) < fuel →
  (0 ≤ dep)%Z → total = (-1)%Z ∨ total = (dep + Z.of_nat n)%Z →
  testBlack fuel (root_of (nill (tree s)) t) (nill (tree s)) dep total s =
    Ok (dep + Z.of_nat n)%Z s.
Proof.
  destruct s as [[nl rt cnt fst lst] h]. cbn [tree heap nill].
  induction t as [|c l IHl a k r IHr]; intros fuel par n dep total Hrep Hnl Hn
    Hfuel Hdep Htot;
    (destruct fuel as [|fuel]; [cbn in Hfuel; lia|]).
  - cbn [rbt] in Hn. subst n. cbn [testBlack root_of]. rewrite Nat.eqb_refl.
    rewrite Z.add_0_r. destruct Htot as [->| ->].
    + done.
    + rewrite Z.add_0_r. destruct (Z.eqb_spec dep (-1)); [lia|].
      by rewrite Z.eqb_refl.
  - cbn [rep addrs root_of] in *. destruct Hrep as ((pv & nx & Ha) & Hl & Hr).
    assert (a ≠ nl ∧ nl ∉ addrs l ∧ nl ∉ addrs r) as (Hna & Hnl1 & Hnl2)
      by (clear -Hnl; set_solver).
    rewrite length_app in Hfuel. cbn [length] in Hfuel.
    cbn [testBlack]. rewrite (proj2 (Nat.eqb_neq _ _) Hna).
    unfold bind at 1. unfold load at 1. cbn [heap]. rewrite Ha. cbn [color].
    unfold bind at 1. unfold load at 1. cbn [heap]. rewrite Ha. cbn [left].
    unfold bind at 1.
    destruct c; cbn [rbt eqb BLACK] in *.
    + destruct n as [|m]; [done|]. destruct Hn as [Hn1 Hn2].
      rewrite (IHl fuel a m (dep + 1)%Z total Hl Hnl1 Hn1); [|lia|lia|lia].
      unfold bind at 1. unfold load at 1. cbn [heap]. rewrite Ha. cbn [right].
      rewrite (IHr fuel a m (dep + 1)%Z _ Hr Hnl2 Hn2); [|lia|lia|by right].
      f_equal. lia.
    + destruct Hn as (_ & _ & Hn1 & Hn2).
      rewrite (IHl fuel a n dep total Hl Hnl1 Hn1); [|lia|lia|done].
      unfold bind at 1. unfold load at 1. cbn [heap]. rewrite Ha. cbn [right].
      by rewrite (IHr fuel a n dep _ Hr Hnl2 Hn2); [|lia|lia|by right].
Qed.

(** testBlack: on a container whose tree is red-black balanced, the
    test of the black depths, started as testStructure starts it,
    returns (it does not panic) with the number of black nodes on every
    path from the root to a leaf, and changes nothing. *)
Theorem testBlack_passes fuel s T :
  tok s T → is_rb T → length (addrs T) < fuel →
  ∃ n, rbt T n ∧
    testBlack fuel (root (tree s)) (nill (tree s)) 0 (-1) s = Ok (Z.of_nat n) s.
Proof.
  intros ((Hrt & Hrep) & _ & _ & Hnl) [_ [n Hn]] Hfuel. exists n.
  split; [done|]. rewrite Hrt.
  by rewrite (testBlack_rbt s T fuel (nill (tree s)) n 0 (-1));
    [|done|done|done|done|lia|left].
Qed.

End TestBlack.

Section TestBST.
Context {Item : Type} (Less : Item → Item → bool).
Implicit Types (s : @state Item) (h : gmap nat (@Rbnode Item))
  (t T : @atree Item) (tr : @Rbtree) (C : list (@frame Item)).

Lemma root_key_in c (l : @atree Item) (a : ptr) k r : k ∈ keys (Node c l a k r).
Proof. cbn. set_solver. Qed.

Lemma testBST_sorted s t : ∀ fuel par (cnt : Z),
  t ≠ Leaf →
  rep (heap s) (nill (tree s)) t par → nill (tree s) ∉ addrs t →
  StronglySorted (lt Less) (keys t) → length (addrs t) ≤ fuel →
  testBST Less fuel (root_of (nill (tree s)) t) (nill (tree s)) cnt s =
    Ok (cnt + Z.of_nat (length (addrs t)))%Z s.
Proof.
  destruct s as [[nl rt cnt0 fst lst] h]. cbn [tree heap nill].
  induction t as [|c l IHl a k r IHr]; intros fuel par cnt Ht Hrep Hnl Hs Hfuel;
    [done|].
  cbn [rep addrs root_of keys] in *.
  destruct Hrep as ((pv & nx & Ha) & Hl & Hr).
  assert (a ≠ nl ∧ nl ∉ addrs l ∧ nl ∉ addrs r) as (Hna & Hnl1 & Hnl2)
    by (clear -Hnl; set_solver).
  rewrite length_app in Hfuel. cbn [length] in Hfuel.
  destruct fuel as [|fuel]; [lia|].
  apply ss_app in Hs as (H1 & Hsl & [H2 Hsr]%ss_cons).
  apply wp_eq. cbn [testBST].
  assert (wp (if negb (root_of nl l =? nl)
              then
                l0 ← load left a; li ← load item l0; ni ← load item a;
                b ← less Less li ni;
                if negb b then panic
                else l1 ← load left a; testBST Less fuel l1 nl (cnt + 1)%Z
              else ret (cnt + 1)%Z)
            (mkState (mkTree nl rt cnt0 fst lst) h)
            (λ c' s', c' = (cnt + 1 + Z.of_nat (length (addrs l)))%Z ∧
                      s' = mkState (mkTree nl rt cnt0 fst lst) h)) as HL.
  { destruct l as [|cl ll b kl lr].
    - cbn [root_of addrs length]. rewrite Nat.eqb_refl. cbn [negb].
      apply wp_ret. split; [lia|done].
    - cbn [root_of]. cbn [rep] in Hl. destruct Hl as ((pv' & nx' & Hb) & Hl).
      assert (b ≠ nl) as Hbn by (clear -Hnl1; cbn in Hnl1; set_solver).
      rewrite (proj2 (Nat.eqb_neq _ _) Hbn). cbn [negb].
      repeat xstep. cbn [less]. apply wp_bind_ret.
      rewrite (H1 kl k); [|apply root_key_in|by left]. cbn [negb].
      xstep. unfold wp.
      pose proof (IHl fuel a (cnt + 1)%Z ltac:(done)
        (conj (ex_intro _ pv' (ex_intro _ nx' Hb)) Hl) Hnl1 Hsl ltac:(lia)) as E.
      cbn [root_of] in E. rewrite E. done. }
  xstep. apply wp_bind. eapply wp_mono; [exact HL|].
  intros c' s' [-> ->]. cbn beta. xstep.
  destruct r as [|cr rl b kr rr].
  - cbn [root_of addrs length]. rewrite Nat.eqb_refl. cbn [negb].
    apply wp_ret. split; [|done]. rewrite !length_app. cbn [length]. lia.
  - cbn [root_of]. cbn [rep] in Hr. destruct Hr as ((pv' & nx' & Hb) & Hr).
    assert (b ≠ nl) as Hbn by (clear -Hnl2; cbn in Hnl2; set_solver).
    rewrite (proj2 (Nat.eqb_neq _ _) Hbn). cbn [negb].
    repeat xstep. cbn [less]. apply wp_bind_ret.
    rewrite (H2 kr); [|apply root_key_in]. cbn [negb].
    xstep. unfold wp.
    pose proof (IHr fuel a (cnt + 1 + Z.of_nat (length (addrs l)))%Z ltac:(done)
      (conj (ex_intro _ pv' (ex_intro _ nx' Hb)) Hr) Hnl2 Hsr ltac:(lia)) as E.
    cbn [root_of] in E. rewrite E. split; [|done].
    cbn [addrs]. rewrite !length_app. cbn [length]. rewrite ?length_app.
    cbn [length]. lia.
Qed.

(** testBST: on a non-empty ordered container, the test of the order
    between each node and its children, started as testStructure
    starts it, returns (it does not panic) with the counter raised by
    the number of nodes, which is the count of the container, and
    changes nothing. *)
Theorem testBST_passes fuel s T :
  Valid s T → bst Less T → T ≠ Leaf → length (addrs T) ≤ fuel →
  testBST Less fuel (root (tree s)) (nill (tree s)) 0 s =
    Ok (count (tree s)) s.
Proof.
  intros [(((Hrt & Hrep) & _ & _ & Hnl) & _ & _ & _ & _ & Hc) _] Hb HT Hfuel.
  rewrite Hrt, Hc.
  by rewrite (testBST_sorted s T fuel (nill (tree s)) 0).
Qed.

End TestBST.

Section Height.
Context {Item : Type}.
Implicit Types (s : @state Item) (h : gmap nat (@Rbnode Item))
  (t T : @atree Item) (tr : @Rbtree) (C : list (@frame Item)).

(** A balanced tree of black height [n] is at most twice as high (one
    more under a red root) and has at least [2^n - 1] nodes. *)
Lemma rbt_height t : ∀ n, rbt t n →
  height t ≤ 2 * n + (if rcolor t then 0 else 1) ∧
  2 ^ n ≤ length (addrs t) + 1.
Proof.
  induction t as [|c l IHl a k r IHr]; intros n; cbn [rbt height rcolor addrs].
  - intros ->. cbn. lia.
  - rewrite length_app. cbn [length]. destruct c.
    + destruct n as [|m]; [done|]. intros [Hl Hr].
      destruct (IHl _ Hl) as [H1 H2]. destruct (IHr _ Hr) as [H3 H4].
      split.
      * destruct (rcolor l), (rcolor r); lia.
      * rewrite Nat.pow_succ_r'. lia.
    + intros (Hcl & Hcr & Hl & Hr).
      destruct (IHl _ Hl) as [H1 H2]. destruct (IHr _ Hr) as [H3 H4].
      unfold BLACK in *. rewrite Hcl in H1. rewrite Hcr in H3. split; lia.
Qed.

Lemma is_rb_height T :
  is_rb T → height T ≤ 2 * Nat.log2 (length (addrs T) + 1).
Proof.
  intros [Hc [n Hn]]. destruct (rbt_height _ _ Hn) as [H1 H2].
  unfold BLACK in Hc. rewrite Hc in H1.
  assert (n ≤ Nat.log2 (length (addrs T) + 1)); [|lia].
  apply Nat.log2_le_pow2; lia.
Qed.

End Height.

Section Log.
Context {Item : Type} (Less : Item → Item → bool).
Implicit Types (s : @state Item) (h : gmap nat (@Rbnode Item))
  (t T : @atree Item) (tr : @Rbtree) (C : list (@frame Item)).

Lemma search_loop_height nl rt cnt fst lst h x xn kx t :
  let s := mkState (mkTree nl rt cnt fst lst) h in
  h !! x = Some xn → item xn = Some kx →
  ∀ fuel par,
  rep h nl t par → nl ∉ addrs t → height t < fuel →
  ∃ p, search_loop Less fuel x (root_of nl t) s = Ok p s.
Proof.
  intros s Hz Hzi. subst s.
  induction t as [|c l IHl a k r IHr]; intros fuel par Hrep Hnl Hfuel;
    (destruct fuel as [|fuel]; [cbn in Hfuel; lia|]).
  - exists nl. apply wp_eq. cbn [search_loop root_of]. repeat xstep. done.
  - cbn [rep addrs root_of height] in *.
    destruct Hrep as ((pv & nx & Ha) & Hl & Hr).
    assert (nl ≠ a ∧ nl ∉ addrs l ∧ nl ∉ addrs r) as (Hna & Hnl1 & Hnl2)
      by (clear -Hnl; set_solver).
    destruct (IHl fuel a Hl Hnl1 ltac:(lia)) as [pl El].
    destruct (IHr fuel a Hr Hnl2 ltac:(lia)) as [pr Er].
    destruct (Less k kx) eqn:E1; [|destruct (Less kx k) eqn:E2].
    + exists pr. apply wp_eq. cbn [search_loop]. repeat xstep.
      rewrite Hzi. cbn [less]. apply wp_bind_ret. rewrite E1.
      xstep. unfold wp. by rewrite Er.
    + exists pl. apply wp_eq. cbn [search_loop]. repeat xstep.
      rewrite Hzi. cbn [less]. apply wp_bind_ret. rewrite E1.
      repeat xstep. rewrite Hzi. cbn [less]. apply wp_bind_ret. rewrite E2.
      xstep. unfold wp. by rewrite El.
    + exists a. apply wp_eq. cbn [search_loop]. repeat xstep.
      rewrite Hzi. cbn [less]. apply wp_bind_ret. rewrite E1.
      repeat xstep. rewrite Hzi. cbn [less]. apply wp_bind_ret. rewrite E2.
      by apply wp_ret.
Qed.

(** Get in logarithmic time: on a valid container of [n] items the
    loop of search, under Get, makes at most [2 * log2 (n + 1) + 1]
    rounds: with that much fuel Get returns. *)
Theorem Get_logarithmic s T x :
  Valid s T →
  ∃ p s', Get Less (2 * Nat.log2 (length (addrs T) + 1) + 1) (Some x) s =
            Ok p s'.
Proof.
  intros HV.
  pose proof (Valid_alloc _ _ (mkNode (nill (tree s)) (nill (tree s))
    (nill (tree s)) (nill (tree s)) (nill (tree s)) (Some x) RED) HV)
    as [(((Hrt & Hrep) & _ & _ & Hnl) & Hrb & _) _].
  pose proof (is_rb_height _ Hrb) as Hh.
  destruct s as [[nl rt cnt fst lst] h]. cbn [tree heap nill root] in *.
  set (key := new_addr h) in *.
  set (fuel := 2 * Nat.log2 (length (addrs T) + 1) + 1).
  destruct (search_loop_height nl rt cnt fst lst
              (<[key := mkNode nl nl nl nl nl (Some x) RED]> h) key _ x T
              (lookup_insert_eq _ _ _) eq_refl fuel nl Hrep Hnl ltac:(lia))
    as [p Hp].
  rewrite <- Hrt in Hp.
  unfold Get, bind, tget, alloc, search. cbn [tree heap nill root].
  fold key. unfold bind, tget. cbn [tree heap nill root]. rewrite Hp.
  cbn [tree nill]. destruct (p =? nl); eauto.
Qed.

Lemma rep_items h nl t par :
  rep h nl t par →
  Forall2 (λ a k, item <$> h !! a = Some (Some k)) (addrs t) (keys t).
Proof.
  revert par. induction t as [|c l IHl a k r IHr]; intros par; cbn [rep addrs keys].
  - intros _. constructor.
  - intros ((pv & nx & Ha) & Hl & Hr). apply Forall2_app; [by eapply IHl|].
    constructor; [by rewrite Ha|by eapply IHr].
Qed.

(** Ordered iteration: on a valid ordered container, when Next on a
    node [a] returns a node [b] of the sequence, the item of [a] is
    less than the item of [b]: the walk from First along Next visits
    the items in increasing order. *)
Theorem Next_increases s T l1 a b l2 :
  Valid s T → bst Less T → addrs T = l1 ++ a :: b :: l2 →
  Next a s = Ok b s ∧
  ∃ ka kb, item <$> heap s !! a = Some (Some ka) ∧
           item <$> heap s !! b = Some (Some kb) ∧ Less ka kb = true.
Proof.
  intros HV Hb HT.
  destruct HV as [(((_ & Hrep) & _) & _ & Hdll & _) _]. split.
  { rewrite HT in Hdll. apply dll_app in Hdll as [_ Hd]. cbn [dll hd] in Hd.
    destruct Hd as [(na & Ha & _ & Hx) _].
    unfold Next, load. by rewrite Ha, Hx. }
  apply rep_items in Hrep. rewrite HT in Hrep.
  apply Forall2_app_inv_l in Hrep as (k1 & k' & _ & Hrep & Hk).
  apply Forall2_cons_inv_l in Hrep as (ka & k'' & Ha & Hrep & ->).
  apply Forall2_cons_inv_l in Hrep as (kb & k2 & Hkb & _ & ->).
  exists ka, kb. split_and!; [done|done|].
  unfold bst in Hb. rewrite Hk in Hb.
  apply ss_app in Hb as (_ & _ & [Hb _]%ss_cons). apply Hb. by left.
Qed.

End Log.

Lemma ex_absent_7 : ∀ y, y ∈ keys ex_tree → ¬ equiv_item ex_less 7 y.
Proof.
  intros y Hy [_ H]. cbn in Hy.
  repeat (apply elem_of_cons in Hy as [->|Hy]; [discriminate H|]).
  by apply elem_of_nil in Hy.
Qed.

Lemma ex_stored_3 : 3 ∈ keys ex_tree.
Proof. cbn. set_solver. Qed.

Lemma ex_equiv_3 : equiv_item ex_less 3 3.
Proof. split; reflexivity. Qed.

Lemma Init_resets_witness :
  heap ex_state !! null = None ∧
  wp Init ex_state (λ _ s',
    Valid s' Leaf ∧ count (tree s') = 0%Z ∧
    heap ex_state !! nill (tree s') = None ∧
    ∀ a n, heap ex_state !! a = Some n → heap s' !! a = Some n).
Proof.
  split; [exact (proj2 ex_valid)|].
  exact (Init_resets ex_state (proj2 ex_valid)).
Defined.

Lemma Count_is_size_witness :
  Valid ex_state ex_tree ∧ Count ex_state = Ok 3%Z ex_state.
Proof.
  split; [exact ex_valid|].
  exact (Count_is_size ex_state ex_tree ex_valid).
Defined.

Lemma list_walk_in_order_witness :
  Valid ex_state ex_tree ∧
  First ex_state = Ok 3 ex_state ∧ Last ex_state = Ok 4 ex_state ∧
  Next 3 ex_state = Ok 2 ex_state ∧ Prev 2 ex_state = Ok 3 ex_state ∧
  Next 2 ex_state = Ok 4 ex_state ∧ Prev 4 ex_state = Ok 2 ex_state.
Proof.
  destruct (list_walk_in_order ex_state ex_tree ex_valid) as (H1 & H2 & H3).
  destruct (H3 [] 3 2 [4] eq_refl) as [H4 H5].
  destruct (H3 [3] 2 4 [] eq_refl) as [H6 H7].
  split_and!; [exact ex_valid|exact H1|exact H2|exact H4|exact H5|exact H6
              |exact H7].
Defined.

Lemma min_max_ends_witness :
  tok ex_state (plug [] ex_tree) ∧ length (addrs ex_tree) ≤ 10 ∧
  min 10 2 ex_state = Ok 3 ex_state ∧ max 10 2 ex_state = Ok 4 ex_state.
Proof.
  assert (tok ex_state (plug [] ex_tree)) as Htok
    by exact (proj1 (proj1 ex_valid)).
  assert (length (addrs ex_tree) ≤ 10) as Hf by (cbn; lia).
  destruct (min_max_ends 10 ex_state [] ex_tree Htok Hf) as [H1 H2].
  split_and!; [exact Htok|exact Hf|exact H1|exact H2].
Defined.

Lemma successor_is_next_witness :
  tok ex_state ex_tree ∧ addrs ex_tree = [3] ++ 2 :: [4] ∧
  length (addrs ex_tree) < 10 ∧
  successor 10 2 ex_state = Ok 4 ex_state.
Proof.
  assert (length (addrs ex_tree) < 10) as Hf by (cbn; lia).
  split_and!; [exact (proj1 (proj1 ex_valid))|reflexivity|exact Hf|].
  exact (successor_is_next 10 ex_state ex_tree [3] 2 [4]
           (proj1 (proj1 ex_valid)) eq_refl Hf).
Defined.

Lemma ex_linked_tok :
  tok ex_linked
    (Node BLACK (Node RED Leaf 3 1 Leaf) 2 2
       (Node RED Leaf 4 3 (Node RED Leaf 5 7 Leaf))).
Proof. unfold tok, trep. split_and!; valid_goal. Qed.

Lemma ex_unlinked_tok :
  tok ex_unlinked (Node BLACK Leaf 2 2 (Node BLACK Leaf 4 3 Leaf)).
Proof. unfold tok, trep. split_and!; valid_goal. Qed.

Lemma insertFixup_restores_witness :
  let C := [InR RED Leaf 4 3; InR BLACK (Node RED Leaf 3 1 Leaf) 2 2] in
  let T := plug C (Node RED Leaf 5 7 Leaf) in
  tok ex_linked T ∧ rbc C 0 ∧ length C < 10 ∧ ¬ is_rb T ∧
  wp (insertFixup 10 5) ex_linked (λ _ s',
    ∃ T', tok s' T' ∧ is_rb T' ∧ addrs T' = addrs T ∧ keys T' = keys T ∧
          tframe ex_linked s' (addrs T)) ∧
  ∃ s', insertFixup 10 5 ex_linked = Ok tt s' ∧
        color <$> heap ex_linked !! 4 = Some RED ∧
        color <$> heap s' !! 4 = Some BLACK.
Proof.
  intros C T.
  assert (tok ex_linked T) as Htok by exact ex_linked_tok.
  assert (rbc C 0) as Hc by (cbn; done).
  assert (length C < 10) as Hf by (cbn; lia).
  assert (¬ is_rb T) as Hn.
  { intros [_ [n H]]. cbn in H. destruct n as [|n]; [done|].
    by destruct H as (_ & _ & H & _). }
  split_and!; [exact Htok|exact Hc|exact Hf|exact Hn| |].
  - exact (insertFixup_restores 10 ex_linked C Leaf 5 7 Leaf 0 Htok eq_refl
             eq_refl eq_refl eq_refl Hc Hf).
  - exists (ex_run (insertFixup 10 5) ex_linked).
    split_and!; vm_compute; reflexivity.
Defined.

Lemma deleteFixup_restores_witness :
  let C := [InL BLACK 2 2 (Node BLACK Leaf 4 3 Leaf)] in
  let T := plug C Leaf in
  tok ex_unlinked T ∧ rbt_rr (@Leaf nat) 0 ∧ rbc C 1 ∧ ¬ is_rb T ∧
  wp (deleteFixup 10 (nill (tree ex_unlinked))) ex_unlinked (λ _ s',
    ∃ T', tok s' T' ∧ is_rb T' ∧ addrs T' = addrs T ∧ keys T' = keys T ∧
          tframe ex_unlinked s' (addrs T)) ∧
  ∃ s', deleteFixup 10 (nill (tree ex_unlinked)) ex_unlinked = Ok tt s' ∧
        color <$> heap ex_unlinked !! 4 = Some BLACK ∧
        color <$> heap s' !! 4 = Some RED.
Proof.
  intros C T.
  assert (tok ex_unlinked T) as Htok by exact ex_unlinked_tok.
  assert (rbt_rr (@Leaf nat) 0) as Hrr by reflexivity.
  assert (rbc C 1) as Hc by (cbn; done).
  assert (@Leaf nat = Leaf → ∃ l r pv nx : ptr,
            heap ex_unlinked !! nill (tree ex_unlinked) =
            Some (mkNode l r (caddr (nill (tree ex_unlinked)) C) pv nx None
                    BLACK)) as Hl.
  { intros _. exists 0, 0, 0, 0. vm_compute. reflexivity. }
  assert (length C + 1 < 10) as Hf by (cbn; lia).
  assert (¬ is_rb T) as Hn.
  { intros [_ [n H]]. cbn in H. destruct n as [|n]; [done|].
    destruct H as [-> H]. by cbn in H. }
  split_and!; [exact Htok|exact Hrr|exact Hc|exact Hn| |].
  - exact (deleteFixup_restores 10 ex_unlinked C Leaf 0 Htok Hrr Hc Hl Hf).
  - exists (ex_run (deleteFixup 10 (nill (tree ex_unlinked))) ex_unlinked).
    split_and!; vm_compute; reflexivity.
Defined.

Lemma Insert_new_in_order_witness :
  ltrans ex_less ∧ Valid ex_state ex_tree ∧ bst ex_less ex_tree ∧
  length (addrs ex_tree) + 1 < 10 ∧
  (∀ y, y ∈ keys ex_tree → ¬ equiv_item ex_less 7 y) ∧
  wp (Insert ex_less 10 (Some 7)) ex_state (λ res s',
    ∃ z T' l1 l2 k1 k2,
      res = (z, true) ∧ heap ex_state !! z = None ∧
      item <$> heap s' !! z = Some (Some 7) ∧
      addrs ex_tree = l1 ++ l2 ∧ addrs T' = l1 ++ z :: l2 ∧
      keys ex_tree = k1 ++ k2 ∧ keys T' = k1 ++ 7 :: k2 ∧
      (∀ k, k ∈ k1 → ex_less k 7 = true) ∧
      (∀ k, k ∈ k2 → ex_less 7 k = true) ∧
      Valid s' T' ∧ bst ex_less T' ∧
      count (tree s') = (count (tree ex_state) + 1)%Z).
Proof.
  split_and!; [exact ex_less_trans|exact ex_valid|exact ex_bst|exact ex_fuel
              |exact ex_absent_7|].
  exact (Insert_new_in_order ex_less 10 ex_state ex_tree 7 ex_less_trans
           ex_valid ex_bst ex_fuel ex_absent_7).
Defined.

Lemma Remove_found_in_order_witness :
  ltrans ex_less ∧ lequiv_trans ex_less ∧ Valid ex_state ex_tree ∧
  bst ex_less ex_tree ∧ length (addrs ex_tree) + 1 < 10 ∧
  3 ∈ keys ex_tree ∧ equiv_item ex_less 3 3 ∧
  wp (Remove ex_less 10 (Some 3)) ex_state (λ res s',
    ∃ z T' l1 l2 k1 k2,
      res = (IItem 3, true) ∧
      item <$> heap ex_state !! z = Some (Some 3) ∧
      heap s' !! z = heap ex_state !! z ∧
      addrs ex_tree = l1 ++ z :: l2 ∧ addrs T' = l1 ++ l2 ∧
      keys ex_tree = k1 ++ 3 :: k2 ∧ keys T' = k1 ++ k2 ∧
      length l1 = length k1 ∧
      (∀ a, a ∈ addrs ex_tree →
            item <$> heap s' !! a = item <$> heap ex_state !! a) ∧
      Valid s' T' ∧ bst ex_less T' ∧
      count (tree s') = (count (tree ex_state) - 1)%Z).
Proof.
  split_and!; [exact ex_less_trans|exact ex_less_equiv_trans|exact ex_valid
              |exact ex_bst|exact ex_fuel|exact ex_stored_3|exact ex_equiv_3|].
  exact (Remove_found_in_order ex_less 10 ex_state ex_tree 3 3 ex_less_trans
           ex_less_equiv_trans ex_valid ex_bst ex_fuel ex_stored_3 ex_equiv_3).
Defined.

Lemma Get_finds_witness :
  ltrans ex_less ∧ lequiv_trans ex_less ∧ Valid ex_state ex_tree ∧
  bst ex_less ex_tree ∧ length (addrs ex_tree) + 1 < 10 ∧
  3 ∈ keys ex_tree ∧ equiv_item ex_less 3 3 ∧
  wp (Get ex_less 10 (Some 3)) ex_state (λ p s',
    p ≠ null ∧ (∃ C c l r, ex_tree = plug C (Node c l p 3 r)) ∧
    item <$> heap s' !! p = Some (Some 3) ∧ tree s' = tree ex_state ∧
    Valid s' ex_tree ∧
    ∀ a n, heap ex_state !! a = Some n → heap s' !! a = Some n).
Proof.
  split_and!; [exact ex_less_trans|exact ex_less_equiv_trans|exact ex_valid
              |exact ex_bst|exact ex_fuel|exact ex_stored_3|exact ex_equiv_3|].
  exact (Get_finds ex_less 10 ex_state ex_tree 3 3 ex_less_trans
           ex_less_equiv_trans ex_valid ex_bst ex_fuel ex_stored_3 ex_equiv_3).
Defined.

Lemma Insert_then_Get_witness :
  lirrefl ex_less ∧ ltrans ex_less ∧ Valid ex_state ex_tree ∧
  bst ex_less ex_tree ∧ length (addrs ex_tree) + 2 < 10 ∧
  (∀ y, y ∈ keys ex_tree → ¬ equiv_item ex_less 7 y) ∧
  wp (Insert ex_less 10 (Some 7)) ex_state (λ r1 s1,
    snd r1 = true ∧
    wp (Get ex_less 10 (Some 7)) s1 (λ p _, p = fst r1)).
Proof.
  assert (length (addrs ex_tree) + 2 < 10) as Hf by (cbn; lia).
  split_and!; [exact ex_less_irrefl|exact ex_less_trans|exact ex_valid
              |exact ex_bst|exact Hf|exact ex_absent_7|].
  exact (Insert_then_Get ex_less 10 ex_state ex_tree 7 ex_less_irrefl
           ex_less_trans ex_valid ex_bst Hf ex_absent_7).
Defined.

Lemma testBlack_passes_witness :
  tok ex_state ex_tree ∧ is_rb ex_tree ∧ length (addrs ex_tree) < 10 ∧
  ∃ n, rbt ex_tree n ∧
       testBlack 10 (root (tree ex_state)) (nill (tree ex_state)) 0 (-1)
         ex_state = Ok (Z.of_nat n) ex_state.
Proof.
  assert (length (addrs ex_tree) < 10) as Hf by (cbn; lia).
  split_and!; [exact (proj1 (proj1 ex_valid))
              |exact (proj1 (proj2 (proj1 ex_valid)))|exact Hf|].
  exact (testBlack_passes 10 ex_state ex_tree (proj1 (proj1 ex_valid))
           (proj1 (proj2 (proj1 ex_valid))) Hf).
Defined.

Lemma testBST_passes_witness :
  Valid ex_state ex_tree ∧ bst ex_less ex_tree ∧ ex_tree ≠ Leaf ∧
  length (addrs ex_tree) ≤ 10 ∧
  testBST ex_less 10 (root (tree ex_state)) (nill (tree ex_state)) 0 ex_state =
    Ok 3%Z ex_state.
Proof.
  assert (ex_tree ≠ Leaf) as Hn by discriminate.
  assert (length (addrs ex_tree) ≤ 10) as Hf by (cbn; lia).
  split_and!; [exact ex_valid|exact ex_bst|exact Hn|exact Hf|].
  exact (testBST_passes ex_less 10 ex_state ex_tree ex_valid ex_bst Hn Hf).
Defined.

Lemma Get_logarithmic_witness :
  Valid ex_state ex_tree ∧
  ∃ p s', Get ex_less (2 * Nat.log2 (length (addrs ex_tree) + 1) + 1)
            (Some 3) ex_state = Ok p s'.
Proof.
  split; [exact ex_valid|].
  exact (Get_logarithmic ex_less ex_state ex_tree 3 ex_valid).
Defined.

Lemma Next_increases_witness :
  Valid ex_state ex_tree ∧ bst ex_less ex_tree ∧
  addrs ex_tree = [] ++ 3 :: 2 :: [4] ∧
  Next 3 ex_state = Ok 2 ex_state ∧
  ∃ ka kb, item <$> heap ex_state !! 3 = Some (Some ka) ∧
           item <$> heap ex_state !! 2 = Some (Some kb) ∧
           ex_less ka kb = true.
Proof.
  split_and!; [exact ex_valid|exact ex_bst|reflexivity|..];
    apply (Next_increases ex_less ex_state ex_tree [] 3 2 [4] ex_valid ex_bst
             eq_refl).
Defined.

Section RotInv.
Context {Item : Type}.
Implicit Types (s : @state Item) (h : gmap nat (@Rbnode Item))
  (t T : @atree Item) (tr : @Rbtree) (C : list (@frame Item)).

(** Two stores that hold the same tree and agree on the list fields
    agree on the nodes of the tree. *)
Lemma rep_same h h' nl t : ∀ par,
  rep h nl t par → rep h' nl t par →
  (∀ a, lview <$> h' !! a = lview <$> h !! a) →
  ∀ a, a ∈ addrs t → h' !! a = h !! a.
Proof.
  induction t as [|c l IHl b k r IHr]; intros par Hr Hr' Hlv a Ha;
    cbn [rep addrs] in *.
  - by apply elem_of_nil in Ha.
  - destruct Hr as ((pv & nx & Hb) & Hl & Hrr).
    destruct Hr' as ((pv' & nx' & Hb') & Hl' & Hrr').
    apply elem_of_app in Ha as [Ha|Ha]; [by eapply IHl|].
    apply elem_of_cons in Ha as [->|Ha]; [|by eapply IHr].
    specialize (Hlv b). rewrite Hb, Hb' in Hlv. unfold lview in Hlv.
    cbn in Hlv. rewrite Hb, Hb'. by simplify_eq.
Qed.

Lemma tstep_same s s' T :
  tstep (nill (tree s)) s (addrs T) (keys T) s' T → tok s T → s' = s.
Proof.
  intros (Hn & ((Hrt' & Hrep') & _) & _ & _ & (_ & Hc & Hf & Hl & Hlv & Hout))
         ((Hrt & Hrep) & _).
  destruct s as [[nl rt cnt fst lst] h], s' as [[nl' rt' cnt' fst' lst'] h'].
  cbn [tree heap nill root count first last] in *. subst.
  f_equal. apply map_eq. intros a.
  destruct (decide (a ∈ addrs T)) as [Ha|Ha]; [|by apply Hout].
  by eapply rep_same.
Qed.

(** rightRotate undoes leftRotate: after [leftRotate x] the former
    right child [y] of [x] is the root of the subtree, and
    [rightRotate y] then gives back exactly the state before the two
    calls. *)
Theorem leftRotate_then_rightRotate s C c A x k c' B y k' G :
  tok s (plug C (Node c A x k (Node c' B y k' G))) →
  (leftRotate x ;; rightRotate y) s = Ok tt s.
Proof.
  intros Htok. pose proof (tok_tstep _ _ Htok) as Hst.
  apply wp_eq, wp_bind.
  eapply wp_leftRotate; [exact Hst|]. intros s1 H1.
  eapply wp_rightRotate; [exact H1|]. intros s2 H2.
  split; [done|]. exact (tstep_same _ _ _ H2 Htok).
Qed.

(** leftRotate undoes rightRotate: after [rightRotate x] the former
    left child [y] of [x] is the root of the subtree, and
    [leftRotate y] then gives back exactly the state before the two
    calls. *)
Theorem rightRotate_then_leftRotate s C c A y k' B c' x k G :
  tok s (plug C (Node c (Node c' A y k' B) x k G)) →
  (rightRotate x ;; leftRotate y) s = Ok tt s.
Proof.
  intros Htok. pose proof (tok_tstep _ _ Htok) as Hst.
  apply wp_eq, wp_bind.
  eapply wp_rightRotate; [exact Hst|]. intros s1 H1.
  eapply wp_leftRotate; [exact H1|]. intros s2 H2.
  split; [done|]. exact (tstep_same _ _ _ H2 Htok).
Qed.

End RotInv.

Lemma leftRotate_then_rightRotate_witness :
  tok ex_state (plug [] (Node BLACK (Node RED Leaf 3 1 Leaf) 2 2
                           (Node RED Leaf 4 3 Leaf))) ∧
  (leftRotate 2 ;; rightRotate 4) ex_state = Ok tt ex_state.
Proof.
  split; [exact (proj1 (proj1 ex_valid))|].
  exact (leftRotate_then_rightRotate ex_state [] BLACK (Node RED Leaf 3 1 Leaf)
           2 2 RED Leaf 4 3 Leaf (proj1 (proj1 ex_valid))).
Defined.

Lemma rightRotate_then_leftRotate_witness :
  tok ex_state (plug [] (Node BLACK (Node RED Leaf 3 1 Leaf) 2 2
                           (Node RED Leaf 4 3 Leaf))) ∧
  (rightRotate 2 ;; leftRotate 3) ex_state = Ok tt ex_state.
Proof.
  split; [exact (proj1 (proj1 ex_valid))|].
  exact (rightRotate_then_leftRotate ex_state [] BLACK Leaf 3 1 Leaf RED 2 2
           (Node RED Leaf 4 3 Leaf) (proj1 (proj1 ex_valid))).
Defined.

Section RemoveGet.
Context {Item : Type} (Less : Item → Item → bool).
Implicit Types (s : @state Item) (h : gmap nat (@Rbnode Item))
  (t T : @atree Item) (tr : @Rbtree) (C : list (@frame Item)).

(** Remove then Get: once Remove has taken the item equivalent to [x]
    out of a valid ordered container, Get with [x] returns nil: no
    second equivalent item is left. *)
Theorem Remove_then_Get fuel s T x y :
  ltrans Less → lequiv_trans Less →
  Valid s T → bst Less T → length (addrs T) + 1 < fuel →
  y ∈ keys T → equiv_item Less x y →
  wp (Remove Less fuel (Some x)) s (λ r1 s1,
    r1 = (IItem y, true) ∧
    wp (Get Less fuel (Some x)) s1 (λ p _, p = null)).
Proof.
  intros Htr Hsw HV Hb Hfuel Hy He.
  eapply (wp_Remove Less fuel s T x); [done|lia| |].
  { intros C HT Hp. exfalso. rewrite HT in Hb, Hy.
    by eapply path_absent. }
  intros s' T' C c l z kz r HT Hz HV' Ha Hk Hnl Hz' Hout Hit.
  assert (y = kz) as <-.
  { rewrite HT in Hb, Hy. by eapply bst_equiv_unique. }
  split; [done|].
  assert (keys T = (kctxL C ++ keys l) ++ y :: keys r ++ kctxR C) as HkT.
  { rewrite HT, keys_plug. cbn [keys]. by rewrite <- !app_assoc. }
  assert (addrs T = (ctxL C ++ addrs l) ++ z :: addrs r ++ ctxR C) as HaT.
  { rewrite HT, addrs_plug. cbn [addrs]. by rewrite <- !app_assoc. }
  eapply (wp_Get Less fuel s' T' x); [done| |done|].
  { rewrite Ha. rewrite HaT in Hfuel. clear -Hfuel.
    rewrite !length_app in *. cbn [length] in Hfuel.
    rewrite !length_app in *. lia. }
  intros C' c' l' z' kz' r' HT' He'. exfalso.
  assert (kz' ∈ keys T') as Hin by (rewrite HT'; apply key_in_plug).
  assert (kz' = y) as ->.
  { rewrite HT in Hb. eapply (bst_equiv_unique Less C c l z y r x kz');
      [done|done|done|done|].
    rewrite <- HT, HkT. rewrite Hk in Hin. clear -Hin. set_solver. }
  assert (equiv_item Less y y) as Hyy.
  { eapply Hsw; [|exact He]. by apply equiv_item_sym. }
  rewrite Hk in Hin. apply elem_of_app in Hin as [Hin|Hin];
    apply list_elem_of_split in Hin as (a1 & a2 & Ha12).
  - eapply (bst_no_equal Less T a1 y a2 y (keys r ++ kctxR C)); [done| |done].
    rewrite HkT, Ha12. by rewrite <- !app_assoc.
  - eapply (bst_no_equal Less T (kctxL C ++ keys l) y a1 y a2); [done| |done].
    by rewrite HkT, Ha12.
Qed.

End RemoveGet.

Lemma Remove_then_Get_witness :
  ltrans ex_less ∧ lequiv_trans ex_less ∧ Valid ex_state ex_tree ∧
  bst ex_less ex_tree ∧ length (addrs ex_tree) + 1 < 10 ∧
  3 ∈ keys ex_tree ∧ equiv_item ex_less 3 3 ∧
  wp (Remove ex_less 10 (Some 3)) ex_state (λ r1 s1,
    r1 = (IItem 3, true) ∧
    wp (Get ex_less 10 (Some 3)) s1 (λ p _, p = null)).
Proof.
  split_and!; [exact ex_less_trans|exact ex_less_equiv_trans|exact ex_valid
              |exact ex_bst|exact ex_fuel|exact ex_stored_3|exact ex_equiv_3|].
  exact (Remove_then_Get ex_less 10 ex_state ex_tree 3 3 ex_less_trans
           ex_less_equiv_trans ex_valid ex_bst ex_fuel ex_stored_3 ex_equiv_3).
Defined.
